(* Verification development for llm-api-proxy (src/worker.js).

   Shallow embedding of the parts of the worker that the specification
   talks about: the WebSocket frame packer, the raw-socket HTTP response
   body, the transport fallback decision, the request router, the SSE line
   iterator, language detection, the continuation request body builder and
   the continuation engine of GeminiHandler.

   JavaScript strings are modelled as lists of UTF-16 code units (list Z),
   which is what String.prototype.length, indexing and regular expressions
   without the u flag operate on.  Byte strings (Uint8Array) are list Z with
   values in 0..255. *)

From Stdlib Require Import ZArith Lia List Bool Btauto String Ascii.
From stdpp Require Import base list gmap.

Import ListNotations.
Open Scope Z_scope.
Set Warnings "-register-all".

(* ================================================================== *)
(** * Common helpers *)
(* ================================================================== *)

(** A JavaScript string: a sequence of UTF-16 code units. *)
Abbreviation jstr := (list Z).

(** Code units of an ASCII Rocq string literal. *)
Fixpoint u (s : string) : list Z :=
  match s with
  | EmptyString => []
  | String c s' => Z.of_nat (nat_of_ascii c) :: u s'
  end.

(** [ToUint8]: storing into a Uint8Array keeps the low 8 bits. *)
Definition u8 (x : Z) : Z := x mod 256.

(** [a === b] on code-unit strings. *)
Fixpoint jstr_eqb (a b : list Z) : bool :=
  match a, b with
  | [], [] => true
  | x :: a', y :: b' => (x =? y) && jstr_eqb a' b'
  | _, _ => false
  end.

Fixpoint starts_with (pat l : list Z) : bool :=
  match pat, l with
  | [], _ => true
  | p :: pat', x :: l' => (p =? x) && starts_with pat' l'
  | _ :: _, [] => false
  end.

(** [l.indexOf(pat)]: the first position where [pat] occurs. *)
Fixpoint index_of (pat l : list Z) : option nat :=
  if starts_with pat l then Some O else
  match l with
  | [] => None
  | _ :: l' => option_map S (index_of pat l')
  end.

(** [l.includes(pat)]. *)
Definition includes (l pat : list Z) : bool :=
  match index_of pat l with Some _ => true | None => false end.

(** WhiteSpace and LineTerminator code units, the set stripped by
    [String.prototype.trim] (and skipped by [parseInt]). *)
Definition js_ws (c : Z) : bool :=
  (c =? 9) || (c =? 10) || (c =? 11) || (c =? 12) || (c =? 13) || (c =? 32)
  || (c =? 160) || (c =? 5760) || ((8192 <=? c) && (c <=? 8202))
  || (c =? 8232) || (c =? 8233) || (c =? 8239) || (c =? 8287)
  || (c =? 12288) || (c =? 65279).

(** [s.trim()] is non-empty (truthy) iff some code unit is not white space. *)
Definition trim_nonempty (s : list Z) : bool := existsb (fun c => negb (js_ws c)) s.

(** ASCII lower-casing of one code unit, as [toLowerCase] does on A-Z. *)
Definition lower_unit (c : Z) : Z := if (65 <=? c) && (c <=? 90) then c + 32 else c.

(** Value of a digit in base [radix] ([0-9a-zA-Z]), if it is one. *)
Definition digit_val (radix c : Z) : option Z :=
  let v := if (48 <=? c) && (c <=? 57) then c - 48
           else if (97 <=? c) && (c <=? 122) then c - 87
           else if (65 <=? c) && (c <=? 90) then c - 55
           else 99 in
  if v <? radix then Some v else None.

Fixpoint digits_acc (radix acc : Z) (s : list Z) (seen : bool) : option Z :=
  match s with
  | c :: s' =>
      match digit_val radix c with
      | Some v => digits_acc radix (acc * radix + v) s' true
      | None => if seen then Some acc else None
      end
  | [] => if seen then Some acc else None
  end.

Fixpoint skip_while (f : Z -> bool) (s : list Z) : list Z :=
  match s with
  | c :: s' => if f c then skip_while f s' else s
  | [] => []
  end.

(** [parseInt(s, radix)] for radix 10 and 16: leading white space, an
    optional sign, for radix 16 an optional 0x prefix, then the longest run
    of digits; [None] is NaN. *)
Definition parseInt (s : list Z) (radix : Z) : option Z :=
  let s1 := skip_while js_ws s in
  let '(sign, s2) :=
    match s1 with
    | 45 :: r => (-1, r)
    | 43 :: r => (1, r)
    | _ => (1, s1)
    end in
  let s3 :=
    if radix =? 16 then
      match s2 with
      | 48 :: x :: r => if (x =? 120) || (x =? 88) then r else s2
      | _ => s2
      end
    else s2 in
  option_map (fun v => sign * v) (digits_acc radix 0 s3 false).

(* ================================================================== *)
(** * WebSocket frame packing: BaseProxy._packFrame *)
(* ================================================================== *)

Module WsFrame.

(** [_packFrame(opcode, payload)].  The 4-byte mask comes from
    [crypto.getRandomValues]; it is an input of the model.  A thrown
    ["Payload too large"] error is [None]. *)
Definition _packFrame (opcode : Z) (mask : list Z) (payload : list Z)
  : option (list Z) :=
  let FIN := 128 in
  let FIN_AND_OP := Z.lor FIN opcode in
  let maskBit := 128 in
  let len := Z.of_nat (length payload) in
  let header :=
    if len <? 126 then Some [u8 FIN_AND_OP; u8 (Z.lor maskBit len)]
    else if len <? 65536 then
      Some [u8 FIN_AND_OP; u8 (Z.lor maskBit 126);
            u8 (Z.land (Z.shiftr len 8) 255); u8 (Z.land len 255)]
    else None in
  match header with
  | None => None
  | Some h =>
      let maskedPayload :=
        map (fun '(i, b) => u8 (Z.lxor b (nth (Nat.modulo i 4) mask 0)))
            (combine (seq 0 (length payload)) payload) in
      Some (h ++ mask ++ maskedPayload)
  end.

Definition packTextFrame (mask payload : list Z) := _packFrame 1 mask payload.
Definition packPongFrame (mask payload : list Z) := _packFrame 10 mask payload.

(** How the length of a frame is encoded, read off the second header byte
    as [SocketFramesReader.nextFrame] does ([second & 0x7f]: 126 announces
    a two-byte extended length, 127 an eight-byte one). *)
Inductive len_form := OneByte | TwoByte | EightByte.

Definition frame_len_form (frame : list Z) : option len_form :=
  match frame with
  | _ :: second :: _ =>
      let payloadLen := Z.land second 127 in
      if payloadLen =? 126 then Some TwoByte
      else if payloadLen =? 127 then Some EightByte
      else Some OneByte
  | _ => None
  end.

(** The length announced by the frame header (reader side). *)
Definition frame_payload_len (frame : list Z) : option Z :=
  match frame with
  | _ :: second :: rest =>
      let payloadLen := Z.land second 127 in
      if payloadLen =? 126 then
        match rest with
        | b2 :: b3 :: _ => Some (Z.lor (Z.shiftl b2 8) b3)
        | _ => None
        end
      else Some payloadLen
  | _ => None
  end.

End WsFrame.

Module WsReader.
Import WsFrame.

(** The chunks a [ReadableStreamDefaultReader] delivers before it reports
    [done]. *)
Abbreviation reads := (list (list Z)).

(** [SocketFramesReader.ensureBuffer(length)]: read chunks until the buffer
    holds [length] bytes; [false] when the stream ends first.  Returns the
    result together with the new buffer and the unread chunks. *)
Fixpoint ensureBuffer (len : nat) (buffer : list Z) (rs : reads)
  : bool * list Z * reads :=
  if (length buffer <? len)%nat then
    match rs with
    | [] => (false, buffer, [])
    | value :: rs' => ensureBuffer len (buffer ++ value) rs'
    end
  else (true, buffer, rs).

(** The fields of a [SocketFramesReader].  [fragmentedPayload] and
    [fragmentedOpcode] are always assigned together (both set, or both
    [null]), so they are one optional pair. *)
Record reader_state := {
  buffer : list Z;
  fragmented : option (list Z * Z)
}.

(** [payload[i] ^= mask[i % 4]] over a Uint8Array. *)
Definition unmask (mask payload : list Z) : list Z :=
  map (fun '(i, b) => u8 (Z.lxor b (nth (Nat.modulo i 4) mask 0)))
      (combine (seq 0 (length payload)) payload).

(** One pass of the body of the [while (true)] loop of [nextFrame], up to
    [this.buffer = this.buffer.slice(offset + payloadLen)]. *)
Inductive raw_frame :=
  | RNull (buf : list Z) (rs : reads)
  | RThrow (buf : list Z) (rs : reads) (msg : jstr)
  | RFrame (buf : list Z) (rs : reads) (fin opcode : Z) (payload : list Z).

(** From [if (!(await this.ensureBuffer(offset + payloadLen)))] to the
    end of the pass: the payload is sliced, unmasked when a mask was read,
    and the buffer advanced past the frame. *)
Definition read_payload (mask : option (list Z)) (offset plen : nat)
    (fin opcode : Z) (buf : list Z) (rs : reads) : raw_frame :=
  match ensureBuffer (offset + plen) buf rs with
  | (false, buf, rs) => RNull buf rs
  | (true, buf, rs) =>
      let payload := firstn plen (skipn offset buf) in
      let payload :=
        match mask with
        | Some m => unmask m payload
        | None => payload
        end in
      RFrame (skipn (offset + plen) buf) rs fin opcode payload
  end.

(** [if (isMasked) { ... mask = this.buffer.slice(offset, offset + 4);
    offset += 4; }] and the rest of the pass. *)
Definition read_mask (isMasked payloadLen : Z) (offset : nat) (fin opcode : Z)
    (buf : list Z) (rs : reads) : raw_frame :=
  if negb (isMasked =? 0) then
    match ensureBuffer (offset + 4) buf rs with
    | (false, buf, rs) => RNull buf rs
    | (true, buf, rs) =>
        read_payload (Some (firstn 4 (skipn offset buf))) (offset + 4)
          (Z.to_nat payloadLen) fin opcode buf rs
    end
  else read_payload None offset (Z.to_nat payloadLen) fin opcode buf rs.

(** The header: two bytes, then a two-byte extended length when the
    length field is 126; 127 (an eight-byte length) is refused. *)
Definition read_frame (buf : list Z) (rs : reads) : raw_frame :=
  match ensureBuffer 2 buf rs with
  | (false, buf, rs) => RNull buf rs
  | (true, buf, rs) =>
      let first := nth 0 buf 0 in
      let second := nth 1 buf 0 in
      let fin := Z.land (Z.shiftr first 7) 1 in
      let opcode := Z.land first 15 in
      let isMasked := Z.land (Z.shiftr second 7) 1 in
      let payloadLen := Z.land second 127 in
      if payloadLen =? 126 then
        match ensureBuffer (2 + 2) buf rs with
        | (false, buf, rs) => RNull buf rs
        | (true, buf, rs) =>
            read_mask isMasked (Z.lor (Z.shiftl (nth 2 buf 0) 8) (nth 3 buf 0))
              4 fin opcode buf rs
        end
      else if payloadLen =? 127 then
        RThrow buf rs (u "127 length mode is not supported")
      else read_mask isMasked payloadLen 2 fin opcode buf rs
  end.

(** What [nextFrame] resolves to: a frame [{opcode, payload}], [null], or a
    thrown error. *)
Inductive frame_result :=
  | Frame (opcode : Z) (payload : list Z)
  | NoFrame
  | FrameError (msg : jstr).

(** The [while (true)] loop of [nextFrame].  A ping is answered with
    [packPongFrame(payload)] written to the socket; [pongs] collects the
    frames written so far, and the mask of the next one is
    [rnd (length pongs)] (the [crypto.getRandomValues] draws).  Every pass
    consumes at least two bytes, so [fuel] above the number of available
    bytes is never exhausted. *)
Fixpoint nextFrame_aux (fuel : nat) (rnd : nat -> list Z) (st : reader_state)
    (rs : reads) (pongs : list (list Z))
  : frame_result * reader_state * reads * list (list Z) :=
  match fuel with
  | O => (NoFrame, st, rs, pongs)
  | S fuel' =>
      match read_frame (buffer st) rs with
      | RNull buf rs' =>
          (NoFrame, {| buffer := buf; fragmented := fragmented st |}, rs', pongs)
      | RThrow buf rs' msg =>
          (FrameError msg, {| buffer := buf; fragmented := fragmented st |}, rs', pongs)
      | RFrame buf rs' fin opcode payload =>
          let st1 := {| buffer := buf; fragmented := fragmented st |} in
          if opcode =? 9 then
            let pongs' :=
              match packPongFrame (rnd (length pongs)) payload with
              | Some fr => pongs ++ [fr]
              | None => pongs
              end in
            nextFrame_aux fuel' rnd st1 rs' pongs'
          else if opcode =? 10 then nextFrame_aux fuel' rnd st1 rs' pongs
          else if opcode =? 0 then
            match fragmented st with
            | None =>
                (FrameError (u "Received continuation frame without initiation"),
                 st1, rs', pongs)
            | Some (fp, fo) =>
                let fp' := fp ++ payload in
                if negb (fin =? 0) then
                  (Frame fo fp', {| buffer := buf; fragmented := None |}, rs', pongs)
                else
                  nextFrame_aux fuel' rnd
                    {| buffer := buf; fragmented := Some (fp', fo) |} rs' pongs
            end
          else if fin =? 0 then
            nextFrame_aux fuel' rnd
              {| buffer := buf; fragmented := Some (payload, opcode) |} rs' pongs
          else (Frame opcode payload, {| buffer := buf; fragmented := None |}, rs', pongs)
      end
  end.

Definition nextFrame (rnd : nat -> list Z) (st : reader_state) (rs : reads)
    (pongs : list (list Z)) :=
  nextFrame_aux (S (length (buffer st ++ concat rs))) rnd st rs pongs.

(** What the socket-to-client loop of [relayWebSocketFrames] does to the
    client WebSocket. *)
(** What the relay does to the client side: [ws.send(payload)],
    [ws.close(code)], or one run of [cleanup()], which clears the timeout,
    calls [cleanupResources(ws, socket, writer, reader)] (closing the client
    WebSocket, the socket and the writer and cancelling the reader, each in
    its own [try]) and deletes the connection from [activeConnections]. *)
Inductive ws_action := Send (payload : list Z) | CloseWs (code : Z) | Cleanup.

(** The reading loop of [relayWebSocketFrames] with its [finally]: text and
    binary frames are sent to the client; a close frame closes it with code
    1000, runs [cleanup()] and returns, and the [finally] runs [cleanup()]
    again; other opcodes are skipped; [null] or a thrown error (logged by
    the [catch]) ends the loop, and the [finally] runs [cleanup()].  Returns
    the actions on the client side and the pong frames written to the remote
    socket.  The fuel bounds the loop by the bytes available; it never runs
    out (see [relay_fuel]). *)
Fixpoint relay_aux (fuel : nat) (rnd : nat -> list Z) (st : reader_state)
    (rs : reads) (pongs : list (list Z)) : list ws_action * list (list Z) :=
  match fuel with
  | O => ([], pongs)
  | S fuel' =>
      match nextFrame rnd st rs pongs with
      | (Frame opcode payload, st', rs', pongs') =>
          if (opcode =? 1) || (opcode =? 2) then
            let '(acts, ps) := relay_aux fuel' rnd st' rs' pongs' in
            (Send payload :: acts, ps)
          else if opcode =? 8 then ([CloseWs 1000; Cleanup; Cleanup], pongs')
          else relay_aux fuel' rnd st' rs' pongs'
      | (_, _, _, pongs') => ([Cleanup], pongs')
      end
  end.

Definition relayFrames (rnd : nat -> list Z) (rs : reads) :=
  relay_aux (S (length (concat rs))) rnd {| buffer := []; fragmented := None |} rs [].

End WsReader.


(* ================================================================== *)
(** * Raw-socket HTTP/1.1 response: BaseProxy.parseResponse *)
(* ================================================================== *)

Module HttpBody.

(** [Array.prototype.slice] / [TypedArray.prototype.slice] on a list:
    negative indices count from the end, both bounds are clamped. *)
Definition js_index (len i : Z) : Z :=
  if i <? 0 then Z.max (len + i) 0 else Z.min i len.

Definition slice (l : list Z) (start stop : Z) : list Z :=
  let len := Z.of_nat (length l) in
  let s := js_index len start in
  let e := js_index len stop in
  firstn (Z.to_nat (e - s)) (skipn (Z.to_nat s) l).

(** [text.split(sep)] for a non-empty separator. *)
Fixpoint split_on_aux (fuel : nat) (sep l : list Z) : list (list Z) :=
  match fuel with
  | O => [l]
  | S f =>
      match index_of sep l with
      | None => [l]
      | Some i => firstn i l :: split_on_aux f sep (skipn (i + length sep) l)
      end
  end.

Definition split_on (sep l : list Z) : list (list Z) := split_on_aux (S (length l)) sep l.

Definition CRLF : list Z := [13; 10].
Definition CRLFCRLF : list Z := [13; 10; 13; 10].

(** The UTF-8 decoder of the Encoding Standard, started in its initial
    state ([utf8_decode 0 0 0 128 191]): the code points it produces, with
    one U+FFFD for each error.  On a byte outside [lower, upper] in the
    middle of a sequence it emits U+FFFD and processes that byte again from
    the initial state; an unfinished sequence at the end gives one U+FFFD. *)
Fixpoint utf8_decode (needed seen cp lower upper : Z) (bs : list Z) : list Z :=
  match bs with
  | [] => if needed =? 0 then [] else [65533]
  | b :: bs' =>
      let start := fun b0 : Z =>
        if b0 <=? 127 then b0 :: utf8_decode 0 0 0 128 191 bs'
        else if (194 <=? b0) && (b0 <=? 223) then utf8_decode 1 0 (Z.land b0 31) 128 191 bs'
        else if (224 <=? b0) && (b0 <=? 239) then
          utf8_decode 2 0 (Z.land b0 15) (if b0 =? 224 then 160 else 128)
            (if b0 =? 237 then 159 else 191) bs'
        else if (240 <=? b0) && (b0 <=? 244) then
          utf8_decode 3 0 (Z.land b0 7) (if b0 =? 240 then 144 else 128)
            (if b0 =? 244 then 143 else 191) bs'
        else 65533 :: utf8_decode 0 0 0 128 191 bs' in
      if needed =? 0 then start b
      else if (b <? lower) || (upper <? b) then 65533 :: start b
      else
        let cp' := Z.lor (Z.shiftl cp 6) (Z.land b 63) in
        if seen + 1 =? needed then cp' :: utf8_decode 0 0 0 128 191 bs'
        else utf8_decode needed (seen + 1) cp' 128 191 bs'
  end.

(** A code point as UTF-16 code units. *)
Definition utf16_units (cp : Z) : list Z :=
  if cp <? 65536 then [cp]
  else [55296 + Z.shiftr (cp - 65536) 10; 56320 + Z.land (cp - 65536) 1023].

(** [TextDecoder] (UTF-8, BOM not ignored) drops a leading U+FEFF. *)
Definition strip_bom (cps : list Z) : list Z :=
  match cps with
  | c :: cps' => if c =? 65279 then cps' else cps
  | [] => []
  end.

(** [this.decoder.decode(b)] without [stream]: a fresh decoding of [b] (the
    decoder of a [SocketProxy] serving an HTTP request is only used this
    way, so no state is carried over from an earlier call), as UTF-16 code
    units.  [parseHttpHeaders] uses a position in this text as a byte offset
    into [buff]. *)
Definition decode (b : list Z) : list Z :=
  concat (map utf16_units (strip_bom (utf8_decode 0 0 0 128 191 b))).

Definition is_digit (c : Z) : bool := (48 <=? c) && (c <=? 57).

Fixpoint span (f : Z -> bool) (l : list Z) : list Z * list Z :=
  match l with
  | c :: l' => if f c then let '(a, b) := span f l' in (c :: a, b) else ([], l)
  | [] => ([], [])
  end.

Fixpoint dec_value (acc : Z) (l : list Z) : Z :=
  match l with [] => acc | c :: l' => dec_value (acc * 10 + (c - 48)) l' end.

(** [.] in a regular expression: any code unit but a line terminator. *)
Definition is_line_term (c : Z) : bool :=
  (c =? 10) || (c =? 13) || (c =? 8232) || (c =? 8233).

(** The status-line pattern of [parseHttpHeaders] (HTTP/1.0 or HTTP/1.1,
    a space, digits, a space, any reason up to a line terminator) tried at
    the start of [l]. *)
Definition status_match_here (l : list Z) : option (Z * list Z) :=
  if starts_with (u "HTTP/1.") l then
    match skipn 7 l with
    | v :: 32 :: rest =>
        if (v =? 48) || (v =? 49) then
          let '(ds, after) := span is_digit rest in
          match ds, after with
          | _ :: _, 32 :: reason => Some (dec_value 0 ds, fst (span (fun c => negb (is_line_term c)) reason))
          | _, _ => None
          end
        else None
    | _ => None
    end
  else None.

(** [statusLine.match(...)]: the leftmost match (the pattern is not
    anchored). *)
Fixpoint status_match (l : list Z) : option (Z * list Z) :=
  match status_match_here l with
  | Some r => Some r
  | None => match l with [] => None | _ :: l' => status_match l' end
  end.

(** Header names must be HTTP tokens, or [Headers.append] throws. *)
Definition tchar (c : Z) : bool :=
  is_digit c || ((65 <=? c) && (c <=? 90)) || ((97 <=? c) && (c <=? 122))
  || existsb (Z.eqb c) (u "!#$%&'*+-.^_`|~").

Definition http_ws (c : Z) : bool := (c =? 9) || (c =? 10) || (c =? 13) || (c =? 32).

(** Header values are normalised (leading and trailing HTTP white space
    removed) and must not contain NUL, CR or LF. *)
Definition normalize_value (v : list Z) : list Z :=
  rev (skip_while http_ws (rev (skip_while http_ws v))).

Abbreviation header_list := (list (list Z * list Z)).

Inductive parsed_headers :=
| PHNone                                  (* no CRLF CRLF yet: [null] *)
| PHThrow (msg : list Z)                  (* thrown error *)
| PHOk (status : Z) (statusText : list Z) (headers : header_list) (headerEnd : nat).

(** The header loop of [parseHttpHeaders]: [headers.append(name, value)]
    throws (a [TypeError]; the model keeps one message for every such
    error) when a code unit of the name or the value is above 255 (the
    ByteString conversion), when the name is not a token, or when the
    normalised value holds NUL, CR or LF. *)
Fixpoint append_headers (acc : header_list) (lines : list (list Z)) : option header_list :=
  match lines with
  | [] => Some acc
  | line :: rest =>
      match index_of (u ": ") line with
      | None => append_headers acc rest
      | Some idx =>
          let name := firstn idx line in
          let value := normalize_value (skipn (idx + 2) line) in
          if forallb tchar name && negb (length name =? 0)%nat
             && negb (existsb (fun c => (c =? 0) || (c =? 10) || (c =? 13) || (255 <? c)) value)
          then append_headers (acc ++ [(name, value)]) rest
          else None
      end
  end.

(** [parseHttpHeaders(buff)]. *)
Definition parseHttpHeaders (buff : list Z) : parsed_headers :=
  let text := decode buff in
  match index_of CRLFCRLF text with
  | None => PHNone
  | Some headerEnd =>
      match split_on CRLF (firstn headerEnd text) with
      | [] => PHNone
      | statusLine :: lines =>
          match status_match statusLine with
          | None => PHThrow (u "Invalid status line: " ++ statusLine)
          | Some (status, statusText) =>
              match append_headers [] lines with
              | None => PHThrow (u "Invalid header")
              | Some headers => PHOk status statusText headers headerEnd
              end
          end
      end
  end.

(** [headers.get(name)]: case-insensitive, all values joined by ", ". *)
Definition headers_get (headers : header_list) (name : list Z) : option (list Z) :=
  let vs := map snd (filter (fun '(k, _) => jstr_eqb (map lower_unit k) name) headers) in
  match vs with
  | [] => None
  | v :: vs' => Some (v ++ concat (map (fun w => u ", " ++ w) vs'))
  end.

(** The socket reader: the chunks it still delivers, then end of stream. *)
Abbreviation reads := (list (list Z)).

(** [while (buff.length < need) { read; if (done) throw ...; concat }] *)
Fixpoint refill (buff : list Z) (need : Z) (rs : reads) : option (list Z * reads) :=
  if Z.of_nat (length buff) <? need then
    match rs with
    | [] => None
    | v :: rs' => refill (buff ++ v) need rs'
    end
  else Some (buff, rs).

(** [readChunks(reader, buff)]: the chunks it yields and the error it
    throws, if any.  Every round either consumes a read or removes at least
    one byte from [buff], so fuel [length rs + length (buff ++ concat rs) + 1]
    is enough. *)
Fixpoint readChunks_aux (fuel : nat) (buff : list Z) (rs : reads)
  : list (list Z) * option (list Z) :=
  match fuel with
  | O => ([], None)
  | S f =>
      match index_of CRLF buff with
      | None =>
          match rs with
          | [] => ([], None)
          | v :: rs' => readChunks_aux f (buff ++ v) rs'
          end
      | Some pos =>
          match parseInt (decode (firstn pos buff)) 16 with
          | None | Some 0 => ([], None)
          | Some size =>
              let buff1 := skipn (pos + 2) buff in
              match refill buff1 (size + 2) rs with
              | None => ([], Some (u "Unexpected EOF in chunked encoding"))
              | Some (buff2, rs') =>
                  let '(cs, e) := readChunks_aux f (slice buff2 (size + 2) (Z.of_nat (length buff2))) rs' in
                  (slice buff2 0 size :: cs, e)
              end
          end
      end
  end.

Definition readChunks (buff : list Z) (rs : reads) : list (list Z) * option (list Z) :=
  readChunks_aux (S (length rs + length (buff ++ concat rs))) buff rs.

(** The non-chunked branch: enqueue what is already buffered, then read
    while fewer than [contentLength] bytes were received ([NaN] compares
    false). *)
Fixpoint read_length (received : Z) (contentLength : option Z) (rs : reads) : list (list Z) :=
  match contentLength with
  | Some cl =>
      if received <? cl then
        match rs with
        | [] => []
        | v :: rs' => v :: read_length (received + Z.of_nat (length v)) contentLength rs'
        end
      else []
  | None => []
  end.

Record response := {
  status : Z; statusText : list Z; headers : header_list;
  body : list (list Z);            (* chunks enqueued on the body stream *)
  body_error : option (list Z)     (* [ctrl.error(err)], or [None] for [ctrl.close()] *)
}.

Inductive result := Throw (msg : list Z) | Ok (r : response).

(** The body stream built once the preamble is parsed. *)
Definition body_of (headers : header_list) (data : list Z) (rs : reads)
  : list (list Z) * option (list Z) :=
  let isChunked :=
    match headers_get headers (u "transfer-encoding") with
    | Some te => includes te (u "chunked")
    | None => false
    end in
  let cl_str :=
    match headers_get headers (u "content-length") with
    | Some v => if (length v =? 0)%nat then u "0" else v
    | None => u "0"
    end in
  let contentLength := parseInt cl_str 10 in
  if isChunked then readChunks data rs
  else ((if (length data =? 0)%nat then [] else [data])
          ++ read_length (Z.of_nat (length data)) contentLength rs, None).

(** [parseResponse(reader, socket)]: read until the preamble parses. *)
Fixpoint parse_loop (buff : list Z) (rs : reads) : result :=
  match rs with
  | [] => Throw (u "Unable to parse response headers")
  | v :: rs' =>
      let buff' := buff ++ v in
      match parseHttpHeaders buff' with
      | PHNone => parse_loop buff' rs'
      | PHThrow msg => Throw msg
      | PHOk st txt hs headerEnd =>
          let data := slice buff' (Z.of_nat headerEnd + 4) (Z.of_nat (length buff')) in
          let '(b, e) := body_of hs data rs' in
          Ok {| status := st; statusText := txt; headers := hs; body := b; body_error := e |}
      end
  end.

Definition parseResponse (rs : reads) : result := parse_loop [] rs.

End HttpBody.


(* ================================================================== *)
(** * Transport selection: SocketProxy.connectHttp and shouldFallbackToFetch *)
(* ================================================================== *)

Module Fallback.

Definition networkErrorKeywords : list (list Z) :=
  map u ["network"; "connection"; "connect"; "socket"; "tcp"; "timeout";
         "timed out"; "refused"; "reset"; "aborted"; "closed"; "lost";
         "unreachable"; "econnrefused"; "econnreset"; "etimedout";
         "enetunreach"; "ehostunreach"; "epipe"; "stream"]%string.

(** ** [String.prototype.toLowerCase]

    The string's code points (a high surrogate followed by a low one is one
    code point, a lone surrogate stands for itself) are mapped by the full
    lowercase mapping of the Unicode Default Case Conversion, and the result
    is written back in UTF-16.  The tables below hold the Unicode Character
    Database 14.0 data.  [lower_runs] lists the simple lowercase mapping as
    runs [(start, count, step, delta)]: the [count] code points [start],
    [start + step], ... map to themselves plus [delta]; a code point in no
    run is its own lowercase.  The one unconditional lowercase mapping of
    SpecialCasing.txt to more than one code point is U+0130 (to U+0069
    U+0307); the one conditional mapping that is not language-specific is
    the final sigma: U+03A3 lowercases to U+03C2 when it is preceded by a
    cased letter and not followed by one, case-ignorable code points in
    between skipped, and to U+03C3 otherwise. *)
Definition lower_runs : list (Z * Z * Z * Z) := [
  (65, 26, 1, 32); (192, 23, 1, 32); (216, 7, 1, 32); (256, 24, 2, 1); (306, 3, 2, 1);
  (313, 8, 2, 1); (330, 23, 2, 1); (376, 1, 1, -121); (377, 3, 2, 1); (385, 1, 1, 210);
  (386, 2, 2, 1); (390, 1, 1, 206); (391, 1, 1, 1); (393, 2, 1, 205); (395, 1, 1, 1);
  (398, 1, 1, 79); (399, 1, 1, 202); (400, 1, 1, 203); (401, 1, 1, 1); (403, 1, 1, 205);
  (404, 1, 1, 207); (406, 1, 1, 211); (407, 1, 1, 209); (408, 1, 1, 1); (412, 1, 1, 211);
  (413, 1, 1, 213); (415, 1, 1, 214); (416, 3, 2, 1); (422, 1, 1, 218); (423, 1, 1, 1);
  (425, 1, 1, 218); (428, 1, 1, 1); (430, 1, 1, 218); (431, 1, 1, 1); (433, 2, 1, 217);
  (435, 2, 2, 1); (439, 1, 1, 219); (440, 1, 1, 1); (444, 1, 1, 1); (452, 1, 1, 2);
  (453, 1, 1, 1); (455, 1, 1, 2); (456, 1, 1, 1); (458, 1, 1, 2); (459, 9, 2, 1);
  (478, 9, 2, 1); (497, 1, 1, 2); (498, 2, 2, 1); (502, 1, 1, -97); (503, 1, 1, -56);
  (504, 20, 2, 1); (544, 1, 1, -130); (546, 9, 2, 1); (570, 1, 1, 10795); (571, 1, 1, 1);
  (573, 1, 1, -163); (574, 1, 1, 10792); (577, 1, 1, 1); (579, 1, 1, -195); (580, 1, 1, 69);
  (581, 1, 1, 71); (582, 5, 2, 1); (880, 2, 2, 1); (886, 1, 1, 1); (895, 1, 1, 116);
  (902, 1, 1, 38); (904, 3, 1, 37); (908, 1, 1, 64); (910, 2, 1, 63); (913, 17, 1, 32);
  (931, 9, 1, 32); (975, 1, 1, 8); (984, 12, 2, 1); (1012, 1, 1, -60); (1015, 1, 1, 1);
  (1017, 1, 1, -7); (1018, 1, 1, 1); (1021, 3, 1, -130); (1024, 16, 1, 80); (1040, 32, 1, 32);
  (1120, 17, 2, 1); (1162, 27, 2, 1); (1216, 1, 1, 15); (1217, 7, 2, 1); (1232, 48, 2, 1);
  (1329, 38, 1, 48); (4256, 38, 1, 7264); (4295, 1, 1, 7264); (4301, 1, 1, 7264); (5024, 80, 1, 38864);
  (5104, 6, 1, 8); (7312, 43, 1, -3008); (7357, 3, 1, -3008); (7680, 75, 2, 1); (7838, 1, 1, -7615);
  (7840, 48, 2, 1); (7944, 8, 1, -8); (7960, 6, 1, -8); (7976, 8, 1, -8); (7992, 8, 1, -8);
  (8008, 6, 1, -8); (8025, 4, 2, -8); (8040, 8, 1, -8); (8072, 8, 1, -8); (8088, 8, 1, -8);
  (8104, 8, 1, -8); (8120, 2, 1, -8); (8122, 2, 1, -74); (8124, 1, 1, -9); (8136, 4, 1, -86);
  (8140, 1, 1, -9); (8152, 2, 1, -8); (8154, 2, 1, -100); (8168, 2, 1, -8); (8170, 2, 1, -112);
  (8172, 1, 1, -7); (8184, 2, 1, -128); (8186, 2, 1, -126); (8188, 1, 1, -9); (8486, 1, 1, -7517);
  (8490, 1, 1, -8383); (8491, 1, 1, -8262); (8498, 1, 1, 28); (8544, 16, 1, 16); (8579, 1, 1, 1);
  (9398, 26, 1, 26); (11264, 48, 1, 48); (11360, 1, 1, 1); (11362, 1, 1, -10743); (11363, 1, 1, -3814);
  (11364, 1, 1, -10727); (11367, 3, 2, 1); (11373, 1, 1, -10780); (11374, 1, 1, -10749); (11375, 1, 1, -10783);
  (11376, 1, 1, -10782); (11378, 1, 1, 1); (11381, 1, 1, 1); (11390, 2, 1, -10815); (11392, 50, 2, 1);
  (11499, 2, 2, 1); (11506, 1, 1, 1); (42560, 23, 2, 1); (42624, 14, 2, 1); (42786, 7, 2, 1);
  (42802, 31, 2, 1); (42873, 2, 2, 1); (42877, 1, 1, -35332); (42878, 5, 2, 1); (42891, 1, 1, 1);
  (42893, 1, 1, -42280); (42896, 2, 2, 1); (42902, 10, 2, 1); (42922, 1, 1, -42308); (42923, 1, 1, -42319);
  (42924, 1, 1, -42315); (42925, 1, 1, -42305); (42926, 1, 1, -42308); (42928, 1, 1, -42258); (42929, 1, 1, -42282);
  (42930, 1, 1, -42261); (42931, 1, 1, 928); (42932, 8, 2, 1); (42948, 1, 1, -48); (42949, 1, 1, -42307);
  (42950, 1, 1, -35384); (42951, 2, 2, 1); (42960, 1, 1, 1); (42966, 2, 2, 1); (42997, 1, 1, 1);
  (65313, 26, 1, 32); (66560, 40, 1, 40); (66736, 36, 1, 40); (66928, 11, 1, 39); (66940, 15, 1, 39);
  (66956, 7, 1, 39); (66964, 2, 1, 39); (68736, 51, 1, 64); (71840, 32, 1, 32); (93760, 32, 1, 32);
  (125184, 34, 1, 34)].

Definition cased_ranges : list (Z * Z) := [
  (65, 90); (97, 122); (170, 170); (181, 181); (186, 186); (192, 214); (216, 246);
  (248, 442); (444, 447); (452, 659); (661, 687); (880, 883); (886, 887); (891, 893);
  (895, 895); (902, 902); (904, 906); (908, 908); (910, 929); (931, 1013); (1015, 1153);
  (1162, 1327); (1329, 1366); (1376, 1416); (4256, 4293); (4295, 4295); (4301, 4301); (4304, 4346);
  (4349, 4351); (5024, 5109); (5112, 5117); (7296, 7304); (7312, 7354); (7357, 7359); (7424, 7467);
  (7531, 7543); (7545, 7578); (7680, 7957); (7960, 7965); (7968, 8005); (8008, 8013); (8016, 8023);
  (8025, 8025); (8027, 8027); (8029, 8029); (8031, 8061); (8064, 8116); (8118, 8124); (8126, 8126);
  (8130, 8132); (8134, 8140); (8144, 8147); (8150, 8155); (8160, 8172); (8178, 8180); (8182, 8188);
  (8450, 8450); (8455, 8455); (8458, 8467); (8469, 8469); (8473, 8477); (8484, 8484); (8486, 8486);
  (8488, 8488); (8490, 8493); (8495, 8500); (8505, 8505); (8508, 8511); (8517, 8521); (8526, 8526);
  (8544, 8575); (8579, 8580); (9398, 9449); (11264, 11387); (11390, 11492); (11499, 11502); (11506, 11507);
  (11520, 11557); (11559, 11559); (11565, 11565); (42560, 42605); (42624, 42651); (42786, 42863); (42865, 42887);
  (42891, 42894); (42896, 42954); (42960, 42961); (42963, 42963); (42965, 42969); (42997, 42998); (43002, 43002);
  (43824, 43866); (43872, 43880); (43888, 43967); (64256, 64262); (64275, 64279); (65313, 65338); (65345, 65370);
  (66560, 66639); (66736, 66771); (66776, 66811); (66928, 66938); (66940, 66954); (66956, 66962); (66964, 66965);
  (66967, 66977); (66979, 66993); (66995, 67001); (67003, 67004); (68736, 68786); (68800, 68850); (71840, 71903);
  (93760, 93823); (119808, 119892); (119894, 119964); (119966, 119967); (119970, 119970); (119973, 119974); (119977, 119980);
  (119982, 119993); (119995, 119995); (119997, 120003); (120005, 120069); (120071, 120074); (120077, 120084); (120086, 120092);
  (120094, 120121); (120123, 120126); (120128, 120132); (120134, 120134); (120138, 120144); (120146, 120485); (120488, 120512);
  (120514, 120538); (120540, 120570); (120572, 120596); (120598, 120628); (120630, 120654); (120656, 120686); (120688, 120712);
  (120714, 120744); (120746, 120770); (120772, 120779); (122624, 122633); (122635, 122654); (125184, 125251); (127280, 127305);
  (127312, 127337); (127344, 127369)].

Definition case_ignorable_ranges : list (Z * Z) := [
  (39, 39); (46, 46); (58, 58); (94, 94); (96, 96); (168, 168); (173, 173);
  (175, 175); (180, 180); (183, 184); (688, 879); (884, 885); (890, 890); (900, 901);
  (903, 903); (1155, 1161); (1369, 1369); (1375, 1375); (1425, 1469); (1471, 1471); (1473, 1474);
  (1476, 1477); (1479, 1479); (1524, 1524); (1536, 1541); (1552, 1562); (1564, 1564); (1600, 1600);
  (1611, 1631); (1648, 1648); (1750, 1757); (1759, 1768); (1770, 1773); (1807, 1807); (1809, 1809);
  (1840, 1866); (1958, 1968); (2027, 2037); (2042, 2042); (2045, 2045); (2070, 2093); (2137, 2139);
  (2184, 2184); (2192, 2193); (2200, 2207); (2249, 2306); (2362, 2362); (2364, 2364); (2369, 2376);
  (2381, 2381); (2385, 2391); (2402, 2403); (2417, 2417); (2433, 2433); (2492, 2492); (2497, 2500);
  (2509, 2509); (2530, 2531); (2558, 2558); (2561, 2562); (2620, 2620); (2625, 2626); (2631, 2632);
  (2635, 2637); (2641, 2641); (2672, 2673); (2677, 2677); (2689, 2690); (2748, 2748); (2753, 2757);
  (2759, 2760); (2765, 2765); (2786, 2787); (2810, 2815); (2817, 2817); (2876, 2876); (2879, 2879);
  (2881, 2884); (2893, 2893); (2901, 2902); (2914, 2915); (2946, 2946); (3008, 3008); (3021, 3021);
  (3072, 3072); (3076, 3076); (3132, 3132); (3134, 3136); (3142, 3144); (3146, 3149); (3157, 3158);
  (3170, 3171); (3201, 3201); (3260, 3260); (3263, 3263); (3270, 3270); (3276, 3277); (3298, 3299);
  (3328, 3329); (3387, 3388); (3393, 3396); (3405, 3405); (3426, 3427); (3457, 3457); (3530, 3530);
  (3538, 3540); (3542, 3542); (3633, 3633); (3636, 3642); (3654, 3662); (3761, 3761); (3764, 3772);
  (3782, 3782); (3784, 3789); (3864, 3865); (3893, 3893); (3895, 3895); (3897, 3897); (3953, 3966);
  (3968, 3972); (3974, 3975); (3981, 3991); (3993, 4028); (4038, 4038); (4141, 4144); (4146, 4151);
  (4153, 4154); (4157, 4158); (4184, 4185); (4190, 4192); (4209, 4212); (4226, 4226); (4229, 4230);
  (4237, 4237); (4253, 4253); (4348, 4348); (4957, 4959); (5906, 5908); (5938, 5939); (5970, 5971);
  (6002, 6003); (6068, 6069); (6071, 6077); (6086, 6086); (6089, 6099); (6103, 6103); (6109, 6109);
  (6155, 6159); (6211, 6211); (6277, 6278); (6313, 6313); (6432, 6434); (6439, 6440); (6450, 6450);
  (6457, 6459); (6679, 6680); (6683, 6683); (6742, 6742); (6744, 6750); (6752, 6752); (6754, 6754);
  (6757, 6764); (6771, 6780); (6783, 6783); (6823, 6823); (6832, 6862); (6912, 6915); (6964, 6964);
  (6966, 6970); (6972, 6972); (6978, 6978); (7019, 7027); (7040, 7041); (7074, 7077); (7080, 7081);
  (7083, 7085); (7142, 7142); (7144, 7145); (7149, 7149); (7151, 7153); (7212, 7219); (7222, 7223);
  (7288, 7293); (7376, 7378); (7380, 7392); (7394, 7400); (7405, 7405); (7412, 7412); (7416, 7417);
  (7468, 7530); (7544, 7544); (7579, 7679); (8125, 8125); (8127, 8129); (8141, 8143); (8157, 8159);
  (8173, 8175); (8189, 8190); (8203, 8207); (8216, 8217); (8228, 8228); (8231, 8231); (8234, 8238);
  (8288, 8292); (8294, 8303); (8305, 8305); (8319, 8319); (8336, 8348); (8400, 8432); (11388, 11389);
  (11503, 11505); (11631, 11631); (11647, 11647); (11744, 11775); (11823, 11823); (12293, 12293); (12330, 12333);
  (12337, 12341); (12347, 12347); (12441, 12446); (12540, 12542); (40981, 40981); (42232, 42237); (42508, 42508);
  (42607, 42610); (42612, 42621); (42623, 42623); (42652, 42655); (42736, 42737); (42752, 42785); (42864, 42864);
  (42888, 42890); (42994, 42996); (43000, 43001); (43010, 43010); (43014, 43014); (43019, 43019); (43045, 43046);
  (43052, 43052); (43204, 43205); (43232, 43249); (43263, 43263); (43302, 43309); (43335, 43345); (43392, 43394);
  (43443, 43443); (43446, 43449); (43452, 43453); (43471, 43471); (43493, 43494); (43561, 43566); (43569, 43570);
  (43573, 43574); (43587, 43587); (43596, 43596); (43632, 43632); (43644, 43644); (43696, 43696); (43698, 43700);
  (43703, 43704); (43710, 43711); (43713, 43713); (43741, 43741); (43756, 43757); (43763, 43764); (43766, 43766);
  (43867, 43871); (43881, 43883); (44005, 44005); (44008, 44008); (44013, 44013); (64286, 64286); (64434, 64450);
  (65024, 65039); (65043, 65043); (65056, 65071); (65106, 65106); (65109, 65109); (65279, 65279); (65287, 65287);
  (65294, 65294); (65306, 65306); (65342, 65342); (65344, 65344); (65392, 65392); (65438, 65439); (65507, 65507);
  (65529, 65531); (66045, 66045); (66272, 66272); (66422, 66426); (67456, 67461); (67463, 67504); (67506, 67514);
  (68097, 68099); (68101, 68102); (68108, 68111); (68152, 68154); (68159, 68159); (68325, 68326); (68900, 68903);
  (69291, 69292); (69446, 69456); (69506, 69509); (69633, 69633); (69688, 69702); (69744, 69744); (69747, 69748);
  (69759, 69761); (69811, 69814); (69817, 69818); (69821, 69821); (69826, 69826); (69837, 69837); (69888, 69890);
  (69927, 69931); (69933, 69940); (70003, 70003); (70016, 70017); (70070, 70078); (70089, 70092); (70095, 70095);
  (70191, 70193); (70196, 70196); (70198, 70199); (70206, 70206); (70367, 70367); (70371, 70378); (70400, 70401);
  (70459, 70460); (70464, 70464); (70502, 70508); (70512, 70516); (70712, 70719); (70722, 70724); (70726, 70726);
  (70750, 70750); (70835, 70840); (70842, 70842); (70847, 70848); (70850, 70851); (71090, 71093); (71100, 71101);
  (71103, 71104); (71132, 71133); (71219, 71226); (71229, 71229); (71231, 71232); (71339, 71339); (71341, 71341);
  (71344, 71349); (71351, 71351); (71453, 71455); (71458, 71461); (71463, 71467); (71727, 71735); (71737, 71738);
  (71995, 71996); (71998, 71998); (72003, 72003); (72148, 72151); (72154, 72155); (72160, 72160); (72193, 72202);
  (72243, 72248); (72251, 72254); (72263, 72263); (72273, 72278); (72281, 72283); (72330, 72342); (72344, 72345);
  (72752, 72758); (72760, 72765); (72767, 72767); (72850, 72871); (72874, 72880); (72882, 72883); (72885, 72886);
  (73009, 73014); (73018, 73018); (73020, 73021); (73023, 73029); (73031, 73031); (73104, 73105); (73109, 73109);
  (73111, 73111); (73459, 73460); (78896, 78904); (92912, 92916); (92976, 92982); (92992, 92995); (94031, 94031);
  (94095, 94111); (94176, 94177); (94179, 94180); (110576, 110579); (110581, 110587); (110589, 110590); (113821, 113822);
  (113824, 113827); (118528, 118573); (118576, 118598); (119143, 119145); (119155, 119170); (119173, 119179); (119210, 119213);
  (119362, 119364); (121344, 121398); (121403, 121452); (121461, 121461); (121476, 121476); (121499, 121503); (121505, 121519);
  (122880, 122886); (122888, 122904); (122907, 122913); (122915, 122916); (122918, 122922); (123184, 123197); (123566, 123566);
  (123628, 123631); (125136, 125142); (125252, 125259); (127995, 127999); (917505, 917505); (917536, 917631); (917760, 917999)].

(** Membership in a list of inclusive ranges.  [cased_ranges] holds the
    Cased code points that are not Case_Ignorable: once the case-ignorable
    code points are skipped, these are the only cased ones the final-sigma
    context can meet. *)
Definition in_ranges (rs : list (Z * Z)) (c : Z) : bool :=
  existsb (fun '(lo, hi) => (lo <=? c) && (c <=? hi)) rs.

Definition simple_lower (c : Z) : Z :=
  match List.find (fun '(start, count, step, _) =>
                     (start <=? c) && (c <? start + step * count) && ((c - start) mod step =? 0))
                  lower_runs with
  | Some (_, _, _, delta) => c + delta
  | None => c
  end.

Definition lower_cp (c : Z) : list Z := if c =? 304 then [105; 775] else [simple_lower c].

Fixpoint utf16_code_points (s : list Z) : list Z :=
  match s with
  | [] => []
  | [h] => [h]
  | h :: ((l :: s') as t) =>
      if (55296 <=? h) && (h <=? 56319) && (56320 <=? l) && (l <=? 57343)
      then 65536 + Z.shiftl (h - 55296) 10 + (l - 56320) :: utf16_code_points s'
      else h :: utf16_code_points t
  end.

(** The first code point of [l] that is not case-ignorable is cased. *)
Fixpoint cased_after_skip (l : list Z) : bool :=
  match l with
  | [] => false
  | c :: l' =>
      if in_ranges case_ignorable_ranges c then cased_after_skip l'
      else in_ranges cased_ranges c
  end.

(** [before] holds the code points already read, the nearest first. *)
Fixpoint lower_cps (before : list Z) (l : list Z) : list Z :=
  match l with
  | [] => []
  | c :: l' =>
      (if c =? 931 then
         if cased_after_skip before && negb (cased_after_skip l') then [962] else [963]
       else lower_cp c) ++ lower_cps (c :: before) l'
  end.

Definition toLowerCase (s : list Z) : list Z :=
  concat (map HttpBody.utf16_units (lower_cps [] (utf16_code_points s))).

(** [shouldFallbackToFetch(error)]; the argument is [error.message]
    ([None] when there is no error or no message). *)
Definition shouldFallbackToFetch (message : option (list Z)) : bool :=
  match message with
  | None | Some [] => false
  | Some m =>
      let errorMessage := toLowerCase m in
      existsb (fun keyword => includes errorMessage keyword) networkErrorKeywords
  end.

(** What [connectHttp] returns: the raw-socket response, the fetch
    response, the combined 502 of both failures, or the raw-socket failure
    surfaced through [handleError] (status and message). *)
Inductive outcome (R : Type) :=
| ViaSocket (r : R)
| ViaFetch (r : R)
| BadGateway (socketError fetchError : option (list Z))
| SocketFailure (status : Z) (message : list Z).
Arguments ViaSocket {R}. Arguments ViaFetch {R}.
Arguments BadGateway {R}. Arguments SocketFailure {R}.

(** [${error.message}] in a template literal. *)
Definition msg_text (m : option (list Z)) : list Z :=
  match m with Some t => t | None => u "undefined" end.

(** [connectHttp(req, dstUrl)] once the raw-socket attempt has finished:
    [socket] is its response or its error message, [fetch] the result the
    fetch transport would give on the cloned request. *)
Definition connectHttp {R : Type} (AGGRESSIVE_FALLBACK : bool)
    (socket : R + option (list Z)) (fetch : R + option (list Z)) : outcome R :=
  match socket with
  | inl r => ViaSocket r
  | inr socketError =>
      if AGGRESSIVE_FALLBACK || shouldFallbackToFetch socketError then
        match fetch with
        | inl r => ViaFetch r
        | inr fetchError => BadGateway socketError fetchError
        end
      else SocketFailure 500 (u "Error socket connection: " ++ msg_text socketError)
  end.

(** Whether the fetch transport was tried. *)
Definition fell_back {R} (o : outcome R) : bool :=
  match o with ViaFetch _ | BadGateway _ _ => true | _ => false end.

(** The substring set listed by the specification. *)
Definition spec_keywords : list (list Z) :=
  map u ["network"; "connection"; "connect"; "socket"; "tcp"; "timeout";
         "timed out"; "refused"; "reset"; "aborted"; "closed"; "lost";
         "unreachable"; "epipe"; "stream"]%string.

End Fallback.

(* ================================================================== *)
(** * Request routing: SpectreProxy.handleRequest *)
(* ================================================================== *)

Module Router.

Record route_config := { targets : list (list Z); forceFetch : bool }.

(** [API_MAPPING]: route key and its configuration. *)
Definition API_MAPPING : list (list Z * route_config) :=
  map (fun '(k, t, f) => (u k, {| targets := [u t]; forceFetch := f |}))
  [("/discord", "https://discord.com/api", true);
   ("/telegram", "https://api.telegram.org", false);
   ("/openai", "https://api.openai.com", true);
   ("/claude", "https://api.anthropic.com", true);
   ("/gemini", "https://generativelanguage.googleapis.com", false);
   ("/cerebras", "https://api.cerebras.ai", true);
   ("/chutes", "https://llm.chutes.ai", false);
   ("/cohere", "https://api.cohere.ai", false);
   ("/deepinfra", "https://deepinfra.ssfun.nyc.mn", true);
   ("/fireworks", "https://api.fireworks.ai/inference", true);
   ("/friendli", "https://api.friendli.ai/serverless", true);
   ("/github", "https://models.github.ai", false);
   ("/groq", "https://api.groq.com/openai", true);
   ("/huggingface", "https://api-inference.huggingface.co", false);
   ("/meta", "https://www.meta.ai/api", false);
   ("/novita", "https://api.novita.ai", false);
   ("/openrouter", "https://openrouter.ai/api", true);
   ("/poe", "https://api.poe.com", false);
   ("/portkey", "https://api.portkey.ai", true);
   ("/sambanova", "https://api.sambanova.ai", false);
   ("/targon", "https://api.targon.ai", false);
   ("/together", "https://api.together.xyz", true);
   ("/xai", "https://api.x.ai", true)]%string.

Definition lookup_route (key : list Z) : option route_config :=
  option_map snd (List.find (fun '(k, _) => jstr_eqb k key) API_MAPPING).

(** The configuration fields the router reads. *)
Record config := {
  AUTH_TOKEN : list Z;
  DEFAULT_DST_URL : list Z;
  PRESET_AUTH_ENABLED : bool;
  GEMINI_SPECIAL_HANDLING_ENABLED : bool
}.

(** Which handler the request is given to, or the error response. *)
Inductive route :=
| IndexPage                                (* landing page *)
| TestRoute (dst : list Z)                 (* SocketProxy.connectHttp(req, DEFAULT_DST_URL) *)
| GeminiRoute (dst : list Z)               (* GeminiHandler.handle *)
| WebSocketRoute (dst : list Z)            (* SocketProxy.connectWebSocket *)
| FetchRoute (dst : list Z)                (* FetchProxy.connectHttp *)
| SocketRoute (dst : list Z)               (* SocketProxy.connectHttp *)
| ErrorStatus (status : Z).                (* ErrorResponse.create(status, ...) *)

Fixpoint join (sep : list Z) (l : list (list Z)) : list Z :=
  match l with
  | [] => []
  | [x] => x
  | x :: l' => x ++ sep ++ join sep l'
  end.

Definition ends_with (suffix l : list Z) : bool := starts_with (rev suffix) (rev l).

(** [url.pathname.split("/").filter(Boolean)]. *)
Definition path_parts (pathname : list Z) : list (list Z) :=
  filter (fun s => negb (length s =? 0)%nat) (HttpBody.split_on [47] pathname).

(** [RouteSelector.selectTarget]; [pick] stands for the random index used
    when there are several targets. *)
Definition selectTarget (targets : list (list Z)) (pick : nat) : option (list Z) :=
  match targets with
  | [] => None
  | [t] => Some t
  | _ => nth_error targets (Nat.modulo pick (length targets))
  end.

(** [handleRequest(req, env, ctx)] up to the handler it dispatches to.
    [pathname] and [search] come from [new URL(req.url)], [upgrade] is the
    lower-cased Upgrade header, [url_ok] tells whether [new URL(dstUrl)]
    accepts a generic target. *)
Definition handleRequest (config : config) (pathname search : list Z)
    (upgrade : option (list Z)) (url_ok : list Z -> bool) (pick : nat) : route :=
  let parts := path_parts pathname in
  match parts with
  | [] => IndexPage
  | p0 :: rest =>
      if jstr_eqb p0 (u "test") then TestRoute (DEFAULT_DST_URL config) else
      let isAuthenticated := jstr_eqb p0 (AUTH_TOKEN config) in
      let effectiveParts := if isAuthenticated then rest else parts in
      match effectiveParts with
      | [] => ErrorStatus 400
      | e0 :: erest =>
          let routeKey := u "/" ++ e0 in
          match lookup_route routeKey with
          | Some routeConfig =>
              if PRESET_AUTH_ENABLED config && negb isAuthenticated then ErrorStatus 401 else
              match selectTarget (targets routeConfig) pick with
              | None => ErrorStatus 404
              | Some selectedTarget =>
                  let remainingPath := join (u "/") erest in
                  let dstUrl := selectedTarget
                      ++ (if (length remainingPath =? 0)%nat then [] else u "/" ++ remainingPath)
                      ++ search in
                  if jstr_eqb routeKey (u "/gemini") && GEMINI_SPECIAL_HANDLING_ENABLED config
                  then GeminiRoute dstUrl
                  else if match upgrade with Some h => jstr_eqb h (u "websocket") | None => false end
                  then WebSocketRoute dstUrl
                  else if forceFetch routeConfig then FetchRoute dstUrl else SocketRoute dstUrl
              end
          | None =>
              if isAuthenticated then
                let dstUrl :=
                  if ends_with (u ":") e0 then e0 ++ u "//" ++ join (u "/") erest ++ search
                  else e0 ++ u "://" ++ join (u "/") erest ++ search in
                if negb (url_ok dstUrl) then ErrorStatus 400
                else if match upgrade with Some h => jstr_eqb h (u "websocket") | None => false end
                then WebSocketRoute dstUrl
                else SocketRoute dstUrl
              else ErrorStatus 401
          end
      end
  end.

End Router.


(* ================================================================== *)
(** * JSON values *)
(* ================================================================== *)

Module Json.

(** A value produced by [JSON.parse].  Numbers are kept as integers: the
    code only tests their truthiness and writes integer status codes. *)
Inductive json :=
| JNull
| JBool (b : bool)
| JNum (n : Z)
| JStr (s : list Z)
| JArr (l : list json)
| JObj (fields : list (list Z * json)).

Fixpoint assoc (key : list Z) (fields : list (list Z * json)) : option json :=
  match fields with
  | [] => None
  | (k, v) :: fs => if jstr_eqb k key then Some v else assoc key fs
  end.

(** Decimal digits of a non-negative integer. *)
Fixpoint dec_digits_aux (fuel : nat) (n : Z) (acc : list Z) : list Z :=
  match fuel with
  | O => acc
  | S f => if n <? 10 then (48 + n) :: acc
           else dec_digits_aux f (n / 10) ((48 + n mod 10) :: acc)
  end.

(** [String(n)] for an integer. *)
Definition dec_string (n : Z) : list Z :=
  if n <? 0 then 45 :: dec_digits_aux (Z.to_nat (- n) + 1) (- n) []
  else dec_digits_aux (Z.to_nat n + 1) n [].

(** Property read [v.key] on a non-null value ([None] is undefined). *)
Definition get (v : json) (key : list Z) : option json :=
  match v with
  | JObj fs => assoc key fs
  | _ => None
  end.

(** [v[i]] for an index. *)
Definition get_index (v : json) (i : nat) : option json :=
  match v with
  | JArr l => nth_error l i
  | JObj fs => assoc (dec_string (Z.of_nat i)) fs
  | JStr s => option_map (fun c => JStr [c]) (nth_error s i)
  | _ => None
  end.

(** Optional chaining [v?.key] and [v?.[i]]. *)
Definition oget (v : option json) (key : list Z) : option json :=
  match v with None | Some JNull => None | Some w => get w key end.

Definition oindex (v : option json) (i : nat) : option json :=
  match v with None | Some JNull => None | Some w => get_index w i end.

(** Truthiness of a value ([None] is undefined). *)
Definition truthy (v : option json) : bool :=
  match v with
  | None | Some JNull => false
  | Some (JBool b) => b
  | Some (JNum n) => negb (n =? 0)
  | Some (JStr s) => negb (length s =? 0)%nat
  | Some _ => true
  end.

Definition hex_digit (d : Z) : Z := if d <? 10 then 48 + d else 87 + d.

Definition u_escape (c : Z) : list Z :=
  [92; 117; hex_digit (Z.shiftr c 12 mod 16); hex_digit (Z.shiftr c 8 mod 16);
   hex_digit (Z.shiftr c 4 mod 16); hex_digit (c mod 16)].

Definition is_high (c : Z) : bool := (55296 <=? c) && (c <=? 56319).
Definition is_low (c : Z) : bool := (56320 <=? c) && (c <=? 57343).

(** The code units of [JSON.stringify(s)] between the quotes. *)
Fixpoint quote_units (s : list Z) : list Z :=
  match s with
  | [] => []
  | c :: s' =>
      if c =? 34 then [92; 34] ++ quote_units s'
      else if c =? 92 then [92; 92] ++ quote_units s'
      else if c =? 8 then [92; 98] ++ quote_units s'
      else if c =? 12 then [92; 102] ++ quote_units s'
      else if c =? 10 then [92; 110] ++ quote_units s'
      else if c =? 13 then [92; 114] ++ quote_units s'
      else if c =? 9 then [92; 116] ++ quote_units s'
      else if c <? 32 then u_escape c ++ quote_units s'
      else if is_high c then
        match s' with
        | d :: s'' => if is_low d then [c; d] ++ quote_units s'' else u_escape c ++ quote_units s'
        | [] => u_escape c
        end
      else if is_low c then u_escape c ++ quote_units s'
      else c :: quote_units s'
  end.

Definition quote (s : list Z) : list Z := [34] ++ quote_units s ++ [34].

Fixpoint join_comma (l : list (list Z)) : list Z :=
  match l with
  | [] => []
  | [x] => x
  | x :: l' => x ++ [44] ++ join_comma l'
  end.

(** [JSON.stringify(v)]. *)
Fixpoint stringify (v : json) : list Z :=
  match v with
  | JNull => u "null"
  | JBool true => u "true"
  | JBool false => u "false"
  | JNum n => dec_string n
  | JStr s => quote s
  | JArr l => [91] ++ join_comma (map stringify l) ++ [93]
  | JObj fs => [123] ++ join_comma (map (fun '(k, w) => quote k ++ [58] ++ stringify w) fs) ++ [125]
  end.

End Json.

(* ================================================================== *)
(** * Language detection: GeminiHandler.detectLanguage *)
(* ================================================================== *)

Module Lang.

Inductive lang := En | Zh | Ja | Ko | Ar | Ru | Es | Fr | De.

Definition in_range (lo hi c : Z) : bool := (lo <=? c) && (c <=? hi).

(** The five Unicode-block patterns, in the order of [Object.entries]. *)
Definition patterns : list (lang * (Z -> bool)) :=
  [(Zh, fun c => in_range 19968 40869 c);                              (* 4e00-9fa5 *)
   (Ja, fun c => in_range 12352 12447 c || in_range 12448 12543 c);    (* 3040-309f, 30a0-30ff *)
   (Ko, fun c => in_range 44032 55215 c || in_range 4352 4607 c);      (* ac00-d7af, 1100-11ff *)
   (Ar, fun c => in_range 1536 1791 c);                                (* 0600-06ff *)
   (Ru, fun c => in_range 1024 1279 c)].                               (* 0400-04ff *)

(** [(text.match(pattern) || []).length] for a global one-unit class. *)
Definition count_matches (p : Z -> bool) (text : list Z) : Z :=
  Z.of_nat (length (filter p text)).

(** The [for (const [lang, pattern] of Object.entries(patterns))] loop. *)
Definition scan_blocks (text : list Z) : Z * lang :=
  fold_left (fun '(maxCount, detectedLang) '(l, p) =>
               let count := count_matches p text in
               if maxCount <? count then (count, l) else (maxCount, detectedLang))
            patterns (0, En).

(** Canonicalize of a case-insensitive non-unicode regular expression:
    [toUpperCase], keeping the unit when the upper case is not a single unit
    or maps a non-ASCII unit to ASCII.  Written out for ASCII, Latin-1 and
    Latin Extended-A; no code unit outside these blocks canonicalises onto
    a member of the classes below (all in U+00A1..U+0178). *)
Definition canon (c : Z) : Z :=
  if in_range 97 122 c then c - 32
  else if c =? 181 then 924
  else if in_range 224 254 c && negb (c =? 247) then c - 32
  else if c =? 255 then 376
  else if (in_range 256 303 c || in_range 306 311 c || in_range 330 375 c) && Z.odd c then c - 1
  else if (in_range 313 328 c || in_range 377 382 c) && Z.even c then c - 1
  else c.

(** [/[...]/i.test(text)] for a class of single code units. *)
Definition test_class_i (cls : list Z) (text : list Z) : bool :=
  existsb (fun c => existsb (fun x => canon x =? canon c) cls) text.

(** [àâäæãåāèéêëēėęîïíīįìôöòóœøōõûüùúūÿñńß] *)
Definition diacritics : list Z :=
  [224; 226; 228; 230; 227; 229; 257; 232; 233; 234; 235; 275; 279; 281; 238;
   239; 237; 299; 303; 236; 244; 246; 242; 243; 339; 248; 333; 245; 251; 252;
   249; 250; 363; 255; 241; 324; 223].
(** [àâæçèéêëîïôœùûüÿ] *)
Definition french : list Z :=
  [224; 226; 230; 231; 232; 233; 234; 235; 238; 239; 244; 339; 249; 251; 252; 255].
(** [äöüß] *)
Definition german : list Z := [228; 246; 252; 223].
(** [áéíóúñ¿¡] *)
Definition spanish : list Z := [225; 233; 237; 243; 250; 241; 191; 161].

(** [detectLanguage(text)].  [maxCount > text.length * 0.1] is written
    [10 * maxCount > length]: both sides are integers far below 2^50, where
    the double product rounds to the same comparison. *)
Definition detectLanguage (text : list Z) : lang :=
  if (length text =? 0)%nat || (length text <? 10)%nat then En else
  let '(maxCount, detectedLang) := scan_blocks text in
  if Z.of_nat (length text) <? 10 * maxCount then detectedLang
  else if test_class_i diacritics text then
    if test_class_i french text then Fr
    else if test_class_i german text then De
    else if test_class_i spanish text then Es
    else En
  else En.

(** The five block counts of a text, labelled, in the order the
    specification lists them (zh, ja, ko, ar, ru). *)
Definition block_counts (text : list Z) : list (lang * Z) :=
  map (fun '(l, p) => (l, count_matches p text)) patterns.

(** The detection rule as amended: [en] for texts shorter than 10 code
    units; otherwise the label with the largest block count (the earliest of
    zh, ja, ko, ar, ru on ties) when that count exceeds 10% of the length;
    otherwise, when the text has a letter of the general diacritic set, fr,
    de or es by the first subset met, else en; and en when it has no letter
    of the general set nor of the three subsets.  The rule says nothing
    ([None]) of the remaining texts, whose only accented letters are among
    the subsets' letters outside the general set (ç, á, ¿, ¡). *)
Definition max_count (text : list Z) : Z :=
  fold_right Z.max 0 (map snd (block_counts text)).

Definition amended_detect (text : list Z) : option lang :=
  if (length text <? 10)%nat then Some En
  else if Z.of_nat (length text) <? 10 * max_count text then
    match List.find (fun '(_, c) => c =? max_count text) (block_counts text) with
    | Some (l, _) => Some l
    | None => Some En
    end
  else if test_class_i diacritics text then
    Some (if test_class_i french text then Fr
          else if test_class_i german text then De
          else if test_class_i spanish text then Es
          else En)
  else if test_class_i (french ++ german ++ spanish) text then None
  else Some En.

End Lang.

(* ================================================================== *)
(** * GeminiHandler: SSE line iterator and continuation engine *)
(* ================================================================== *)

Module Gemini.
Import Json.

(** [String.prototype.split(/\r?\n/)].  Every LF ends a piece, and a CR
    right before that LF belongs to the separator; the piece after the
    last LF is kept as it is. *)
Definition cons_head (c : Z) (ps : list (list Z)) : list (list Z) :=
  match ps with
  | p :: ps' => (c :: p) :: ps'
  | [] => [[c]]
  end.

Fixpoint split_lf (s : list Z) : list (list Z) :=
  match s with
  | [] => [[]]
  | c :: s' => if c =? 10 then [] :: split_lf s' else cons_head c (split_lf s')
  end.

Definition strip_cr (p : list Z) : list Z :=
  match rev p with
  | c :: r => if c =? 13 then rev r else p
  | [] => p
  end.

Definition split_crlf (s : list Z) : list (list Z) :=
  let ps := split_lf s in
  map strip_cr (removelast ps) ++ [List.last ps []].

(** A body reader as seen by the iterator: the successive [value]s of
    [reader.read()], each already passed through
    [decoder.decode(value, {stream: true})], and whether the stream ends
    with [done] ([fails = false]) or with [read()] rejecting. *)
Record feed := { chunks : list (list Z); fails : bool }.

(** The lines [sseLineIterator] yields, and whether it then throws. *)
Fixpoint sse_lines_aux (buffer : list Z) (cs : list (list Z)) (fl : bool)
  : list (list Z) * bool :=
  match cs with
  | [] =>
      if fl then ([], true)
      else (if trim_nonempty buffer then [buffer] else [], false)
  | c :: cs' =>
      let lines := split_crlf (buffer ++ c) in
      let '(rest, e) := sse_lines_aux (List.last lines []) cs' fl in
      (List.filter trim_nonempty (removelast lines) ++ rest, e)
  end.

Definition sseLineIterator (r : feed) : list (list Z) * bool :=
  sse_lines_aux [] (chunks r) (fails r).

(** Interruption reasons. *)
Inductive reason :=
| STOP_WITHOUT_SUFFICIENT_CONTENT
| FINISH_ABNORMAL
| DROP
| DROP_DURING_TOOL_USE
| FETCH_ERROR.

Definition reason_text (r : reason) : list Z :=
  match r with
  | STOP_WITHOUT_SUFFICIENT_CONTENT => u "STOP_WITHOUT_SUFFICIENT_CONTENT"
  | FINISH_ABNORMAL => u "FINISH_ABNORMAL"
  | DROP => u "DROP"
  | DROP_DURING_TOOL_USE => u "DROP_DURING_TOOL_USE"
  | FETCH_ERROR => u "FETCH_ERROR"
  end.

(** [accumulatedText], [hasReceivedFinalAnswerContent],
    [hasReceivedToolCalls]. *)
Record astate := {
  accumulatedText : list Z;
  hasReceivedFinalAnswerContent : bool;
  hasReceivedToolCalls : bool
}.

(** [v === true]. *)
Definition strict_true (v : option json) : bool :=
  match v with Some (JBool true) => true | _ => false end.

(** [v === s] for a string [s]. *)
Definition strict_str (s : list Z) (v : option json) : bool :=
  match v with Some (JStr t) => jstr_eqb t s | _ => false end.

(** The body of [for (const part of parts)] for a non-null part. *)
Definition scan_part (st : astate) (part : json) : astate :=
  match get part (u "text") with
  | Some (JStr t) =>
      {| accumulatedText := accumulatedText st ++ t;
         hasReceivedFinalAnswerContent :=
           hasReceivedFinalAnswerContent st || negb (strict_true (get part (u "thought")));
         hasReceivedToolCalls := hasReceivedToolCalls st |}
  | _ =>
      if truthy (get part (u "functionCall")) || truthy (get part (u "toolCode"))
      then {| accumulatedText := accumulatedText st;
              hasReceivedFinalAnswerContent := hasReceivedFinalAnswerContent st;
              hasReceivedToolCalls := true |}
      else st
  end.

(** The [for (const part of parts)] loop.  The boolean is [true] when
    [part.text] raised a TypeError (a [null] part). *)
Fixpoint scan_parts (st : astate) (parts : list json) : astate * bool :=
  match parts with
  | [] => (st, false)
  | JNull :: _ => (st, true)
  | part :: ps => scan_parts (scan_part st part) ps
  end.

(** What one yielded line does in the inner loop, after it has been
    written downstream: go on, [return writer.close()], [break] with an
    interruption reason, or an exception (caught as [FETCH_ERROR]). *)
Inductive step :=
| Continue (st : astate)
| Done (st : astate)
| Interrupted (r : reason) (st : astate).

(** [JSON.parse] is a parameter [parse]: [None] when it throws. *)
Definition interp_line (parse : list Z -> option json) (st : astate) (line : list Z) : step :=
  if negb (starts_with (u "data: ") line) then Continue st else
  match parse (skipn 6 line) with
  | None => Continue st
  | Some payload =>
      let candidate := oindex (oget (Some payload) (u "candidates")) 0 in
      if negb (truthy candidate) then Continue st else
      let parts := oget (oget candidate (u "content")) (u "parts") in
      let '(st', raised) :=
        match parts with
        | Some (JArr ps) => scan_parts st ps
        | _ => (st, false)
        end in
      if raised then Interrupted FETCH_ERROR st' else
      let finishReason := oget candidate (u "finishReason") in
      if truthy finishReason then
        if strict_str (u "STOP") finishReason then
          if hasReceivedFinalAnswerContent st' || hasReceivedToolCalls st' then Done st'
          else if (100 <? length (accumulatedText st'))%nat then Done st'
          else Interrupted STOP_WITHOUT_SUFFICIENT_CONTENT st'
        else if strict_str (u "MAX_TOKENS") finishReason
                || strict_str (u "TOOL_CODE") finishReason
                || strict_str (u "SAFETY") finishReason
                || strict_str (u "RECITATION") finishReason then Done st'
        else Interrupted FINISH_ABNORMAL st'
      else Continue st'
  end.

(** How an attempt ends: closed downstream, or interrupted. *)
Inductive attempt_end := AClose | AInterrupt (r : reason).

(** The [for await] loop over the yielded lines: the lines consumed, how
    the attempt ends and the final state.  A truthy [finishReason] always
    ends the loop, so reaching the end of the lines means no finish reason
    arrived ([finishReasonArrived] is false). *)
Fixpoint run_lines (parse : list Z -> option json) (st : astate)
    (lines : list (list Z)) (raised : bool) : list (list Z) * attempt_end * astate :=
  match lines with
  | [] =>
      ([], AInterrupt (if raised then FETCH_ERROR
                       else if hasReceivedToolCalls st then DROP_DURING_TOOL_USE else DROP), st)
  | l :: ls =>
      match interp_line parse st l with
      | Continue st' => let '(c, e, s) := run_lines parse st' ls raised in (l :: c, e, s)
      | Done st' => ([l], AClose, st')
      | Interrupted r st' => ([l], AInterrupt r, st')
      end
  end.

(** Writes to the downstream writer (the text before [TextEncoder]). *)
Inductive wev := WText (s : list Z) | WClose.

Record attempt := {
  att_start : list Z;
  att_lines : list (list Z);
  att_writes : list wev;
  att_end : attempt_end;
  att_state : astate
}.

(** One iteration of [while (true)] up to the interruption check:
    the flags are reset, [accumulatedText] is carried over, and every
    consumed line is written as [line + "\n\n"] before it is interpreted. *)
Definition run_attempt (parse : list Z -> option json) (acc : list Z) (reader : feed) : attempt :=
  let '(lines, raised) := sseLineIterator reader in
  let '(consumed, e, st) :=
    run_lines parse {| accumulatedText := acc; hasReceivedFinalAnswerContent := false;
                       hasReceivedToolCalls := false |} lines raised in
  {| att_start := acc;
     att_lines := consumed;
     att_writes := map (fun l => WText (l ++ [10; 10])) consumed;
     att_end := e;
     att_state := st |}.

Record gconfig := {
  max_consecutive_retries : Z;
  max_network_retries : Z
}.

Definition GEMINI_CONFIG : gconfig :=
  {| max_consecutive_retries := 5; max_network_retries := 3 |}.

(** The outcome of the retry setup ([buildRetryRequestBody], then
    [this.proxy.connectHttp]): an exception with its message, or a
    response with its status, whether it has a body, the text
    [writeSSEErrorFromUpstream] would write after [data: ], and its body
    reader. *)
Inductive retry_response :=
| RThrow (msg : list Z)
| RResponse (status : Z) (has_body : bool) (error_text : list Z) (body : feed).

Definition NON_RETRYABLE_STATUSES (s : Z) : bool :=
  (s =? 400) || (s =? 401) || (s =? 403) || (s =? 404) || (s =? 429).

Definition sse_error_event (data : list Z) : list Z :=
  u "event: error" ++ [10] ++ u "data: " ++ data ++ [10; 10].

Definition error_payload (code : Z) (status msg : list Z) : json :=
  JObj [(u "error", JObj [(u "code", JNum code); (u "status", JStr status);
                          (u "message", JStr msg)])].

Definition deadline_message (cfg : gconfig) (r : reason) : list Z :=
  u "Proxy retry limit (" ++ dec_string (max_consecutive_retries cfg)
  ++ u ") exceeded. Last interruption: " ++ reason_text r ++ u ".".

Definition network_message (msg : list Z) : list Z :=
  u "Network error during retry: " ++ msg ++ u ". Max network retries exceeded.".

Definition server_error_message (status : Z) : list Z :=
  u "Upstream server error on retry: " ++ dec_string status.

Record session := {
  s_writes : list wev;
  s_logs : list attempt;
  s_finished : bool
}.

Definition prepend (a : attempt) (s : session) : session :=
  {| s_writes := att_writes a ++ s_writes s; s_logs := a :: s_logs s;
     s_finished := s_finished s |}.

Definition finish (a : attempt) (tail : list wev) : session :=
  {| s_writes := att_writes a ++ tail; s_logs := [a]; s_finished := true |}.

(** A reader that was cancelled by [cleanup]: [read()] resolves with
    [done]. *)
Definition cancelled : feed := {| chunks := []; fails := false |}.

(** A reader whose stream is errored: [read()] rejects, also after
    [cancel()]. *)
Definition errored : feed := {| chunks := []; fails := true |}.

(** Whether the [for await] loop ran out of lines: every yielded line was
    interpreted without ending the attempt. *)
Fixpoint lines_exhausted (parse : list Z -> option json) (st : astate)
    (lines : list (list Z)) : bool :=
  match lines with
  | [] => true
  | l :: ls =>
      match interp_line parse st l with
      | Continue st' => lines_exhausted parse st' ls
      | _ => false
      end
  end.

(** The current reader once [cleanup(currentReader)] has cancelled it, as
    the next attempt reads it again when the retry setup failed: if the
    attempt ended because [read()] rejected, the stream is errored and stays
    so; otherwise [cancel()] (or the end of the stream) closed it. *)
Definition after_cleanup (parse : list Z -> option json) (acc : list Z) (reader : feed) : feed :=
  let '(lines, raised) := sseLineIterator reader in
  if raised && lines_exhausted parse
       {| accumulatedText := acc; hasReceivedFinalAnswerContent := false;
          hasReceivedToolCalls := false |} lines
  then errored else cancelled.

(** [processStreamAndRetryInternally], run for at most [fuel] attempts.
    [consecutiveRetryCount] is [count], [this.networkRetryCount] is [net].
    [retry n acc] is the outcome of the retry setup of the [n]-th retry
    when the accumulated text is [acc].  When the retry setup throws,
    [currentReader] is not replaced: the next attempt reads the cancelled
    reader again ([after_cleanup]). *)
Fixpoint process (fuel : nat) (cfg : gconfig) (parse : list Z -> option json)
    (retry : Z -> list Z -> retry_response)
    (count net : Z) (acc : list Z) (reader : feed) : session :=
  match fuel with
  | O => {| s_writes := []; s_logs := []; s_finished := false |}
  | S fuel' =>
      let a := run_attempt parse acc reader in
      let acc' := accumulatedText (att_state a) in
      match att_end a with
      | AClose => finish a [WClose]
      | AInterrupt r =>
          if max_consecutive_retries cfg <=? count then
            finish a [WText (sse_error_event (stringify
                        (error_payload 504 (u "DEADLINE_EXCEEDED") (deadline_message cfg r))));
                      WClose]
          else
            let count' := count + 1 in
            let network_error (msg : list Z) :=
              let net' := net + 1 in
              if max_network_retries cfg <=? net' then
                finish a [WText (sse_error_event (stringify
                            (error_payload 502 (u "BAD_GATEWAY") (network_message msg))));
                          WClose]
              else prepend a (process fuel' cfg parse retry count' net' acc'
                                (after_cleanup parse acc reader)) in
            match retry count' acc' with
            | RThrow msg => network_error msg
            | RResponse status has_body etext body =>
                if NON_RETRYABLE_STATUSES status then
                  finish a [WText (sse_error_event etext); WClose]
                else if (200 <=? status) && (status <=? 299) && has_body then
                  prepend a (process fuel' cfg parse retry count' 0 acc' body)
                else network_error (server_error_message status)
            end
      end
  end.

(** The text parts of the first candidate of a consumed line, as the
    specification describes them: every string [parts[*].text] of a
    [data:] line whose JSON has a [candidates[0]]. *)
Definition part_text (p : json) : list Z :=
  match get p (u "text") with Some (JStr t) => t | _ => [] end.

Definition line_texts (parse : list Z -> option json) (line : list Z) : list Z :=
  if starts_with (u "data: ") line then
    match parse (skipn 6 line) with
    | Some payload =>
        let candidate := oindex (oget (Some payload) (u "candidates")) 0 in
        if truthy candidate then
          match oget (oget candidate (u "content")) (u "parts") with
          | Some (JArr ps) => concat (map part_text ps)
          | _ => []
          end
        else []
    | None => []
    end
  else [].


End Gemini.

(* ================================================================== *)
(** * GeminiHandler.buildRetryRequestBody over a heap of JS objects *)
(* ================================================================== *)

Module RetryBody.
Import Json.

(** A JavaScript value: a primitive, or a reference to a heap cell. *)
Inductive hval :=
| HNull
| HBool (b : bool)
| HNum (n : Z)
| HStr (s : list Z)
| HRef (l : nat).

(** A heap cell: a plain object (its own properties in insertion order)
    or an array. *)
Inductive cell :=
| CObj (fields : list (list Z * hval))
| CArr (elems : list hval).

Record heap := { cells : gmap nat cell; next : nat }.

(** Every allocated cell lies below the allocation pointer. *)
Definition heap_wf (h : heap) : Prop :=
  forall l c, cells h !! l = Some c -> (l < next h)%nat.

(** [o[key]] on an own property list. *)
Fixpoint lookup_field {A} (key : list Z) (fs : list (list Z * A)) : option A :=
  match fs with
  | [] => None
  | (k, v) :: fs' => if jstr_eqb k key then Some v else lookup_field key fs'
  end.

(** [o[key] = v]: an existing property keeps its place, a new one is added
    last. *)
Fixpoint set_field {A} (key : list Z) (v : A) (fs : list (list Z * A)) : list (list Z * A) :=
  match fs with
  | [] => [(key, v)]
  | (k, w) :: fs' => if jstr_eqb k key then (k, v) :: fs' else (k, w) :: set_field key v fs'
  end.

Fixpoint read_list (rd : hval -> option json) (vs : list hval) : option (list json) :=
  match vs with
  | [] => Some []
  | v :: vs' =>
      match rd v, read_list rd vs' with
      | Some t, Some ts => Some (t :: ts)
      | _, _ => None
      end
  end.

Fixpoint read_fields (rd : hval -> option json) (fs : list (list Z * hval))
  : option (list (list Z * json)) :=
  match fs with
  | [] => Some []
  | (k, v) :: fs' =>
      match rd v, read_fields rd fs' with
      | Some t, Some ts => Some ((k, t) :: ts)
      | _, _ => None
      end
  end.

(** The JSON value a heap value denotes, following at most [fuel]
    references; [None] for a dangling reference or when the fuel runs out
    (with [fuel] above the number of cells: a cycle, on which
    [JSON.stringify] throws). *)
Fixpoint read (fuel : nat) (g : gmap nat cell) (v : hval) : option json :=
  match v with
  | HNull => Some JNull
  | HBool b => Some (JBool b)
  | HNum n => Some (JNum n)
  | HStr s => Some (JStr s)
  | HRef l =>
      match fuel with
      | O => None
      | S f =>
          match g !! l with
          | Some (CObj fs) => option_map JObj (read_fields (read f g) fs)
          | Some (CArr vs) => option_map JArr (read_list (read f g) vs)
          | None => None
          end
      end
  end.

(** A fresh cell at the allocation pointer. *)
Definition alloc_cell (h : heap) (c : cell) : hval * heap :=
  (HRef (next h), {| cells := <[next h := c]> (cells h); next := S (next h) |}).

Fixpoint alloc_list (al : heap -> json -> hval * heap) (h : heap) (l : list json)
  : list hval * heap :=
  match l with
  | [] => ([], h)
  | x :: l' =>
      let '(v, h1) := al h x in
      let '(vs, h2) := alloc_list al h1 l' in
      (v :: vs, h2)
  end.

Fixpoint alloc_fields (al : heap -> json -> hval * heap) (h : heap) (fs : list (list Z * json))
  : list (list Z * hval) * heap :=
  match fs with
  | [] => ([], h)
  | (k, x) :: fs' =>
      let '(v, h1) := al h x in
      let '(ws, h2) := alloc_fields al h1 fs' in
      ((k, v) :: ws, h2)
  end.

(** The objects and arrays [JSON.parse] (or a literal) creates for a JSON
    value: fresh cells, children before their parent. *)
Fixpoint alloc (h : heap) (t : json) : hval * heap :=
  match t with
  | JNull => (HNull, h)
  | JBool b => (HBool b, h)
  | JNum n => (HNum n, h)
  | JStr s => (HStr s, h)
  | JArr l => let '(vs, h1) := alloc_list alloc h l in alloc_cell h1 (CArr vs)
  | JObj fs => let '(ws, h1) := alloc_fields alloc h fs in alloc_cell h1 (CObj ws)
  end.

Definition update_cell (h : heap) (l : nat) (c : cell) : heap :=
  {| cells := <[l := c]> (cells h); next := next h |}.

(** [v.key] for a non-null value ([None] is undefined; arrays and
    primitives have no such own data property). *)
Definition heap_get (g : gmap nat cell) (v : hval) (key : list Z) : option hval :=
  match v with
  | HRef l => match g !! l with Some (CObj fs) => lookup_field key fs | _ => None end
  | _ => None
  end.

Definition htruthy (v : option hval) : bool :=
  match v with
  | None | Some HNull => false
  | Some (HBool b) => b
  | Some (HNum n) => negb (n =? 0)
  | Some (HStr s) => negb (length s =? 0)%nat
  | Some (HRef _) => true
  end.

Definition hstrict_str (s : list Z) (v : option hval) : bool :=
  match v with Some (HStr t) => jstr_eqb t s | _ => false end.

(** [contents.map(c => c.role)]: [None] when [c.role] throws on [null]. *)
Fixpoint roles (g : gmap nat cell) (vs : list hval) : option (list (option hval)) :=
  match vs with
  | [] => Some []
  | HNull :: _ => None
  | v :: vs' => option_map (cons (heap_get g v (u "role"))) (roles g vs')
  end.

(** [rs.lastIndexOf(x)] ([None] is -1). *)
Fixpoint lastIndexOf (x : list Z) (rs : list (option hval)) : option nat :=
  match rs with
  | [] => None
  | r :: rs' =>
      match lastIndexOf x rs' with
      | Some k => Some (S k)
      | None => if hstrict_str x r then Some O else None
      end
  end.

(** [this.config.retry_prompts]: the per-language prompts and the
    ['default'] one. *)
Record retry_prompts := { prompt_table : list (list Z * list Z); default_prompt : list Z }.

Definition lang_key (l : Lang.lang) : list Z :=
  match l with
  | Lang.En => u "en" | Lang.Zh => u "zh" | Lang.Ja => u "ja" | Lang.Ko => u "ko"
  | Lang.Ar => u "ar" | Lang.Ru => u "ru" | Lang.Es => u "es" | Lang.Fr => u "fr"
  | Lang.De => u "de"
  end.

(** [retry_prompts[detectedLang] || retry_prompts['default']]. *)
Definition retry_prompt (p : retry_prompts) (l : Lang.lang) : list Z :=
  match lookup_field (lang_key l) (prompt_table p) with
  | Some s => if (length s =? 0)%nat then default_prompt p else s
  | None => default_prompt p
  end.

(** The two messages of [history]. *)
Definition history (accumulatedText retryPrompt : list Z) : list json :=
  [JObj [(u "role", JStr (u "model"));
         (u "parts", JArr [JObj [(u "text", JStr accumulatedText)]])];
   JObj [(u "role", JStr (u "user"));
         (u "parts", JArr [JObj [(u "text", JStr retryPrompt)]])]].

(** [buildRetryRequestBody(originalBody, accumulatedText)]: the new body
    and the heap after it, or [None] when it throws.  [JSON.parse(
    JSON.stringify(originalBody))] reads the value and allocates it afresh;
    the array literal around [history] and the array of roles are
    temporaries and are not stored.  A body that is not a plain object is
    not modelled ([None]): a primitive makes the assignment to [contents]
    throw in strict code. *)
Definition buildRetryRequestBody (prompts : retry_prompts) (h : heap) (originalBody : hval)
    (accumulatedText : list Z) : option (hval * heap) :=
  match read (S (next h)) (cells h) originalBody with
  | None => None
  | Some t =>
      let '(retryBody, h1) := alloc h t in
      let h2o :=
        if htruthy (heap_get (cells h1) retryBody (u "contents")) then Some h1
        else match retryBody with
             | HRef r =>
                 match cells h1 !! r with
                 | Some (CObj fs) =>
                     let '(c0, h1') := alloc_cell h1 (CArr []) in
                     Some (update_cell h1' r (CObj (set_field (u "contents") c0 fs)))
                 | _ => None
                 end
             | _ => None
             end in
      match h2o with
      | None => None
      | Some h2 =>
          match heap_get (cells h2) retryBody (u "contents") with
          | Some (HRef c) =>
              match cells h2 !! c with
              | Some (CArr elems) =>
                  match roles (cells h2) elems with
                  | None => None
                  | Some rs =>
                      let retryPrompt := retry_prompt prompts (Lang.detectLanguage accumulatedText) in
                      let lastUserIndex := lastIndexOf (u "user") rs in
                      let '(hist, h3) := alloc_list alloc h2 (history accumulatedText retryPrompt) in
                      match cells h3 !! c with
                      | Some (CArr elems3) =>
                          let elems' :=
                            match lastUserIndex with
                            | Some i => firstn (S i) elems3 ++ hist ++ skipn (S i) elems3
                            | None => elems3 ++ hist
                            end in
                          Some (retryBody, update_cell h3 c (CArr elems'))
                      | _ => None
                      end
                  end
              | _ => None
              end
          | _ => None
          end
      end
  end.

(** The continuation body as the specification describes it, for an
    original body with properties [fs]: [contents] (an empty array when
    absent) with the two messages inserted right after the last element
    whose role is ["user"], or appended when there is none. *)
Definition is_user (e : json) : bool :=
  match get e (u "role") with Some (JStr s) => jstr_eqb s (u "user") | _ => false end.

Fixpoint insert_after_last_user (hist : list json) (l : list json) : option (list json) :=
  match l with
  | [] => None
  | e :: l' =>
      match insert_after_last_user hist l' with
      | Some r => Some (e :: r)
      | None => if is_user e then Some (e :: hist ++ l') else None
      end
  end.

Definition spec_contents (fs : list (list Z * json)) : list json :=
  match assoc (u "contents") fs with Some (JArr l) => l | _ => [] end.

Definition spec_retry_body (fs : list (list Z * json)) (accumulatedText retryPrompt : list Z) : json :=
  let hist := history accumulatedText retryPrompt in
  let l := spec_contents fs in
  JObj (set_field (u "contents")
          (JArr (match insert_after_last_user hist l with Some r => r | None => l ++ hist end)) fs).

(** The bodies whose [contents] is absent, falsy, or an array without
    [null] elements. *)
Definition contents_ok (fs : list (list Z * json)) : Prop :=
  match assoc (u "contents") fs with
  | None => True
  | Some v => truthy (Some v) = false \/ exists l, v = JArr l /\ ~ In JNull l
  end.

(** [JSON.stringify]-style reading with enough fuel. *)
Definition reads_in (g : gmap nat cell) (v : hval) (t : json) : Prop :=
  exists F, forall fuel, (F <= fuel)%nat -> read fuel g v = Some t.

End RetryBody.

(* ================================================================== *)
(** * Theorems *)
(* ================================================================== *)

Module StrFacts.

Lemma starts_with_app (pat l : list Z) :
  starts_with pat l = true -> l = pat ++ skipn (length pat) l.
Proof.
  revert l; induction pat as [|p pat IH]; intros l H; simpl; [reflexivity|].
  destruct l as [|x l]; simpl in H; [discriminate|].
  apply andb_true_iff in H as [Hx H]. apply Z.eqb_eq in Hx. subst x.
  f_equal. now apply IH.
Qed.

Lemma index_of_split (pat l : list Z) (i : nat) :
  index_of pat l = Some i -> l = firstn i l ++ pat ++ skipn (i + length pat) l.
Proof.
  revert i; induction l as [|x l IH]; intros i H; simpl in H.
  - destruct (starts_with pat []) eqn:E; [|discriminate].
    injection H as <-. simpl. now apply starts_with_app.
  - destruct (starts_with pat (x :: l)) eqn:E.
    + injection H as <-. simpl. now apply starts_with_app.
    + destruct (index_of pat l) as [j|] eqn:Ej; simpl in H; [|discriminate].
      injection H as <-. simpl. f_equal. now apply IH.
Qed.

Lemma starts_with_self (pat rest : list Z) : starts_with pat (pat ++ rest) = true.
Proof. induction pat as [|p pat IH]; simpl; [reflexivity|]. now rewrite Z.eqb_refl, IH. Qed.

Lemma index_of_starts (pat l : list Z) : starts_with pat l = true -> index_of pat l = Some O.
Proof. intros H. destruct l; simpl; rewrite H; reflexivity. Qed.

Lemma includes_middle (x pat y : list Z) : includes (x ++ pat ++ y) pat = true.
Proof.
  unfold includes. induction x as [|c x IH]; simpl.
  - rewrite index_of_starts by apply starts_with_self. reflexivity.
  - destruct (starts_with pat (c :: x ++ pat ++ y)); [reflexivity|].
    destruct (index_of pat (x ++ pat ++ y)); [reflexivity|discriminate].
Qed.

(** A string containing [a ++ b] contains [b]. *)
Lemma includes_app_r (l a b : list Z) : includes l (a ++ b) = true -> includes l b = true.
Proof.
  unfold includes at 1. destruct (index_of (a ++ b) l) as [i|] eqn:E; [|discriminate].
  intros _. apply index_of_split in E. rewrite E.
  rewrite <- app_assoc. rewrite app_assoc. apply includes_middle.
Qed.

End StrFacts.

Module WsFrameFacts.
Import WsFrame.

(** A boolean test checked on every integer of a range [0, N). *)
Lemma forallb_range (f : Z -> bool) (N : Z) (n : Z) :
  forallb f (map Z.of_nat (seq 0 (Z.to_nat N))) = true -> 0 <= n < N -> f n = true.
Proof.
  intros Hall Hn. rewrite forallb_forall in Hall. apply Hall.
  apply in_map_iff. exists (Z.to_nat n). split; [lia|].
  apply in_seq. lia.
Qed.

Lemma one_byte_field (n : Z) : 0 <= n < 126 -> Z.land (u8 (Z.lor 128 n)) 127 = n.
Proof.
  intros Hn. apply Z.eqb_eq.
  apply (forallb_range (fun k => Z.land (u8 (Z.lor 128 k)) 127 =? k) 126);
    [vm_compute; reflexivity | lia].
Qed.

Lemma two_byte_field (n : Z) : 0 <= n < 65536 ->
  Z.lor (Z.shiftl (u8 (Z.land (Z.shiftr n 8) 255)) 8) (u8 (Z.land n 255)) = n.
Proof.
  intros Hn.
  assert (Q : 0 <= n / 256 < 256)
    by (split; [apply Z.div_pos; lia | apply Z.div_lt_upper_bound; lia]).
  assert (E1 : Z.land (Z.shiftr n 8) 255 = n / 256).
  { change 255 with (Z.ones 8). rewrite Z.land_ones, Z.shiftr_div_pow2 by lia.
    apply Z.mod_small. exact Q. }
  assert (E2 : Z.land n 255 = n mod 256)
    by (change 255 with (Z.ones 8); rewrite Z.land_ones by lia; reflexivity).
  assert (D : forall q r, Z.land (Z.shiftl q 8) (Z.land r (Z.ones 8)) = 0).
  { intros q r. apply Z.bits_inj'. intros i Hi. rewrite Z.land_spec, Z.bits_0.
    destruct (Z.lt_ge_cases i 8).
    - rewrite Z.shiftl_spec_low by lia. reflexivity.
    - rewrite Z.land_spec, Z.ones_spec_high by lia. rewrite !andb_false_r. reflexivity. }
  unfold u8. rewrite E1, E2, Z.mod_mod, (Z.mod_small (n / 256)) by lia.
  rewrite <- Z.add_nocarry_lor.
  - rewrite Z.shiftl_mul_pow2 by lia. change (2 ^ 8) with 256.
    pose proof (Z.div_mod n 256). lia.
  - rewrite <- E2. change 255 with (Z.ones 8). apply D.
Qed.

(** C7 (amended): the length form chosen by [_packFrame] depends only on
    the payload length: below 126 bytes the one-byte form, from 126 to
    65535 bytes (so 126, 127 and 65535) the two-byte extended form, and from
    65536 bytes on the codec rejects the payload.  The announced length is
    always the payload length. *)
Theorem pack_frame_length_forms : forall (opcode : Z) (mask payload : list Z),
  option_map frame_len_form (_packFrame opcode mask payload) =
    (if Z.of_nat (length payload) <? 126 then Some (Some OneByte)
     else if Z.of_nat (length payload) <? 65536 then Some (Some TwoByte)
     else None)
  /\ option_map frame_payload_len (_packFrame opcode mask payload) =
    (if Z.of_nat (length payload) <? 65536
     then Some (Some (Z.of_nat (length payload))) else None).
Proof.
  intros opcode mask payload. unfold _packFrame.
  set (n := Z.of_nat (length payload)).
  assert (Hn : 0 <= n) by (subst n; lia).
  destruct (n <? 126) eqn:E1; [|destruct (n <? 65536) eqn:E2]; simpl.
  - apply Z.ltb_lt in E1.
    assert (E2 : (n <? 65536) = true) by (apply Z.ltb_lt; lia).
    rewrite E2, (one_byte_field n) by lia.
    destruct (Z.eqb_spec n 126); [lia|].
    destruct (Z.eqb_spec n 127); [lia|]. split; reflexivity.
  - apply Z.ltb_ge in E1. apply Z.ltb_lt in E2.
    change (Z.land (u8 (Z.lor 128 126)) 127) with 126. simpl.
    rewrite (two_byte_field n) by lia. split; reflexivity.
  - split; reflexivity.
Qed.

(** C7 (counterexample): a 126-byte payload is not packed in the one-byte
    length form; [_packFrame] switches to the two-byte form at 126. *)
Lemma pack_126_not_one_byte :
  option_map frame_len_form (_packFrame 1 [0; 0; 0; 0] (repeat 0 126))
    <> Some (Some OneByte).
Proof. vm_compute. discriminate. Qed.

End WsFrameFacts.

Module HttpBodyFacts.
Import HttpBody StrFacts.

Lemma slice_to_end (l : list Z) (n : nat) :
  slice l (Z.of_nat n) (Z.of_nat (length l)) = skipn n l.
Proof.
  unfold slice, js_index.
  destruct (Z.of_nat n <? 0) eqn:E; [apply Z.ltb_lt in E; lia|].
  destruct (Z.of_nat (length l) <? 0) eqn:E'; [apply Z.ltb_lt in E'; lia|].
  rewrite Z.min_id.
  destruct (Nat.le_gt_cases n (length l)) as [Hle|Hgt].
  - rewrite Z.min_l by lia.
    replace (Z.to_nat (Z.of_nat (length l) - Z.of_nat n)) with (length (skipn n l))
      by (rewrite length_skipn; lia).
    rewrite Nat2Z.id. apply firstn_all.
  - rewrite Z.min_r by lia. rewrite Z.sub_diag. simpl.
    rewrite (skipn_all2 l (n:=n)) by lia. reflexivity.
Qed.

Lemma read_length_zero (received : Z) (rs : reads) :
  0 <= received -> read_length received (Some 0) rs = [].
Proof.
  intros H. destruct (received <? 0) eqn:E; [apply Z.ltb_lt in E; lia|].
  destruct rs; simpl; rewrite E; reflexivity.
Qed.


(** ** Decoding an ASCII preamble *)

(** Every byte is below 128. *)
Definition ascii (l : list Z) : bool := forallb (fun b => b <? 128) l.

Lemma ascii_app (a b : list Z) : ascii (a ++ b) = ascii a && ascii b.
Proof. unfold ascii. apply forallb_app. Qed.

Lemma utf8_ascii_cons (b : Z) (l : list Z) :
  (b <? 128) = true -> utf8_decode 0 0 0 128 191 (b :: l) = b :: utf8_decode 0 0 0 128 191 l.
Proof.
  intros H. cbn [utf8_decode]. rewrite Z.eqb_refl.
  replace (b <=? 127) with true by (symmetry; apply Z.leb_le; apply Z.ltb_lt in H; lia).
  reflexivity.
Qed.

Lemma utf8_ascii_app (a t : list Z) :
  ascii a = true -> utf8_decode 0 0 0 128 191 (a ++ t) = a ++ utf8_decode 0 0 0 128 191 t.
Proof.
  induction a as [|b a IH]; intros H; [reflexivity|].
  cbn [ascii forallb] in H. apply andb_true_iff in H as [Hb Ha].
  cbn [app]. rewrite utf8_ascii_cons by exact Hb. rewrite IH by exact Ha. reflexivity.
Qed.

Lemma units_ascii (a : list Z) : ascii a = true -> concat (map utf16_units a) = a.
Proof.
  induction a as [|b a IH]; intros H; [reflexivity|].
  cbn [ascii forallb] in H. apply andb_true_iff in H as [Hb Ha].
  cbn [map concat]. rewrite IH by exact Ha. unfold utf16_units.
  replace (b <? 65536) with true by (symmetry; apply Z.ltb_lt; apply Z.ltb_lt in Hb; lia).
  reflexivity.
Qed.

(** A decoded text starting with a non-empty ASCII prefix starts with that
    prefix, byte for byte. *)
Lemma decode_ascii_app (a t : list Z) :
  a <> [] -> ascii a = true ->
  decode (a ++ t) = a ++ concat (map utf16_units (utf8_decode 0 0 0 128 191 t)).
Proof.
  intros Hne H. unfold decode. rewrite utf8_ascii_app by exact H.
  destruct a as [|b a']; [contradiction|].
  cbn [app strip_bom].
  replace (b =? 65279) with false
    by (cbn [ascii forallb] in H; apply andb_true_iff in H as [Hb _]; apply Z.ltb_lt in Hb;
        symmetry; apply Z.eqb_neq; lia).
  change (b :: a' ++ utf8_decode 0 0 0 128 191 t) with ((b :: a') ++ utf8_decode 0 0 0 128 191 t).
  rewrite map_app, concat_app, units_ascii by exact H. reflexivity.
Qed.

Lemma decode_ascii (a : list Z) : ascii a = true -> decode a = a.
Proof.
  intros H. destruct a as [|b a']; [reflexivity|].
  rewrite <- (app_nil_r (b :: a')), decode_ascii_app by (discriminate || exact H).
  reflexivity.
Qed.

(** ** The first occurrence of a pattern in a prefix *)

Lemma index_of_len (pat l : list Z) (i : nat) :
  index_of pat l = Some i -> (i + length pat <= length l)%nat.
Proof.
  revert i; induction l as [|x l IH]; intros i H; simpl in H.
  - destruct pat; simpl in H; [injection H as <-; simpl; lia|discriminate].
  - destruct (starts_with pat (x :: l)) eqn:Es.
    + injection H as <-. apply starts_with_app in Es.
      apply (f_equal (@length Z)) in Es. rewrite length_app in Es. simpl in *. lia.
    + destruct (index_of pat l) as [j|]; [|discriminate].
      injection H as <-. specialize (IH j eq_refl). simpl. lia.
Qed.

Lemma starts_with_len (pat l : list Z) : starts_with pat l = true -> (length pat <= length l)%nat.
Proof.
  intros H. apply starts_with_app in H. apply (f_equal (@length Z)) in H.
  rewrite length_app in H. lia.
Qed.

Lemma starts_with_ext (pat l X : list Z) :
  (length pat <= length l)%nat -> starts_with pat (l ++ X) = starts_with pat l.
Proof.
  revert l. induction pat as [|p pat IH]; intros l H; [reflexivity|].
  destruct l as [|x l]; cbn [length] in H; [lia|].
  cbn [app starts_with]. rewrite IH by lia. reflexivity.
Qed.

(** An occurrence found in [l] is the first one of [l ++ X] as well. *)
Lemma index_of_app_some (pat l X : list Z) (i : nat) :
  index_of pat l = Some i -> index_of pat (l ++ X) = Some i.
Proof.
  revert i. induction l as [|x l IH]; intros i H.
  - destruct pat as [|p pat]; [|discriminate].
    injection H as <-. destruct X; reflexivity.
  - change (index_of pat (x :: l)) with
      (if starts_with pat (x :: l) then Some O else option_map S (index_of pat l)) in H.
    change (index_of pat ((x :: l) ++ X)) with
      (if starts_with pat ((x :: l) ++ X) then Some O else option_map S (index_of pat (l ++ X))).
    destruct (starts_with pat (x :: l)) eqn:Es.
    + rewrite starts_with_ext, Es by exact (starts_with_len _ _ Es). exact H.
    + destruct (index_of pat l) as [j|] eqn:Ej; [|discriminate].
      cbn [option_map] in H. injection H as <-.
      pose proof (index_of_len _ _ _ Ej) as Hl.
      rewrite starts_with_ext, Es by (cbn [length]; lia).
      rewrite (IH j eq_refl). reflexivity.
Qed.

Lemma split_on_aux_cons (fuel : nat) (sep l : list Z) : split_on_aux fuel sep l <> [].
Proof.
  destruct fuel; cbn [split_on_aux]; [discriminate|].
  destruct (index_of sep l); discriminate.
Qed.

(** ** Parsing a stream whose preamble is ASCII *)

(** A prefix [B] of a stream [pre ++ CRLFCRLF ++ rest], where [pre] is ASCII
    and holds no CRLF CRLF: shorter than the preamble and its CRLF CRLF it
    does not parse yet; otherwise its decoded text finds the header end at
    [length pre], the byte position of the CRLF CRLF. *)
Lemma prefix_parse (pre rest B S : list Z) :
  ascii pre = true -> index_of CRLFCRLF (pre ++ CRLFCRLF) = Some (length pre) ->
  B ++ S = pre ++ CRLFCRLF ++ rest ->
  ((length B < length pre + 4)%nat -> parseHttpHeaders B = PHNone) /\
  ((length pre + 4 <= length B)%nat ->
     exists t, B = pre ++ CRLFCRLF ++ t /\
       index_of CRLFCRLF (decode B) = Some (length pre) /\
       firstn (length pre) (decode B) = pre).
Proof.
  intros Ha Hi E.
  assert (Hac : ascii (pre ++ CRLFCRLF) = true) by (rewrite ascii_app, Ha; reflexivity).
  assert (Hlen : length (pre ++ CRLFCRLF) = (length pre + 4)%nat)
    by (rewrite length_app; reflexivity).
  rewrite app_assoc in E. split.
  - intros Hlt.
    assert (EB : B = firstn (length B) (pre ++ CRLFCRLF)).
    { transitivity (firstn (length B) (B ++ S)).
      - rewrite firstn_app, Nat.sub_diag, firstn_all, firstn_O, app_nil_r. reflexivity.
      - rewrite E, firstn_app.
        replace (length B - length (pre ++ CRLFCRLF))%nat with O by lia.
        rewrite firstn_O, app_nil_r. reflexivity. }
    assert (EB' : B ++ skipn (length B) (pre ++ CRLFCRLF) = pre ++ CRLFCRLF)
      by (rewrite EB at 1; apply firstn_skipn).
    assert (HaB : ascii B = true).
    { rewrite <- EB', ascii_app in Hac. apply andb_true_iff in Hac. apply Hac. }
    unfold parseHttpHeaders. rewrite decode_ascii by exact HaB.
    destruct (index_of CRLFCRLF B) as [i|] eqn:Ei; [|reflexivity].
    pose proof (index_of_len _ _ _ Ei) as Hl. cbn [length CRLFCRLF] in Hl.
    apply (index_of_app_some _ _ (skipn (length B) (pre ++ CRLFCRLF))) in Ei.
    rewrite EB', Hi in Ei. injection Ei as <-. lia.
  - intros Hge. exists (firstn (length B - (length pre + 4)) rest).
    assert (EB : B = pre ++ CRLFCRLF ++ firstn (length B - (length pre + 4)) rest).
    { rewrite app_assoc, <- Hlen. rewrite <- firstn_app_2.
      replace (length (pre ++ CRLFCRLF) + (length B - length (pre ++ CRLFCRLF)))%nat
        with (length B) by lia.
      rewrite <- E. rewrite firstn_app, Nat.sub_diag, firstn_all, firstn_O, app_nil_r.
      reflexivity. }
    split; [exact EB|].
    rewrite EB, app_assoc, decode_ascii_app by (destruct pre; discriminate || exact Hac).
    split.
    + apply index_of_app_some. exact Hi.
    + rewrite <- app_assoc, firstn_app, Nat.sub_diag, firstn_all, firstn_O, app_nil_r.
      reflexivity.
Qed.

(** [parseResponse]'s loop on a stream whose preamble is ASCII: the
    preamble parses at the first read [k] after which the preamble and its
    CRLF CRLF are buffered, and the body is built from the bytes after the
    CRLF CRLF in the buffer at that point ([data]) and the reads after it. *)
Lemma parse_loop_ascii (pre rest : list Z) :
  ascii pre = true -> index_of CRLFCRLF (pre ++ CRLFCRLF) = Some (length pre) ->
  forall (rs : reads) (buff : list Z) (r : response),
  buff ++ concat rs = pre ++ CRLFCRLF ++ rest ->
  parse_loop buff rs = Ok r ->
  exists (k : nat) (data : list Z),
    (0 < k)%nat /\
    (forall j : nat, (0 < j < k)%nat ->
       (length (buff ++ concat (firstn j rs)) < length pre + 4)%nat) /\
    buff ++ concat (firstn k rs) = pre ++ CRLFCRLF ++ data /\
    (body r, body_error r) = body_of (headers r) data (skipn k rs).
Proof.
  intros Ha Hi. induction rs as [|v rs IH]; intros buff r E Hp; [discriminate|].
  cbn [parse_loop] in Hp. cbn [concat] in E. rewrite app_assoc in E.
  destruct (prefix_parse pre rest (buff ++ v) (concat rs) Ha Hi E) as [Hshort Hlong].
  destruct (Nat.lt_ge_cases (length (buff ++ v)) (length pre + 4)) as [Hlt|Hge].
  - rewrite (Hshort Hlt) in Hp.
    destruct (IH (buff ++ v) r E Hp) as (k & data & Hk & Hj & Ek & Eb).
    exists (S k), data. split; [lia|]. split.
    + intros [|[|j]] Hjk; [lia|cbn [firstn concat]; rewrite app_nil_r; exact Hlt|].
      specialize (Hj (S j) ltac:(lia)). cbn [firstn concat] in Hj |- *.
      rewrite app_assoc. exact Hj.
    + split; [cbn [firstn concat]; rewrite app_assoc; exact Ek|exact Eb].
  - destruct (Hlong Hge) as (t & Et & Ei & Ef).
    revert Hp. unfold parseHttpHeaders at 1. rewrite Ei.
    destruct (split_on CRLF (firstn (length pre) (decode (buff ++ v)))) as [|sl lines] eqn:Es.
    { exfalso. unfold split_on in Es. exact (split_on_aux_cons _ _ _ Es). }
    destruct (status_match sl) as [[st txt]|]; [|discriminate].
    destruct (append_headers [] lines) as [hs|]; [|discriminate].
    destruct (body_of hs (slice (buff ++ v) (Z.of_nat (length pre) + 4)
                (Z.of_nat (length (buff ++ v)))) rs) as [b e] eqn:Eb.
    intros Hp. injection Hp as <-. exists 1%nat, t. split; [lia|]. split; [intros; lia|].
    split; [cbn [firstn concat]; rewrite app_nil_r; exact Et|].
    cbn [body body_error headers skipn]. rewrite <- Eb.
    replace (Z.of_nat (length pre) + 4) with (Z.of_nat (length pre + 4)) by lia.
    rewrite slice_to_end, Et, app_assoc, skipn_app.
    replace (length pre + 4 - length (pre ++ CRLFCRLF))%nat with O
      by (rewrite length_app; cbn [length CRLFCRLF]; lia).
    rewrite skipn_all2 by (rewrite length_app; cbn [length CRLFCRLF]; lia). reflexivity.
Qed.

(** C6 (amended): for a response whose preamble (the bytes before the first
    CRLF CRLF) is ASCII and whose parsed headers announce neither a chunked
    Transfer-Encoding nor a Content-Length, the body of the raw-socket
    response is exactly the bytes that follow the CRLF CRLF in what was read
    up to the first read [k] after which the preamble and its CRLF CRLF had
    arrived; then the body closes.  A missing Content-Length is read as 0,
    so the reads after the [k]-th are not consumed. *)
Theorem no_length_body_is_buffered_tail (buff pre rest : list Z) (rs : reads) (r : response) :
  buff ++ concat rs = pre ++ CRLFCRLF ++ rest ->
  ascii pre = true -> index_of CRLFCRLF (pre ++ CRLFCRLF) = Some (length pre) ->
  parse_loop buff rs = Ok r ->
  match headers_get (headers r) (u "transfer-encoding") with
  | Some te => includes te (u "chunked") = false
  | None => True
  end ->
  headers_get (headers r) (u "content-length") = None ->
  exists (k : nat) (data : list Z),
    (0 < k)%nat /\
    (forall j : nat, (0 < j < k)%nat ->
       (length (buff ++ concat (firstn j rs)) < length pre + 4)%nat) /\
    buff ++ concat (firstn k rs) = pre ++ CRLFCRLF ++ data /\
    body r = (if (length data =? 0)%nat then [] else [data]) /\
    body_error r = None.
Proof.
  intros E Ha Hi Hp Hte Hcl.
  destruct (parse_loop_ascii pre rest Ha Hi rs buff r E Hp) as (k & data & Hk & Hj & Ek & Eb).
  exists k, data. split; [exact Hk|]. split; [exact Hj|]. split; [exact Ek|].
  unfold body_of in Eb.
  destruct (headers_get (headers r) (u "transfer-encoding")) as [te|].
  - rewrite Hte, Hcl in Eb. cbn in Eb.
    rewrite read_length_zero, app_nil_r in Eb by lia. injection Eb as -> ->. auto.
  - rewrite Hcl in Eb. cbn in Eb.
    rewrite read_length_zero, app_nil_r in Eb by lia. injection Eb as -> ->. auto.
Qed.

(** C6 (witness): a response whose preamble names only a [Server] header
    and whose first read already carries three body bytes. *)
Lemma no_length_body_witness :
  exists (k : nat) (data : list Z),
    (0 < k)%nat /\
    (forall j : nat, (0 < j < k)%nat ->
       (length ([] ++ concat (firstn j [u "HTTP/1.1 200 OK" ++ CRLF ++ u "Server: x" ++ CRLFCRLF
                                         ++ u "abc"; u "def"]))
        < length (u "HTTP/1.1 200 OK" ++ CRLF ++ u "Server: x") + 4)%nat) /\
    [] ++ concat (firstn k [u "HTTP/1.1 200 OK" ++ CRLF ++ u "Server: x" ++ CRLFCRLF ++ u "abc";
                            u "def"])
      = (u "HTTP/1.1 200 OK" ++ CRLF ++ u "Server: x") ++ CRLFCRLF ++ data /\
    (let r := match parse_loop [] [u "HTTP/1.1 200 OK" ++ CRLF ++ u "Server: x" ++ CRLFCRLF
                                    ++ u "abc"; u "def"] with
              | Ok r => r
              | Throw _ => Build_response 0 [] [] [] None
              end in
     body r = (if (length data =? 0)%nat then [] else [data]) /\ body_error r = None).
Proof.
  destruct (parse_loop [] [u "HTTP/1.1 200 OK" ++ CRLF ++ u "Server: x" ++ CRLFCRLF ++ u "abc";
                           u "def"]) as [m|r] eqn:Ep; [vm_compute in Ep; discriminate|].
  cbv zeta.
  apply (no_length_body_is_buffered_tail []
           (u "HTTP/1.1 200 OK" ++ CRLF ++ u "Server: x") (u "abcdef")
           [u "HTTP/1.1 200 OK" ++ CRLF ++ u "Server: x" ++ CRLFCRLF ++ u "abc"; u "def"] r).
  - vm_compute. reflexivity.
  - vm_compute. reflexivity.
  - vm_compute. reflexivity.
  - exact Ep.
  - vm_compute in Ep. injection Ep as <-. vm_compute. exact I.
  - vm_compute in Ep. injection Ep as <-. vm_compute. reflexivity.
Defined.

(** C6 (counterexample): with neither Transfer-Encoding nor Content-Length,
    bytes arriving after the read that completed the preamble ("def") are
    not part of the body: it is "abc", not everything up to end of stream. *)
Lemma no_length_body_not_to_eof :
  match parseResponse [u "HTTP/1.1 200 OK" ++ CRLF ++ u "Server: x" ++ CRLFCRLF ++ u "abc";
                       u "def"] with
  | Ok r => concat (body r) <> u "abcdef" /\ concat (body r) = u "abc"
  | Throw _ => False
  end.
Proof. vm_compute. split; [discriminate | reflexivity]. Qed.

End HttpBodyFacts.

Module FallbackFacts.
Import Fallback StrFacts.

Definition extra_keywords : list (list Z) := map u ["etimedout"; "enetunreach"; "ehostunreach"]%string.

Lemma keywords_equiv (m : list Z) :
  existsb (fun keyword => includes m keyword) networkErrorKeywords
  = existsb (fun keyword => includes m keyword) (spec_keywords ++ extra_keywords).
Proof.
  assert (H1 : includes m (u "econnrefused") = true -> includes m (u "refused") = true)
    by apply (includes_app_r m (u "econn") (u "refused")).
  assert (H2 : includes m (u "econnreset") = true -> includes m (u "reset") = true)
    by apply (includes_app_r m (u "econn") (u "reset")).
  cbn [existsb map app networkErrorKeywords spec_keywords extra_keywords].
  destruct (includes m (u "econnrefused")) eqn:E1; [rewrite (H1 eq_refl)|];
  destruct (includes m (u "econnreset")) eqn:E2; try rewrite (H2 eq_refl); btauto.
Qed.

(** C5 (amended): after a raw-socket failure the fetch transport is tried
    exactly when AGGRESSIVE_FALLBACK is on (its default) or the error
    message, lower-cased by [toLowerCase], contains one of the listed substrings or one of
    "etimedout", "enetunreach", "ehostunreach" (the code's list also holds
    "econnrefused" and "econnreset", which contain "refused" and "reset");
    otherwise the raw-socket failure is surfaced as a 500 error response. *)
Theorem fallback_decision :
  forall (R : Type) (AGGRESSIVE_FALLBACK : bool) (message : option (list Z))
         (fetch : R + option (list Z)),
  fell_back (connectHttp AGGRESSIVE_FALLBACK (inr message) fetch)
    = AGGRESSIVE_FALLBACK
      || match message with
         | None => false
         | Some m => existsb (fun keyword => includes (toLowerCase m) keyword)
                             (spec_keywords ++ extra_keywords)
         end
  /\ (AGGRESSIVE_FALLBACK || shouldFallbackToFetch message = false ->
      connectHttp AGGRESSIVE_FALLBACK (inr message) fetch
      = SocketFailure 500 (u "Error socket connection: " ++ msg_text message)).
Proof.
  intros R aggr message fetch.
  assert (Hs : shouldFallbackToFetch message =
     match message with
     | None => false
     | Some m => existsb (fun keyword => includes (toLowerCase m) keyword)
                         (spec_keywords ++ extra_keywords)
     end).
  { destruct message as [[|c m]|]; [reflexivity| |reflexivity].
    unfold shouldFallbackToFetch. apply keywords_equiv. }
  unfold connectHttp. rewrite <- Hs. split.
  - destruct (aggr || shouldFallbackToFetch message); [|reflexivity].
    destruct fetch; reflexivity.
  - intros H. rewrite H. reflexivity.
Qed.

(** C5 (witness): with AGGRESSIVE_FALLBACK off, a "Connection reset"
    failure falls back, so does "NETWOR" followed by the Kelvin sign U+212A
    (which lowercases to "k"), and a TLS failure is surfaced. *)
Lemma fallback_decision_witness :
  (false || shouldFallbackToFetch (Some (u "TLS handshake failed")) = false)
  /\ connectHttp (R := unit) false (inr (Some (u "TLS handshake failed"))) (inl tt)
     = SocketFailure 500 (u "Error socket connection: " ++ u "TLS handshake failed")
  /\ fell_back (connectHttp (R := unit) false (inr (Some (u "Connection reset"))) (inl tt)) = true
  /\ fell_back (connectHttp (R := unit) false (inr (Some (u "NETWOR" ++ [8490]))) (inl tt)) = true.
Proof.
  split; [vm_compute; reflexivity|]. split; [|split].
  - apply (proj2 (fallback_decision unit false (Some (u "TLS handshake failed")) (inl tt))).
    vm_compute. reflexivity.
  - rewrite (proj1 (fallback_decision unit false (Some (u "Connection reset")) (inl tt))).
    vm_compute. reflexivity.
  - rewrite (proj1 (fallback_decision unit false (Some (u "NETWOR" ++ [8490])) (inl tt))).
    vm_compute. reflexivity.
Defined.

(** C5 (counterexample): a failure message with none of the listed
    substrings still falls back to fetch, under the default configuration
    (AGGRESSIVE_FALLBACK = true) and, with AGGRESSIVE_FALLBACK off, for the
    message "ETIMEDOUT". *)
Lemma fallback_without_listed_substring :
  existsb (fun k => includes (toLowerCase (u "certificate has expired")) k) spec_keywords = false
  /\ fell_back (connectHttp (R := unit) true (inr (Some (u "certificate has expired"))) (inl tt)) = true
  /\ existsb (fun k => includes (toLowerCase (u "ETIMEDOUT")) k) spec_keywords = false
  /\ fell_back (connectHttp (R := unit) false (inr (Some (u "ETIMEDOUT"))) (inl tt)) = true.
Proof. vm_compute. repeat split. Qed.

End FallbackFacts.

Module RouterFacts.
Import Router.

(** C9 (amended): a request whose first (non-empty) path segment is not
    "test", is not a preset route id and is not AUTH_TOKEN is answered
    with 401; a request whose only path segment is AUTH_TOKEN is answered
    with 400, unless AUTH_TOKEN is "test", in which case the public /test
    route, checked first, serves it. *)
Theorem router_auth_statuses :
  forall (cfg : config) (pathname search : list Z) (upgrade : option (list Z))
         (url_ok : list Z -> bool) (pick : nat),
  (forall (p0 : list Z) (rest : list (list Z)),
     path_parts pathname = p0 :: rest ->
     jstr_eqb p0 (u "test") = false ->
     lookup_route (u "/" ++ p0) = None ->
     jstr_eqb p0 (AUTH_TOKEN cfg) = false ->
     handleRequest cfg pathname search upgrade url_ok pick = ErrorStatus 401)
  /\ (path_parts pathname = [AUTH_TOKEN cfg] ->
      jstr_eqb (AUTH_TOKEN cfg) (u "test") = false ->
      handleRequest cfg pathname search upgrade url_ok pick = ErrorStatus 400).
Proof.
  intros cfg pathname search upgrade url_ok pick. split.
  - intros p0 rest Hp Ht Hr Ha. unfold handleRequest. rewrite Hp, Ht, Ha, Hr.
    reflexivity.
  - intros Hp Ht. unfold handleRequest. rewrite Hp, Ht.
    assert (Hrefl : forall s, jstr_eqb s s = true).
    { induction s as [|c s IH]; simpl; [reflexivity|]. now rewrite Z.eqb_refl. }
    rewrite Hrefl. reflexivity.
Qed.

Definition ex_config : config :=
  {| AUTH_TOKEN := u "secret"; DEFAULT_DST_URL := u "https://httpbin.org/get";
     PRESET_AUTH_ENABLED := false; GEMINI_SPECIAL_HANDLING_ENABLED := true |}.

(** C9 (witness): with AUTH_TOKEN "secret", "/foo/bar" gets 401 and
    "/secret" gets 400. *)
Lemma router_auth_statuses_witness :
  handleRequest ex_config (u "/foo/bar") [] None (fun _ => true) 0 = ErrorStatus 401
  /\ handleRequest ex_config (u "/secret") [] None (fun _ => true) 0 = ErrorStatus 400.
Proof.
  split.
  - apply (proj1 (router_auth_statuses ex_config (u "/foo/bar") [] None (fun _ => true) 0)
             (u "foo") [u "bar"]); vm_compute; reflexivity.
  - apply (proj2 (router_auth_statuses ex_config (u "/secret") [] None (fun _ => true) 0));
      vm_compute; reflexivity.
Defined.

(** C9 (counterexample): with AUTH_TOKEN configured as "test", the path
    consisting of exactly the token is served by the public test route,
    not answered with 400. *)
Lemma token_only_path_test_token :
  handleRequest {| AUTH_TOKEN := u "test"; DEFAULT_DST_URL := u "https://httpbin.org/get";
                   PRESET_AUTH_ENABLED := false; GEMINI_SPECIAL_HANDLING_ENABLED := true |}
                (u "/test") [] None (fun _ => true) 0
  = TestRoute (u "https://httpbin.org/get").
Proof. vm_compute. reflexivity. Qed.

End RouterFacts.

Module LangFacts.
Import Lang.

Definition scan_step (acc : Z * lang) (x : lang * Z) : Z * lang :=
  let '(maxCount, detectedLang) := acc in
  let '(l, count) := x in
  if maxCount <? count then (count, l) else (maxCount, detectedLang).

Lemma find_max_some (xs : list (lang * Z)) :
  Forall (fun p => 0 <= snd p) xs -> 0 < fold_right Z.max 0 (map snd xs) ->
  exists p, List.find (fun '(_, c) => c =? fold_right Z.max 0 (map snd xs)) xs = Some p.
Proof.
  induction xs as [|[l c] xs IH]; intros Hall Hpos; simpl in *; [lia|].
  inversion Hall as [|? ? Hc Hrest]; subst.
  destruct (Z.eqb_spec c (Z.max c (fold_right Z.max 0 (map snd xs)))); [eauto|].
  replace (Z.max c (fold_right Z.max 0 (map snd xs)))
    with (fold_right Z.max 0 (map snd xs)) in * by lia.
  apply IH; auto.
Qed.

Lemma scan_step_spec (xs : list (lang * Z)) (m0 : Z) (d0 : lang) :
  0 <= m0 -> Forall (fun p => 0 <= snd p) xs ->
  let M := Z.max m0 (fold_right Z.max 0 (map snd xs)) in
  fold_left scan_step xs (m0, d0) =
    (M, if M =? m0 then d0
        else match List.find (fun '(_, c) => c =? M) xs with Some (l, _) => l | None => d0 end).
Proof.
  revert m0 d0; induction xs as [|[l c] xs IH]; intros m0 d0 Hm Hall; simpl.
  - rewrite Z.max_l by lia. rewrite Z.eqb_refl. reflexivity.
  - inversion Hall as [|? ? Hc Hrest]; subst. simpl in Hc.
    assert (Hml : 0 <= fold_right Z.max 0 (map snd xs)).
    { clear. induction xs; simpl; lia. }
    destruct (Z.ltb_spec m0 c).
    + rewrite (IH c l) by (auto; lia).
      f_equal; [lia|].
      destruct (Z.eqb_spec (Z.max c (fold_right Z.max 0 (map snd xs))) c) as [E|E];
      destruct (Z.eqb_spec (Z.max m0 (Z.max c (fold_right Z.max 0 (map snd xs)))) m0); try lia.
      * replace (Z.max m0 (Z.max c (fold_right Z.max 0 (map snd xs))))
          with c by lia. rewrite Z.eqb_refl. reflexivity.
      * replace (Z.max m0 (Z.max c (fold_right Z.max 0 (map snd xs))))
          with (Z.max c (fold_right Z.max 0 (map snd xs))) by lia.
        destruct (Z.eqb_spec c (Z.max c (fold_right Z.max 0 (map snd xs)))); [lia|].
        replace (Z.max c (fold_right Z.max 0 (map snd xs)))
          with (fold_right Z.max 0 (map snd xs)) by lia.
        destruct (find_max_some xs) as [[l' c'] ->]; [exact Hrest|lia|].
        reflexivity.
    + rewrite (IH m0 d0) by auto.
      f_equal; [lia|].
      replace (Z.max m0 (Z.max c (fold_right Z.max 0 (map snd xs))))
        with (Z.max m0 (fold_right Z.max 0 (map snd xs))) by lia.
      destruct (Z.eqb_spec (Z.max m0 (fold_right Z.max 0 (map snd xs))) m0); [reflexivity|].
      destruct (Z.eqb_spec c (Z.max m0 (fold_right Z.max 0 (map snd xs)))); [lia|].
      reflexivity.
Qed.

Lemma scan_blocks_counts (text : list Z) :
  scan_blocks text = fold_left scan_step (block_counts text) (0, En).
Proof.
  unfold scan_blocks, block_counts. generalize (0, En) as a. generalize patterns as ps.
  induction ps as [|[l p] ps IH]; intros [m d]; simpl; [reflexivity|]. apply IH.
Qed.

(** C4 (amended): [detectLanguage] returns [en] for texts shorter than 10
    code units; otherwise the label with the largest Unicode-block count
    (earliest of zh, ja, ko, ar, ru on ties) if that count exceeds 10% of
    the length; else, for a text with a letter of the general diacritic
    class, the diacritic scan (fr, de, es, else en); and [en] for a text with
    no letter of the general class nor of the fr, de and es classes. *)
Theorem detect_language_amended : forall text : list Z,
  match amended_detect text with
  | Some l => detectLanguage text = l
  | None => True
  end.
Proof.
  intros text. unfold detectLanguage, amended_detect.
  destruct ((length text =? 0)%nat) eqn:E0.
  { apply Nat.eqb_eq in E0. rewrite E0. reflexivity. }
  simpl orb. destruct ((length text <? 10)%nat); [reflexivity|].
  rewrite scan_blocks_counts, scan_step_spec.
  2: lia.
  2: { unfold block_counts, count_matches. simpl. repeat constructor; simpl; lia. }
  unfold max_count.
  rewrite Z.max_r by (clear; induction (map snd (block_counts text)); simpl; lia).
  destruct (Z.ltb_spec (Z.of_nat (length text)) (10 * fold_right Z.max 0 (map snd (block_counts text)))).
  - destruct (Z.eqb_spec (fold_right Z.max 0 (map snd (block_counts text))) 0); [lia|].
    destruct (List.find _ (block_counts text)) as [[l c]|]; reflexivity.
  - destruct (test_class_i diacritics text); [reflexivity|].
    destruct (test_class_i (french ++ german ++ spanish) text); [exact I|reflexivity].
Qed.

(** C4 (counterexample): a text whose Chinese and Cyrillic counts both
    exceed 10% of its length is labelled [ru] (the larger count), not [zh]
    (the first label exceeding 10%); and a two-character Chinese text is
    labelled [en] because it is shorter than 10 code units. *)
Lemma detect_language_not_first_match :
  let t := [19968; 19969; 1040; 1041; 1042] ++ repeat 97 7 in
  Z.of_nat (length t) < 10 * count_matches (fun c => in_range 19968 40869 c) t
  /\ detectLanguage t = Ru
  /\ Z.of_nat (length [19968; 19969]) < 10 * count_matches (fun c => in_range 19968 40869 c) [19968; 19969]
  /\ detectLanguage [19968; 19969] = En.
Proof. vm_compute. repeat split; reflexivity. Qed.

End LangFacts.

Module GeminiFacts.
Import Json Gemini.

(** ** The SSE line iterator *)

Lemma split_lf_nonempty (s : list Z) : split_lf s <> [].
Proof.
  induction s as [|c s IH]; simpl; [discriminate|].
  destruct (c =? 10); [discriminate|].
  destruct (split_lf s); [contradiction|discriminate].
Qed.

Lemma split_lf_app (x y : list Z) :
  split_lf (x ++ y) = removelast (split_lf x) ++ split_lf (List.last (split_lf x) [] ++ y).
Proof.
  induction x as [|c x IH]; simpl; [reflexivity|].
  pose proof (split_lf_nonempty x) as Hne.
  destruct (c =? 10) eqn:Ec.
  - rewrite IH. destruct (split_lf x) as [|p ps]; [contradiction|]. reflexivity.
  - rewrite IH. destruct (split_lf x) as [|p [|q rest]]; [contradiction| |].
    + simpl. rewrite Ec. reflexivity.
    + reflexivity.
Qed.

Lemma split_lf_last_no_lf (s : list Z) : ~ In 10 (List.last (split_lf s) []).
Proof.
  induction s as [|c s IH]; simpl; [tauto|].
  pose proof (split_lf_nonempty s) as Hne.
  destruct (Z.eqb_spec c 10) as [Ec|Ec].
  - destruct (split_lf s) as [|p ps]; [contradiction|]. exact IH.
  - destruct (split_lf s) as [|p [|q rest]]; [contradiction| |].
    + simpl in *. intros [H|H]; [congruence|tauto].
    + exact IH.
Qed.

Lemma split_lf_no_lf (s : list Z) : ~ In 10 s -> split_lf s = [s].
Proof.
  induction s as [|c s IH]; intros H; simpl; [reflexivity|].
  simpl in H. destruct (Z.eqb_spec c 10); [exfalso; tauto|].
  rewrite IH by tauto. reflexivity.
Qed.

Lemma last_app_nonempty {A} (l l' : list A) (d : A) :
  l' <> [] -> List.last (l ++ l') d = List.last l' d.
Proof.
  intros H. induction l as [|x l IH]; simpl; [reflexivity|].
  rewrite IH. destruct (l ++ l') eqn:E; [|reflexivity].
  apply app_eq_nil in E as [_ ->]. contradiction.
Qed.

Lemma split_crlf_app (x y : list Z) :
  split_crlf (x ++ y) =
  map strip_cr (removelast (split_lf x)) ++ split_crlf (List.last (split_lf x) [] ++ y).
Proof.
  unfold split_crlf at 1. rewrite split_lf_app.
  pose proof (split_lf_nonempty (List.last (split_lf x) [] ++ y)) as Hne.
  rewrite removelast_app, last_app_nonempty, map_app, <- app_assoc by exact Hne.
  reflexivity.
Qed.

Lemma split_crlf_removelast (s : list Z) :
  removelast (split_crlf s) = map strip_cr (removelast (split_lf s)).
Proof. unfold split_crlf. apply removelast_last. Qed.

Lemma split_crlf_last (s : list Z) :
  List.last (split_crlf s) [] = List.last (split_lf s) [].
Proof. unfold split_crlf. apply last_last. Qed.

Lemma sse_lines_aux_clean (cs : list (list Z)) (buffer : list Z) :
  ~ In 10 buffer ->
  sse_lines_aux buffer cs false =
  (List.filter trim_nonempty (split_crlf (buffer ++ concat cs)), false).
Proof.
  revert buffer; induction cs as [|c cs IH]; intros buffer Hb; simpl.
  - rewrite app_nil_r. unfold split_crlf. rewrite split_lf_no_lf by exact Hb.
    simpl. destruct (trim_nonempty buffer); reflexivity.
  - rewrite IH by (rewrite split_crlf_last; apply split_lf_last_no_lf).
    rewrite split_crlf_removelast, split_crlf_last.
    rewrite app_assoc, (split_crlf_app (buffer ++ c) (concat cs)), List.filter_app.
    reflexivity.
Qed.

Lemma run_lines_prefix (parse : list Z -> option json) (lines : list (list Z)) :
  forall st raised, exists k, fst (fst (run_lines parse st lines raised)) = firstn k lines.
Proof.
  induction lines as [|l ls IH]; intros st raised; simpl.
  - exists O. reflexivity.
  - destruct (interp_line parse st l) as [st'|st'|r st'].
    + destruct (IH st' raised) as [k Hk].
      destruct (run_lines parse st' ls raised) as [[c e] s]. simpl in Hk.
      exists (S k). simpl. now rewrite Hk.
    + exists 1%nat. reflexivity.
    + exists 1%nat. reflexivity.
Qed.

(** C10: for a stream that ends normally, [sseLineIterator] yields the
    pieces of the whole decoded stream split on [\r?\n] that contain a
    non-whitespace code unit, in order, however the stream is cut into
    chunks; every attempt writes exactly the lines it consumed, a prefix of
    the yielded lines, each followed by ["\n\n"]; so a CRLF-framed event
    reaches the client LF-framed, not byte for byte. *)
Theorem sse_lines_renormalized :
  (forall cs : list (list Z),
     sseLineIterator {| chunks := cs; fails := false |} =
     (List.filter trim_nonempty (split_crlf (concat cs)), false)) /\
  (forall (parse : list Z -> option json) (acc : list Z) (reader : feed),
     att_writes (run_attempt parse acc reader)
       = map (fun l => WText (l ++ [10; 10])) (att_lines (run_attempt parse acc reader)) /\
     exists k, att_lines (run_attempt parse acc reader) = firstn k (fst (sseLineIterator reader))) /\
  att_writes (run_attempt (fun _ => None) []
                {| chunks := [u "data: 1" ++ [13; 10; 13; 10]]; fails := false |})
    = [WText (u "data: 1" ++ [10; 10])].
Proof.
  split; [|split].
  - intros cs. unfold sseLineIterator. simpl. apply sse_lines_aux_clean. simpl. tauto.
  - intros parse acc reader. unfold run_attempt.
    destruct (sseLineIterator reader) as [lines raised]. simpl.
    destruct (run_lines_prefix parse lines
                {| accumulatedText := acc; hasReceivedFinalAnswerContent := false;
                   hasReceivedToolCalls := false |} raised) as [k Hk].
    destruct (run_lines parse _ lines raised) as [[c e] s]. simpl in *.
    split; [reflexivity|]. now exists k.
  - vm_compute. reflexivity.
Qed.

(** ** Finish reasons *)



(** ** The retry limit *)

Lemma process_attempts_bound (cfg : gconfig) (parse : list Z -> option json)
    (retry : Z -> list Z -> retry_response) (fuel : nat) :
  forall count net acc reader,
    (length (s_logs (process fuel cfg parse retry count net acc reader))
     <= Z.to_nat (max_consecutive_retries cfg - count) + 1)%nat.
Proof.
  induction fuel as [|fuel IH]; intros count net acc reader; simpl; [lia|].
  destruct (att_end (run_attempt parse acc reader)) as [|r]; simpl; [lia|].
  destruct (Z.leb_spec (max_consecutive_retries cfg) count); simpl; [lia|].
  assert (Hs : forall net' acc' reader',
    (length (s_logs (prepend (run_attempt parse acc reader)
               (process fuel cfg parse retry (count + 1) net' acc' reader')))
     <= Z.to_nat (max_consecutive_retries cfg - count) + 1)%nat).
  { intros. simpl. specialize (IH (count + 1) net' acc' reader'). lia. }
  destruct (retry (count + 1) _) as [msg|status hb etext body].
  - destruct (_ <=? _); simpl; [lia|apply Hs].
  - destruct (NON_RETRYABLE_STATUSES status); simpl; [lia|].
    destruct (_ && _ && _); [apply Hs|].
    destruct (_ <=? _); simpl; [lia|apply Hs].
Qed.

Lemma process_enough_fuel (cfg : gconfig) (parse : list Z -> option json)
    (retry : Z -> list Z -> retry_response) (fuel : nat) :
  forall fuel' count net acc reader,
    (Z.to_nat (max_consecutive_retries cfg - count) + 1 <= fuel)%nat ->
    (Z.to_nat (max_consecutive_retries cfg - count) + 1 <= fuel')%nat ->
    process fuel cfg parse retry count net acc reader
    = process fuel' cfg parse retry count net acc reader /\
    s_finished (process fuel cfg parse retry count net acc reader) = true.
Proof.
  induction fuel as [|fuel IH]; intros fuel' count net acc reader H1 H2; [lia|].
  destruct fuel' as [|fuel']; [lia|]. simpl.
  destruct (att_end (run_attempt parse acc reader)) as [|r]; [split; reflexivity|].
  destruct (Z.leb_spec (max_consecutive_retries cfg) count); [split; reflexivity|].
  assert (Hs : forall net' acc' reader',
    prepend (run_attempt parse acc reader) (process fuel cfg parse retry (count + 1) net' acc' reader')
    = prepend (run_attempt parse acc reader) (process fuel' cfg parse retry (count + 1) net' acc' reader')
    /\ s_finished (prepend (run_attempt parse acc reader)
                     (process fuel cfg parse retry (count + 1) net' acc' reader')) = true).
  { intros. destruct (IH fuel' (count + 1) net' acc' reader') as [E F]; [lia|lia|].
    rewrite E. split; [reflexivity|]. simpl. now rewrite <- E. }
  destruct (retry (count + 1) _) as [msg|status hb etext body].
  - destruct (_ <=? _); [split; reflexivity|apply Hs].
  - destruct (NON_RETRYABLE_STATUSES status); [split; reflexivity|].
    destruct (_ && _ && _); [apply Hs|].
    destruct (_ <=? _); [split; reflexivity|apply Hs].
Qed.

(** C1: an attempt interrupted when [consecutiveRetryCount] has reached
    [max_consecutive_retries] writes its lines, then one [event: error]
    SSE event whose data JSON has [error.code = 504] and
    [error.status = "DEADLINE_EXCEEDED"], then closes the writer, and the
    session ends there.  A session started with no retries (and a
    non-negative limit) has at most [max_consecutive_retries + 1]
    attempts: it has finished after that many, and more fuel changes
    nothing. *)
Theorem retry_limit_deadline (cfg : gconfig) (parse : list Z -> option json)
    (retry : Z -> list Z -> retry_response) :
  0 <= max_consecutive_retries cfg ->
  (forall fuel count net acc reader r,
     max_consecutive_retries cfg <= count ->
     att_end (run_attempt parse acc reader) = AInterrupt r ->
     exists payload,
       process (S fuel) cfg parse retry count net acc reader
       = {| s_writes := att_writes (run_attempt parse acc reader)
                        ++ [WText (u "event: error" ++ [10] ++ u "data: " ++ stringify payload
                                   ++ [10; 10]); WClose];
            s_logs := [run_attempt parse acc reader];
            s_finished := true |} /\
       oget (oget (Some payload) (u "error")) (u "code") = Some (JNum 504) /\
       oget (oget (Some payload) (u "error")) (u "status") = Some (JStr (u "DEADLINE_EXCEEDED"))) /\
  (forall fuel reader,
     Z.of_nat (length (s_logs (process fuel cfg parse retry 0 0 [] reader)))
       <= max_consecutive_retries cfg + 1 /\
     ((Z.to_nat (max_consecutive_retries cfg) + 1 <= fuel)%nat ->
      process fuel cfg parse retry 0 0 [] reader
      = process (Z.to_nat (max_consecutive_retries cfg) + 1) cfg parse retry 0 0 [] reader /\
      s_finished (process fuel cfg parse retry 0 0 [] reader) = true)).
Proof.
  intros Hmax. split.
  - intros fuel count net acc reader r Hc He.
    exists (error_payload 504 (u "DEADLINE_EXCEEDED") (deadline_message cfg r)).
    split; [|split; reflexivity].
    simpl. rewrite He. destruct (Z.leb_spec (max_consecutive_retries cfg) count); [|lia].
    reflexivity.
  - intros fuel reader. split.
    + pose proof (process_attempts_bound cfg parse retry fuel 0 0 [] reader) as H.
      rewrite Z.sub_0_r in H. lia.
    + intros Hf. rewrite <- (Z.sub_0_r (max_consecutive_retries cfg)).
      apply process_enough_fuel; rewrite Z.sub_0_r; lia.
Qed.

(** ** The accumulated text *)

(** The parts arrays that [parse] produces have no [null] element. *)
Definition no_null_parts (parse : list Z -> option json) : Prop :=
  forall s payload ps, parse s = Some payload ->
  oget (oget (oindex (oget (Some payload) (u "candidates")) 0) (u "content")) (u "parts")
    = Some (JArr ps) -> ~ In JNull ps.

Definition step_state (s : step) : astate :=
  match s with Continue st | Done st | Interrupted _ st => st end.

Lemma scan_part_acc (st : astate) (p : json) :
  accumulatedText (scan_part st p) = accumulatedText st ++ part_text p.
Proof.
  unfold scan_part, part_text.
  destruct (get p (u "text")) as [[]|]; simpl;
    try (destruct (_ || _); simpl); try rewrite app_nil_r; reflexivity.
Qed.

Lemma scan_parts_acc (ps : list json) :
  forall st, ~ In JNull ps ->
  exists st', scan_parts st ps = (st', false) /\
              accumulatedText st' = accumulatedText st ++ concat (map part_text ps).
Proof.
  induction ps as [|p ps IH]; intros st Hn; simpl.
  - exists st. rewrite app_nil_r. split; reflexivity.
  - assert (Hp : p <> JNull) by (intros ->; apply Hn; left; reflexivity).
    assert (E : scan_parts st (p :: ps) = scan_parts (scan_part st p) ps)
      by (destruct p; [contradiction|reflexivity..]).
    simpl in E. rewrite E.
    destruct (IH (scan_part st p)) as [st' [H1 H2]]; [intros H; apply Hn; right; exact H|].
    exists st'. split; [exact H1|]. rewrite H2, scan_part_acc, app_assoc. reflexivity.
Qed.

Local Ltac red_step := cbv beta iota zeta delta [step_state negb].

Lemma interp_line_acc (parse : list Z -> option json) (st : astate) (line : list Z) :
  no_null_parts parse ->
  accumulatedText (step_state (interp_line parse st line))
  = accumulatedText st ++ line_texts parse line.
Proof.
  intros Hnn. unfold interp_line, line_texts.
  destruct (starts_with (u "data: ") line); red_step; [|now rewrite app_nil_r].
  destruct (parse (skipn 6 line)) as [payload|] eqn:Ep; red_step; [|now rewrite app_nil_r].
  destruct (truthy (oindex (oget (Some payload) (u "candidates")) 0)); red_step;
    [|now rewrite app_nil_r].
  destruct (oget (oget (oindex (oget (Some payload) (u "candidates")) 0) (u "content")) (u "parts"))
    as [[| | | |ps|]|] eqn:Eparts; red_step; try (rewrite app_nil_r;
      repeat match goal with |- context [if ?b then _ else _] => destruct b end; reflexivity).
  destruct (scan_parts_acc ps st) as [st' [H1 H2]]; [eapply Hnn; eassumption|].
  rewrite H1. red_step.
  repeat match goal with |- context [if ?b then _ else _] => destruct b end; exact H2.
Qed.

Lemma run_lines_acc (parse : list Z -> option json) (lines : list (list Z)) :
  no_null_parts parse ->
  forall st raised,
  let '(c, _, s) := run_lines parse st lines raised in
  accumulatedText s = accumulatedText st ++ concat (map (line_texts parse) c).
Proof.
  intros Hnn. induction lines as [|l ls IH]; intros st raised; simpl.
  - now rewrite app_nil_r.
  - pose proof (interp_line_acc parse st l Hnn) as Hl.
    destruct (interp_line parse st l) as [st'|st'|r st']; simpl in Hl.
    + specialize (IH st' raised).
      destruct (run_lines parse st' ls raised) as [[c e] s]. simpl.
      rewrite IH, Hl, app_assoc. reflexivity.
    + simpl. now rewrite app_nil_r.
    + simpl. now rewrite app_nil_r.
Qed.

(** The text an attempt observed. *)
Definition observed (parse : list Z -> option json) (a : attempt) : list Z :=
  concat (map (line_texts parse) (att_lines a)).

Lemma run_attempt_acc (parse : list Z -> option json) (acc : list Z) (reader : feed) :
  no_null_parts parse ->
  att_start (run_attempt parse acc reader) = acc /\
  accumulatedText (att_state (run_attempt parse acc reader))
  = acc ++ observed parse (run_attempt parse acc reader).
Proof.
  intros Hnn. unfold run_attempt, observed.
  destruct (sseLineIterator reader) as [lines raised].
  pose proof (run_lines_acc parse lines Hnn
                {| accumulatedText := acc; hasReceivedFinalAnswerContent := false;
                   hasReceivedToolCalls := false |} raised) as H.
  destruct (run_lines parse _ lines raised) as [[c e] s]. simpl in *.
  split; [reflexivity|exact H].
Qed.

(** The attempts of a session, each starting from the text the previous
    one ended with. *)
Fixpoint chain (parse : list Z -> option json) (acc : list Z) (logs : list attempt) : Prop :=
  match logs with
  | [] => True
  | a :: l =>
      att_start a = acc /\
      accumulatedText (att_state a) = acc ++ observed parse a /\
      chain parse (accumulatedText (att_state a)) l
  end.

Lemma process_chain (cfg : gconfig) (parse : list Z -> option json)
    (retry : Z -> list Z -> retry_response) (fuel : nat) :
  no_null_parts parse ->
  forall count net acc reader,
  chain parse acc (s_logs (process fuel cfg parse retry count net acc reader)).
Proof.
  intros Hnn. induction fuel as [|fuel IH]; intros count net acc reader; simpl; [exact I|].
  destruct (run_attempt_acc parse acc reader Hnn) as [Hs Ha].
  assert (Hf : forall tail, chain parse acc (s_logs (finish (run_attempt parse acc reader) tail))).
  { intros. simpl. repeat split; assumption. }
  assert (Hp : forall count' net' reader',
     chain parse acc (s_logs (prepend (run_attempt parse acc reader)
        (process fuel cfg parse retry count' net'
           (accumulatedText (att_state (run_attempt parse acc reader))) reader')))).
  { intros. simpl. repeat split; try assumption. apply IH. }
  destruct (att_end (run_attempt parse acc reader)) as [|r]; [apply Hf|].
  destruct (_ <=? count); [apply Hf|].
  destruct (retry (count + 1) _) as [msg|status hb etext body].
  - destruct (_ <=? _); [apply Hf|apply Hp].
  - destruct (NON_RETRYABLE_STATUSES status); [apply Hf|].
    destruct (_ && _ && _); [apply Hp|].
    destruct (_ <=? _); [apply Hf|apply Hp].
Qed.

Lemma chain_nth (parse : list Z -> option json) (logs : list attempt) :
  forall acc N a, chain parse acc logs -> nth_error logs N = Some a ->
  att_start a = acc ++ concat (map (observed parse) (firstn N logs)) /\
  accumulatedText (att_state a) = acc ++ concat (map (observed parse) (firstn (S N) logs)).
Proof.
  induction logs as [|b logs IH]; intros acc N a Hc Hn; [destruct N; discriminate|].
  destruct Hc as [Hs [Ha Hc]]. destruct N as [|N]; simpl in Hn.
  - injection Hn as <-. simpl. rewrite !app_nil_r. split; assumption.
  - destruct (IH _ N a Hc Hn) as [H1 H2]. simpl.
    rewrite H1, H2, Ha, !app_assoc. split; reflexivity.
Qed.

(** X25: in every session, when the [parse]d parts arrays have no [null]
    element, attempt [N] starts from the text observed in attempts
    [0..N-1] (nothing is reset when a retry begins) and ends with
    [accumulatedText] equal to the concatenation, in arrival order, of the
    string [parts[*].text] of the first candidates of the lines consumed in
    attempts [0..N], thought parts included. *)
Theorem accumulated_text_concat (fuel : nat) (cfg : gconfig) (parse : list Z -> option json)
    (retry : Z -> list Z -> retry_response) (reader : feed) :
  no_null_parts parse ->
  forall N a,
    nth_error (s_logs (process fuel cfg parse retry 0 0 [] reader)) N = Some a ->
    att_start a
      = concat (map (observed parse) (firstn N (s_logs (process fuel cfg parse retry 0 0 [] reader))))
    /\ accumulatedText (att_state a)
      = concat (map (observed parse)
                  (firstn (S N) (s_logs (process fuel cfg parse retry 0 0 [] reader)))).
Proof.
  intros Hnn N a Hn.
  exact (chain_nth parse _ [] N a (process_chain cfg parse retry fuel Hnn 0 0 [] reader) Hn).
Qed.

(** ** Concrete sessions *)

(** A [data:] payload whose first candidate has one answer part ["hi"] and
    [finishReason: "STOP"]. *)
Definition ex_payload : json :=
  JObj [(u "candidates",
         JArr [JObj [(u "content", JObj [(u "parts", JArr [JObj [(u "text", JStr (u "hi"))]])]);
                     (u "finishReason", JStr (u "STOP"))]])].

Definition ex_parse (s : list Z) : option json := Some ex_payload.


Definition ex_reader : feed := {| chunks := [u "data: {}" ++ [10; 10]]; fails := false |}.

Lemma ex_parse_no_null : no_null_parts ex_parse.
Proof.
  intros s p ps H1 H2. injection H1 as <-. vm_compute in H2. injection H2 as <-.
  intros [H|H]; [discriminate|exact H].
Qed.


Lemma retry_limit_deadline_witness :
  0 <= max_consecutive_retries GEMINI_CONFIG /\
  Z.of_nat (length (s_logs (process 10 GEMINI_CONFIG (fun _ => None) (fun _ _ => RThrow [])
                              0 0 [] cancelled))) <= max_consecutive_retries GEMINI_CONFIG + 1.
Proof.
  assert (H : 0 <= max_consecutive_retries GEMINI_CONFIG) by (simpl; lia).
  split; [exact H|].
  exact (proj1 (proj2 (retry_limit_deadline GEMINI_CONFIG (fun _ => None) (fun _ _ => RThrow []) H)
                  10%nat cancelled)).
Defined.

Lemma accumulated_text_concat_witness :
  exists a,
    nth_error (s_logs (process 3 GEMINI_CONFIG ex_parse (fun _ _ => RThrow []) 0 0 [] ex_reader)) 0
      = Some a /\
    accumulatedText (att_state a)
    = concat (map (observed ex_parse)
                (firstn 1 (s_logs (process 3 GEMINI_CONFIG ex_parse (fun _ _ => RThrow [])
                                     0 0 [] ex_reader)))).
Proof.
  destruct (nth_error (s_logs (process 3 GEMINI_CONFIG ex_parse (fun _ _ => RThrow [])
                                 0 0 [] ex_reader)) 0) as [a|] eqn:E;
    [|vm_compute in E; discriminate].
  exists a. split; [reflexivity|].
  exact (proj2 (accumulated_text_concat 3 GEMINI_CONFIG ex_parse (fun _ _ => RThrow []) ex_reader
                  ex_parse_no_null 0 a E)).
Defined.

(** A session whose first stream carries a candidate with parts
    [{text: "a"}, null, {text: "b"}] and then ends; the retry answers 200
    with a stream whose candidate has the part [{text: "c"}] and
    [finishReason: "STOP"]. *)
Definition ex_payload_null : json :=
  JObj [(u "candidates",
         JArr [JObj [(u "content", JObj [(u "parts", JArr [JObj [(u "text", JStr (u "a"))]; JNull;
                                                          JObj [(u "text", JStr (u "b"))]])])]])].

Definition ex_payload_stop : json :=
  JObj [(u "candidates",
         JArr [JObj [(u "content", JObj [(u "parts", JArr [JObj [(u "text", JStr (u "c"))]])]);
                     (u "finishReason", JStr (u "STOP"))]])].

Definition ex_parse_null (s : list Z) : option json :=
  if jstr_eqb s (u "1") then Some ex_payload_null else Some ex_payload_stop.

Definition ex_reader_null : feed := {| chunks := [u "data: 1" ++ [10; 10]]; fails := false |}.

Definition ex_retry_stop (n : Z) (acc : list Z) : retry_response :=
  RResponse 200 true [] {| chunks := [u "data: 2" ++ [10; 10]]; fails := false |}.

(** C8 (the code at the failing input): [part.text] throws a TypeError on
    the [null] part, the attempt is interrupted with [FETCH_ERROR] before
    the part ["b"] is read, and after the successful retry
    [accumulatedText] is "ac", while the text parts of the candidate events
    of both attempts are "a", "b" and "c". *)
Lemma accumulated_text_null_part :
  let s := process 3 GEMINI_CONFIG ex_parse_null ex_retry_stop 0 0 [] ex_reader_null in
  s_finished s = true /\
  map att_end (s_logs s) = [AInterrupt FETCH_ERROR; AClose] /\
  option_map (fun a => accumulatedText (att_state a)) (nth_error (s_logs s) 1) = Some (u "ac") /\
  concat (map (observed ex_parse_null) (s_logs s)) = u "abc".
Proof. vm_compute. repeat split. Qed.

End GeminiFacts.


Module RetryBodyFacts.
Import Json RetryBody.

Section JsonInd.
Variable P : json -> Prop.
Hypothesis Hnull : P JNull.
Hypothesis Hbool : forall b, P (JBool b).
Hypothesis Hnum : forall n, P (JNum n).
Hypothesis Hstr : forall s, P (JStr s).
Hypothesis Harr : forall l, Forall P l -> P (JArr l).
Hypothesis Hobj : forall fs, Forall (fun kv => P (snd kv)) fs -> P (JObj fs).

Fixpoint json_ind' (t : json) : P t :=
  match t with
  | JNull => Hnull
  | JBool b => Hbool b
  | JNum n => Hnum n
  | JStr s => Hstr s
  | JArr l =>
      Harr l ((fix go (l : list json) : Forall P l :=
                 match l with
                 | [] => @List.Forall_nil _ P
                 | x :: l' => @List.Forall_cons _ P x l' (json_ind' x) (go l')
                 end) l)
  | JObj fs =>
      Hobj fs ((fix go (fs : list (list Z * json)) : Forall (fun kv => P (snd kv)) fs :=
                  match fs with
                  | [] => @List.Forall_nil _ _
                  | (k, x) :: fs' =>
                      @List.Forall_cons _ (fun kv => P (snd kv)) (k, x) fs' (json_ind' x) (go fs')
                  end) fs)
  end.
End JsonInd.

(** Two heaps agree on the locations [lo <= l < hi]. *)
Definition agree (g g' : gmap nat cell) (lo hi : nat) : Prop :=
  forall l, (lo <= l < hi)%nat -> g !! l = g' !! l.

(** [v] denotes [t] in every heap that agrees with [G] on [lo..hi), and
    any cell [v] refers to is in that range. *)
Definition reads_at (G : gmap nat cell) (lo hi : nat) (v : hval) (t : json) : Prop :=
  (forall g, agree g G lo hi -> reads_in g v t) /\ (forall l, v = HRef l -> (lo <= l < hi)%nat).

(** Elements allocated one after the other in consecutive ranges. *)
Fixpoint elems_ok (G : gmap nat cell) (lo hi : nat) (vs : list hval) (ts : list json) : Prop :=
  match vs, ts with
  | [], [] => (lo <= hi)%nat
  | v :: vs', t :: ts' =>
      exists m, (lo <= m <= hi)%nat /\ reads_at G lo m v t /\ elems_ok G m hi vs' ts'
  | _, _ => False
  end.

(** A freshly allocated tree: an array is a cell at the end of its range,
    after its elements. *)
Definition tree_at (G : gmap nat cell) (lo hi : nat) (v : hval) (t : json) : Prop :=
  reads_at G lo hi v t /\
  (forall ts, t = JArr ts ->
   exists c vs, v = HRef c /\ G !! c = Some (CArr vs) /\ elems_ok G lo c vs ts).

Fixpoint fields_ok (G : gmap nat cell) (lo hi : nat) (ws : list (list Z * hval))
    (fs : list (list Z * json)) : Prop :=
  match ws, fs with
  | [], [] => (lo <= hi)%nat
  | (k, v) :: ws', (k', t) :: fs' =>
      k = k' /\ exists m, (lo <= m <= hi)%nat /\ tree_at G lo m v t /\ fields_ok G m hi ws' fs'
  | _, _ => False
  end.

Definition alloc_post (h : heap) (t : json) (v : hval) (h' : heap) : Prop :=
  (next h <= next h')%nat /\
  (forall l, (l < next h \/ next h' <= l)%nat -> cells h' !! l = cells h !! l) /\
  tree_at (cells h') (next h) (next h') v t.

Lemma agree_trans g1 g2 g3 lo hi : agree g1 g2 lo hi -> agree g2 g3 lo hi -> agree g1 g3 lo hi.
Proof. intros A B l Hl. rewrite A by exact Hl. apply B, Hl. Qed.

Lemma agree_sub g g' lo hi lo' hi' :
  agree g g' lo hi -> (lo <= lo')%nat -> (hi' <= hi)%nat -> agree g g' lo' hi'.
Proof. intros A H1 H2 l Hl. apply A. lia. Qed.

Lemma agree_sym g g' lo hi : agree g g' lo hi -> agree g' g lo hi.
Proof. intros A l Hl. symmetry. apply A, Hl. Qed.

Lemma reads_at_mono G G' lo hi v t :
  reads_at G lo hi v t -> agree G G' lo hi -> reads_at G' lo hi v t.
Proof.
  intros [R B] A. split; [|exact B].
  intros g Ag. apply R. eapply agree_trans; [exact Ag|]. now apply agree_sym.
Qed.

Lemma elems_ok_bounds G vs : forall lo hi ts, elems_ok G lo hi vs ts -> (lo <= hi)%nat.
Proof.
  induction vs as [|v vs IH]; intros lo hi [|t ts] H; simpl in H; try contradiction; [exact H|].
  destruct H as [m [Hm [_ H]]]. apply IH in H. lia.
Qed.

Lemma elems_ok_mono G G' vs : forall lo hi ts,
  elems_ok G lo hi vs ts -> agree G G' lo hi -> elems_ok G' lo hi vs ts.
Proof.
  induction vs as [|v vs IH]; intros lo hi [|t ts] H A; simpl in *; try contradiction; [exact H|].
  destruct H as [m [Hm [R H]]]. exists m. split; [exact Hm|]. split.
  - eapply reads_at_mono; [exact R|]. eapply agree_sub; [exact A|lia|lia].
  - eapply IH; [exact H|]. eapply agree_sub; [exact A|lia|lia].
Qed.

Lemma tree_at_mono G G' lo hi v t :
  tree_at G lo hi v t -> agree G G' lo hi -> tree_at G' lo hi v t.
Proof.
  intros [R Ar] A. split; [eapply reads_at_mono; eassumption|].
  intros ts Ht. destruct (Ar ts Ht) as [c [vs [Hv [Hc He]]]].
  destruct R as [_ B]. specialize (B c Hv).
  exists c, vs. split; [exact Hv|]. split.
  - rewrite <- (A c) by lia. exact Hc.
  - eapply elems_ok_mono; [exact He|]. eapply agree_sub; [exact A|lia|lia].
Qed.

Lemma fields_ok_bounds G ws : forall lo hi fs, fields_ok G lo hi ws fs -> (lo <= hi)%nat.
Proof.
  induction ws as [|[k v] ws IH]; intros lo hi [|[k' t] fs] H; simpl in H; try contradiction;
    [exact H|].
  destruct H as [_ [m [Hm [_ H]]]]. apply IH in H. lia.
Qed.

Lemma fields_ok_mono G G' ws : forall lo hi fs,
  fields_ok G lo hi ws fs -> agree G G' lo hi -> fields_ok G' lo hi ws fs.
Proof.
  induction ws as [|[k v] ws IH]; intros lo hi [|[k' t] fs] H A; simpl in *; try contradiction;
    [exact H|].
  destruct H as [Hk [m [Hm [T H]]]]. split; [exact Hk|]. exists m. split; [exact Hm|]. split.
  - eapply tree_at_mono; [exact T|]. eapply agree_sub; [exact A|lia|lia].
  - eapply IH; [exact H|]. eapply agree_sub; [exact A|lia|lia].
Qed.

Lemma read_list_ok G vs : forall lo hi ts g,
  elems_ok G lo hi vs ts -> agree g G lo hi ->
  exists F, forall f, (F <= f)%nat -> read_list (read f g) vs = Some ts.
Proof.
  induction vs as [|v vs IH]; intros lo hi [|t ts] g H A; simpl in *; try contradiction.
  - exists O. reflexivity.
  - destruct H as [m [Hm [[R _] H]]].
    destruct (R g) as [F1 H1]; [eapply agree_sub; [exact A|lia|lia]|].
    destruct (IH m hi ts g H) as [F2 H2]; [eapply agree_sub; [exact A|lia|lia]|].
    exists (F1 + F2)%nat. intros f Hf. rewrite H1, H2 by lia. reflexivity.
Qed.

Lemma read_fields_ok G ws : forall lo hi fs g,
  fields_ok G lo hi ws fs -> agree g G lo hi ->
  exists F, forall f, (F <= f)%nat -> read_fields (read f g) ws = Some fs.
Proof.
  induction ws as [|[k v] ws IH]; intros lo hi [|[k' t] fs] g H A; simpl in *; try contradiction.
  - exists O. reflexivity.
  - destruct H as [<- [m [Hm [[[R _] _] H]]]].
    destruct (R g) as [F1 H1]; [eapply agree_sub; [exact A|lia|lia]|].
    destruct (IH m hi fs g H) as [F2 H2]; [eapply agree_sub; [exact A|lia|lia]|].
    exists (F1 + F2)%nat. intros f Hf. rewrite H1, H2 by lia. reflexivity.
Qed.

Lemma alloc_list_spec (al : heap -> json -> hval * heap) (l : list json) :
  Forall (fun x => forall h v h', al h x = (v, h') -> alloc_post h x v h') l ->
  forall h vs h1, alloc_list al h l = (vs, h1) ->
  (next h <= next h1)%nat /\
  (forall l, (l < next h \/ next h1 <= l)%nat -> cells h1 !! l = cells h !! l) /\
  elems_ok (cells h1) (next h) (next h1) vs l.
Proof.
  induction 1 as [|x l Hx Hl IH]; intros h vs h1 E; simpl in E.
  - injection E as <- <-. split; [lia|]. split; [reflexivity|]. simpl. lia.
  - destruct (al h x) as [v hA] eqn:Ea.
    destruct (alloc_list al hA l) as [vs' h1'] eqn:El. injection E as <- <-.
    destruct (Hx h v hA Ea) as [N1 [U1 [R1 _]]].
    destruct (IH hA vs' h1' El) as [N2 [U2 E2]].
    split; [lia|]. split.
    + intros l' Hl'. rewrite U2 by lia. apply U1. lia.
    + simpl. exists (next hA). split; [lia|]. split; [|exact E2].
      eapply reads_at_mono; [exact R1|]. intros l' Hl'. symmetry. apply U2. lia.
Qed.

Lemma alloc_fields_spec (al : heap -> json -> hval * heap) (fs : list (list Z * json)) :
  Forall (fun kv => forall h v h', al h (snd kv) = (v, h') -> alloc_post h (snd kv) v h') fs ->
  forall h ws h1, alloc_fields al h fs = (ws, h1) ->
  (next h <= next h1)%nat /\
  (forall l, (l < next h \/ next h1 <= l)%nat -> cells h1 !! l = cells h !! l) /\
  fields_ok (cells h1) (next h) (next h1) ws fs.
Proof.
  induction 1 as [|[k x] fs Hx Hl IH]; intros h ws h1 E; simpl in E.
  - injection E as <- <-. split; [lia|]. split; [reflexivity|]. simpl. lia.
  - simpl in Hx. destruct (al h x) as [v hA] eqn:Ea.
    destruct (alloc_fields al hA fs) as [ws' h1'] eqn:El. injection E as <- <-.
    destruct (Hx h v hA Ea) as [N1 [U1 T1]].
    destruct (IH hA ws' h1' El) as [N2 [U2 E2]].
    split; [lia|]. split.
    + intros l' Hl'. rewrite U2 by lia. apply U1. lia.
    + simpl. split; [reflexivity|]. exists (next hA). split; [lia|]. split; [|exact E2].
      eapply tree_at_mono; [exact T1|]. intros l' Hl'. symmetry. apply U2. lia.
Qed.

Lemma prim_post (h : heap) (v : hval) (t : json) :
  (forall g f, read f g v = Some t) -> (forall l, v <> HRef l) -> (forall ts, t <> JArr ts) ->
  alloc_post h t v h.
Proof.
  intros R N A. split; [lia|]. split; [reflexivity|]. split; [split|].
  - intros g _. exists O. intros f _. apply R.
  - intros l E. exfalso. exact (N l E).
  - intros ts E. exfalso. exact (A ts E).
Qed.

Lemma alloc_spec (t : json) : forall h v h', alloc h t = (v, h') -> alloc_post h t v h'.
Proof.
  revert t. apply (json_ind' (fun t => forall h v h', alloc h t = (v, h') -> alloc_post h t v h'));
    [ intros h v h' E | intros b h v h' E | intros n h v h' E | intros s h v h' E
    | intros l IH h v h' E | intros fs IH h v h' E ]; simpl in E;
    try (injection E as <- <-; apply prim_post; [intros ? [|]; reflexivity|intros ? ?; discriminate|intros ? ?; discriminate]).
  - destruct (alloc_list alloc h l) as [vs h1] eqn:El.
    destruct (alloc_list_spec alloc l IH h vs h1 El) as [N [U Ev]].
    unfold alloc_cell in E. injection E as <- <-. unfold alloc_post; simpl.
    split; [lia|]. split.
    + intros l' Hl'. rewrite lookup_insert_ne by lia. apply U. lia.
    + assert (Ag : agree (<[next h1 := CArr vs]> (cells h1)) (cells h1) (next h) (next h1)).
      { intros l' Hl'. apply lookup_insert_ne. lia. }
      split; [split|].
      * intros g Ag'. destruct (read_list_ok _ _ _ _ _ g Ev) as [F HF].
        { eapply agree_trans; [|exact Ag]. eapply agree_sub; [exact Ag'|lia|lia]. }
        exists (S F). intros [|f] Hf; [lia|]. simpl.
        rewrite (Ag' (next h1)) by lia. rewrite lookup_insert_eq. simpl.
        rewrite HF by lia. reflexivity.
      * intros l' E. injection E as <-. lia.
      * intros ts E. injection E as <-. exists (next h1), vs.
        split; [reflexivity|]. split; [apply lookup_insert_eq|].
        eapply elems_ok_mono; [exact Ev|]. now apply agree_sym.
  - destruct (alloc_fields alloc h fs) as [ws h1] eqn:El.
    destruct (alloc_fields_spec alloc fs IH h ws h1 El) as [N [U Ef]].
    unfold alloc_cell in E. injection E as <- <-. unfold alloc_post; simpl.
    split; [lia|]. split.
    + intros l' Hl'. rewrite lookup_insert_ne by lia. apply U. lia.
    + assert (Ag : agree (<[next h1 := CObj ws]> (cells h1)) (cells h1) (next h) (next h1)).
      { intros l' Hl'. apply lookup_insert_ne. lia. }
      split; [split|].
      * intros g Ag'. destruct (read_fields_ok _ _ _ _ _ g Ef) as [F HF].
        { eapply agree_trans; [|exact Ag]. eapply agree_sub; [exact Ag'|lia|lia]. }
        exists (S F). intros [|f] Hf; [lia|]. simpl.
        rewrite (Ag' (next h1)) by lia. rewrite lookup_insert_eq. simpl.
        rewrite HF by lia. reflexivity.
      * intros l' E. injection E as <-. lia.
      * intros ts E. discriminate.
Qed.

(** ** Reading back *)

Lemma read_prim_str (f : nat) (g : gmap nat cell) (w : hval) (t : json) (x : list Z) :
  read f g w = Some t ->
  hstrict_str x (Some w) = match t with JStr s => jstr_eqb s x | _ => false end.
Proof.
  destruct w as [| | |s|l]; destruct f as [|f]; simpl; intros H; try discriminate;
    try (injection H as <-; reflexivity).
  destruct (g !! l) as [[ws|vs]|]; simpl in H; try discriminate.
  - destruct (read_fields _ ws); simpl in H; [injection H as <-; reflexivity|discriminate].
  - destruct (read_list _ vs); simpl in H; [injection H as <-; reflexivity|discriminate].
Qed.

Lemma htruthy_read (f : nat) (g : gmap nat cell) (w : hval) (t : json) :
  read f g w = Some t -> htruthy (Some w) = truthy (Some t).
Proof.
  destruct w as [| | |s|l]; destruct f as [|f]; simpl; intros H; try discriminate;
    try (injection H as <-; reflexivity).
  destruct (g !! l) as [[ws|vs]|]; simpl in H; try discriminate.
  - destruct (read_fields _ ws); simpl in H; [injection H as <-; reflexivity|discriminate].
  - destruct (read_list _ vs); simpl in H; [injection H as <-; reflexivity|discriminate].
Qed.

Lemma read_fields_lookup (rd : hval -> option json) (k : list Z) (ws : list (list Z * hval)) :
  forall fs, read_fields rd ws = Some fs ->
  match lookup_field k ws with
  | Some w => exists t, assoc k fs = Some t /\ rd w = Some t
  | None => assoc k fs = None
  end.
Proof.
  induction ws as [|[k1 v1] ws IH]; intros fs H; simpl in H.
  - injection H as <-. reflexivity.
  - destruct (rd v1) as [t1|] eqn:E1; [|discriminate].
    destruct (read_fields rd ws) as [ts|] eqn:E2; [|discriminate].
    injection H as <-. simpl. destruct (jstr_eqb k1 k).
    + exists t1. split; [reflexivity|exact E1].
    + now apply IH.
Qed.

Lemma fields_ok_lookup (G : gmap nat cell) (k : list Z) (ws : list (list Z * hval)) :
  forall lo hi fs, fields_ok G lo hi ws fs ->
  match lookup_field k ws with
  | Some w => exists t lo' hi', assoc k fs = Some t /\ tree_at G lo' hi' w t /\
                               (lo <= lo')%nat /\ (hi' <= hi)%nat
  | None => assoc k fs = None
  end.
Proof.
  induction ws as [|[k1 v1] ws IH]; intros lo hi [|[k2 t2] fs] H; simpl in H; try contradiction.
  - reflexivity.
  - destruct H as [<- [m [Hm [T H]]]]. simpl. destruct (jstr_eqb k1 k).
    + exists t2, lo, m. split; [reflexivity|]. split; [exact T|lia].
    + specialize (IH m hi fs H). destruct (lookup_field k ws); [|exact IH].
      destruct IH as [t [lo' [hi' [A [T' B]]]]]. exists t, lo', hi'.
      split; [exact A|]. split; [exact T'|lia].
Qed.

Lemma fields_ok_lookup_range (G : gmap nat cell) (k : list Z) (ws : list (list Z * hval))
    lo hi fs c :
  fields_ok G lo hi ws fs -> lookup_field k ws = Some (HRef c) -> (lo <= c < hi)%nat.
Proof.
  intros H E. pose proof (fields_ok_lookup G k ws lo hi fs H) as L. rewrite E in L.
  destruct L as [t [lo' [hi' [_ [[[_ B] _] R]]]]]. specialize (B c eq_refl). lia.
Qed.

Lemma tree_at_read (G : gmap nat cell) lo hi v t :
  tree_at G lo hi v t -> exists f, read f G v = Some t.
Proof.
  intros [[R _] _]. destruct (R G) as [F HF]; [intros l _; reflexivity|].
  exists F. apply HF. lia.
Qed.

Lemma role_user (f : nat) (G : gmap nat cell) (v : hval) (t : json) :
  read f G v = Some t -> t <> JNull ->
  v <> HNull /\ hstrict_str (u "user") (heap_get G v (u "role")) = is_user t.
Proof.
  intros H N. destruct v as [| | |s|l].
  - destruct f; simpl in H; injection H as <-; contradiction.
  - split; [discriminate|]. destruct f; simpl in H; injection H as <-; reflexivity.
  - split; [discriminate|]. destruct f; simpl in H; injection H as <-; reflexivity.
  - split; [discriminate|]. destruct f; simpl in H; injection H as <-; reflexivity.
  - split; [discriminate|]. destruct f as [|f]; simpl in H; [discriminate|].
    unfold heap_get. destruct (G !! l) as [[ws|vs]|]; simpl in H; try discriminate.
    + destruct (read_fields (read f G) ws) as [fs|] eqn:E; simpl in H; [|discriminate].
      injection H as <-. unfold is_user, get.
      pose proof (read_fields_lookup (read f G) (u "role") ws fs E) as L.
      destruct (lookup_field (u "role") ws) as [w|].
      * destruct L as [t' [A R]]. rewrite A, (read_prim_str f G w t' (u "user") R).
        destruct t'; reflexivity.
      * rewrite L. reflexivity.
    + destruct (read_list (read f G) vs); simpl in H; [injection H as <-; reflexivity|discriminate].
Qed.

Lemma roles_ok (f : nat) (G : gmap nat cell) (vs : list hval) :
  forall ts, read_list (read f G) vs = Some ts -> ~ In JNull ts ->
  exists rs, roles G vs = Some rs /\
             Forall2 (fun r t => hstrict_str (u "user") r = is_user t) rs ts.
Proof.
  induction vs as [|v vs IH]; intros ts H N; simpl in H.
  - injection H as <-. exists []. split; [reflexivity|constructor].
  - destruct (read f G v) as [t|] eqn:E1; [|discriminate].
    destruct (read_list (read f G) vs) as [ts'|] eqn:E2; [|discriminate].
    injection H as <-.
    destruct (role_user f G v t E1) as [Hv Hr]; [intros ->; apply N; left; reflexivity|].
    destruct (IH ts' eq_refl) as [rs [Hrs F]]; [intros Hin; apply N; right; exact Hin|].
    exists (heap_get G v (u "role") :: rs). split; [|constructor; assumption].
    assert (Eq : roles G (v :: vs) = option_map (cons (heap_get G v (u "role"))) (roles G vs))
      by (destruct v; [contradiction|reflexivity..]).
    rewrite Eq, Hrs. reflexivity.
Qed.

Lemma last_index_insert (hist : list json) (rs : list (option hval)) (ts : list json) :
  Forall2 (fun r t => hstrict_str (u "user") r = is_user t) rs ts ->
  match lastIndexOf (u "user") rs with
  | Some i => insert_after_last_user hist ts = Some (firstn (S i) ts ++ hist ++ skipn (S i) ts)
  | None => insert_after_last_user hist ts = None
  end.
Proof.
  induction 1 as [|r t rs ts Hrt F IH]; cbn [lastIndexOf insert_after_last_user]; [reflexivity|].
  destruct (lastIndexOf (u "user") rs) as [k|].
  - rewrite IH. reflexivity.
  - rewrite IH, Hrt. destruct (is_user t); reflexivity.
Qed.

Lemma read_list_app (rd : hval -> option json) (a b : list hval) (ta tb : list json) :
  read_list rd a = Some ta -> read_list rd b = Some tb -> read_list rd (a ++ b) = Some (ta ++ tb).
Proof.
  revert ta; induction a as [|v a IH]; intros ta Ha Hb; simpl in *.
  - injection Ha as <-. exact Hb.
  - destruct (rd v) as [t|]; [|discriminate].
    destruct (read_list rd a) as [ta'|]; [|discriminate].
    injection Ha as <-. rewrite (IH ta' eq_refl Hb). reflexivity.
Qed.

Lemma read_list_firstn_skipn (rd : hval -> option json) (n : nat) :
  forall vs ts, read_list rd vs = Some ts ->
  read_list rd (firstn n vs) = Some (firstn n ts) /\
  read_list rd (skipn n vs) = Some (skipn n ts).
Proof.
  induction n as [|n IH]; intros vs ts H; simpl; [split; [reflexivity|exact H]|].
  destruct vs as [|v vs]; simpl in H.
  - injection H as <-. split; reflexivity.
  - destruct (rd v) as [t|] eqn:E; [|discriminate].
    destruct (read_list rd vs) as [ts'|] eqn:E'; [|discriminate].
    injection H as <-. destruct (IH vs ts' E') as [H1 H2]. simpl.
    rewrite E, H1. split; [reflexivity|exact H2].
Qed.

(** The properties of [ws] read as [fs], except the value of the first
    [k] property. *)
Fixpoint fields_rel_except (rd : hval -> option json) (k : list Z)
    (ws : list (list Z * hval)) (fs : list (list Z * json)) : Prop :=
  match ws, fs with
  | [], [] => True
  | (k1, v1) :: ws', (k2, t2) :: fs' =>
      k1 = k2 /\
      if jstr_eqb k1 k then read_fields rd ws' = Some fs'
      else rd v1 = Some t2 /\ fields_rel_except rd k ws' fs'
  | _, _ => False
  end.

Lemma read_fields_set (rd : hval -> option json) (k : list Z) (v : hval) (t : json)
    (ws : list (list Z * hval)) :
  forall fs, rd v = Some t -> fields_rel_except rd k ws fs ->
  read_fields rd (set_field k v ws) = Some (set_field k t fs).
Proof.
  induction ws as [|[k1 v1] ws IH]; intros [|[k2 t2] fs] Hv H; simpl in H; try contradiction.
  - simpl. rewrite Hv. reflexivity.
  - destruct H as [<- H]. simpl. destruct (jstr_eqb k1 k).
    + simpl. rewrite Hv, H. reflexivity.
    + destruct H as [H1 H2]. simpl. rewrite H1, (IH fs Hv H2). reflexivity.
Qed.

Lemma set_field_same {A} (k : list Z) (v : A) (ws : list (list Z * A)) :
  lookup_field k ws = Some v -> set_field k v ws = ws.
Proof.
  induction ws as [|[k1 v1] ws IH]; simpl; intros H; [discriminate|].
  destruct (jstr_eqb k1 k).
  - injection H as ->. reflexivity.
  - rewrite IH by exact H. reflexivity.
Qed.

Lemma jstr_eqb_refl (s : list Z) : jstr_eqb s s = true.
Proof. induction s; simpl; [reflexivity|]. now rewrite Z.eqb_refl, IHs. Qed.

Lemma lookup_set_field {A} (k : list Z) (v : A) (ws : list (list Z * A)) :
  lookup_field k (set_field k v ws) = Some v.
Proof.
  induction ws as [|[k1 v1] ws IH]; simpl.
  - rewrite jstr_eqb_refl. reflexivity.
  - destruct (jstr_eqb k1 k) eqn:E; simpl; rewrite E; [reflexivity|exact IH].
Qed.

Lemma fields_ok_except (G G' : gmap nat cell) (k : list Z) (c : nat) (ws : list (list Z * hval)) :
  forall lo hi fs, fields_ok G lo hi ws fs ->
  (forall l, (lo <= l < hi)%nat -> l <> c -> G' !! l = G !! l) ->
  ((c < lo \/ hi <= c)%nat \/ lookup_field k ws = Some (HRef c)) ->
  exists F, forall f, (F <= f)%nat -> fields_rel_except (read f G') k ws fs.
Proof.
  induction ws as [|[k1 v1] ws IH]; intros lo hi [|[k2 t2] fs] H A C; simpl in H; try contradiction.
  - exists O. intros. exact I.
  - destruct H as [<- [m [Hm [T H]]]]. simpl in C |- *.
    destruct (jstr_eqb k1 k) eqn:Ek.
    + assert (Cm : (c < m \/ hi <= c)%nat).
      { destruct C as [C|C]; [lia|]. injection C as ->.
        destruct T as [[_ B] _]. specialize (B c eq_refl). lia. }
      destruct (read_fields_ok G ws m hi fs G' H) as [F HF].
      { intros l Hl. apply A; lia. }
      exists F. intros f Hf. split; [reflexivity|]. apply HF; lia.
    + assert (Cl : (c < lo \/ m <= c)%nat).
      { destruct C as [C|C]; [lia|].
        pose proof (fields_ok_lookup_range G k ws m hi fs c H C). lia. }
      destruct T as [[R _] _].
      destruct (R G') as [F1 H1]; [intros l Hl; apply A; lia|].
      destruct (IH m hi fs H) as [F2 H2];
        [intros l Hl; apply A; lia|destruct C as [C|C]; [left; lia|right; exact C]|].
      exists (F1 + F2)%nat. intros f Hf. split; [reflexivity|]. split; [apply H1; lia|apply H2; lia].
Qed.

Lemma read_S_ref (f : nat) (g : gmap nat cell) (l : nat) :
  read (S f) g (HRef l) =
  match g !! l with
  | Some (CObj fs) => option_map JObj (read_fields (read f g) fs)
  | Some (CArr vs) => option_map JArr (read_list (read f g) vs)
  | None => None
  end.
Proof. reflexivity. Qed.

(** C3: for an original body that is a JSON object whose [contents] is
    absent, falsy, or an array without [null] elements, the construction
    succeeds; the new body reads as the original with [contents] (an empty
    array when it was absent or falsy) holding the model message with the
    accumulated text and the user message with the retry prompt right after
    the last element whose role is "user", or at its end when there is none;
    every cell of the original heap, the original body among them, is left
    as it was, and the new body is a fresh object. *)
Theorem retry_body_deep_copy (prompts : retry_prompts) (h : heap) (orig : hval)
    (fs : list (list Z * json)) (acc : list Z) :
  heap_wf h ->
  read (S (next h)) (cells h) orig = Some (JObj fs) ->
  contents_ok fs ->
  exists r h', buildRetryRequestBody prompts h orig acc = Some (r, h') /\
    (forall l c, cells h !! l = Some c -> cells h' !! l = Some c) /\
    (forall l, r = HRef l -> (next h <= l)%nat) /\
    reads_in (cells h') r (spec_retry_body fs acc (retry_prompt prompts (Lang.detectLanguage acc))).
Proof.
  intros Hwf Hread Hok.
  unfold buildRetryRequestBody. rewrite Hread.
  assert (Ea : alloc h (JObj fs) =
    let '(ws, h1) := alloc_fields alloc h fs in alloc_cell h1 (CObj ws)) by reflexivity.
  destruct (alloc_fields alloc h fs) as [ws h0] eqn:Ef.
  assert (Hal : Forall (fun kv => forall h v h', alloc h (snd kv) = (v, h') ->
                                  alloc_post h (snd kv) v h') fs)
    by (apply List.Forall_forall; intros kv _; apply alloc_spec).
  destruct (alloc_fields_spec alloc fs Hal h ws h0 Ef) as [N0 [U0 Fk]]. clear Hal.
  unfold alloc_cell in Ea. rewrite Ea. clear Ea.
  cbn [cells next].
  set (r := next h0) in *. set (G0 := cells h0) in *.
  set (P := retry_prompt prompts (Lang.detectLanguage acc)).
  set (hist := history acc P).
  unfold heap_get at 1. rewrite !lookup_insert_eq.
  assert (Hcase : (htruthy (lookup_field (u "contents") ws) = false /\ spec_contents fs = []) \/
    exists (c : nat) (vs : list hval) (l : list json) (lo' : nat),
      lookup_field (u "contents") ws = Some (HRef c) /\ G0 !! c = Some (CArr vs) /\
      elems_ok G0 lo' c vs l /\ (next h <= lo')%nat /\ (c < r)%nat /\ spec_contents fs = l /\
      ~ In JNull l).
  { pose proof (fields_ok_lookup G0 (u "contents") ws _ _ fs Fk) as L.
    unfold contents_ok in Hok. unfold spec_contents.
    destruct (lookup_field (u "contents") ws) as [w|].
    - destruct L as [t [lo' [hi' [A [T [B1 B2]]]]]]. rewrite A in Hok |- *.
      destruct Hok as [Hf | [l [-> Hn]]].
      + left. destruct (tree_at_read _ _ _ _ _ T) as [f Rf].
        rewrite (htruthy_read _ _ _ _ Rf). split; [exact Hf|].
        destruct t; try reflexivity; discriminate Hf.
      + right. destruct T as [[_ B] Ar]. destruct (Ar l eq_refl) as [c [vs [-> [Hc He]]]].
        specialize (B c eq_refl). exists c, vs, l, lo'.
        split; [reflexivity|]. split; [exact Hc|]. split; [exact He|].
        split; [lia|]. split; [lia|]. split; [reflexivity|exact Hn].
    - left. rewrite L. split; reflexivity. }
  destruct Hcase as [[Hf Hs] | (c & vs & l & lo' & Hl & Hcv & He & Hlo & Hc & Hs & Hn)].
  - rewrite Hf. unfold alloc_cell, update_cell. cbv beta iota zeta. cbn [cells next].
    set (ws2 := set_field (u "contents") (HRef (S r)) ws).
    set (G2 := <[r:=CObj ws2]> (<[S r:=CArr []]> (<[r:=CObj ws]> G0))).
    assert (HG2a : heap_get G2 (HRef r) (u "contents") = Some (HRef (S r)))
      by (unfold heap_get, G2; rewrite lookup_insert_eq; apply lookup_set_field).
    assert (HG2b : G2 !! S r = Some (CArr [])).
    { unfold G2. rewrite lookup_insert_ne by lia. apply lookup_insert_eq. }
    assert (HG2c : forall l, l <> r -> l <> S r -> G2 !! l = G0 !! l).
    { intros l A B. unfold G2. rewrite !lookup_insert_ne by congruence. reflexivity. }
    rewrite HG2a, HG2b. cbn [roles].
    destruct (alloc_list alloc {| cells := G2; next := S (S r) |} hist) as [hs h3] eqn:El.
    assert (Hal2 : Forall (fun x => forall h v h', alloc h x = (v, h') -> alloc_post h x v h') hist)
      by (apply List.Forall_forall; intros x _; apply alloc_spec).
    destruct (alloc_list_spec alloc hist Hal2 _ hs h3 El) as [N3 [U3 E3]].
    cbn [cells next] in N3, U3, E3. clear Hal2.
    assert (H3 : cells h3 !! S r = Some (CArr [])) by (rewrite U3 by lia; exact HG2b).
    rewrite H3. cbn [lastIndexOf].
    eexists _, _. split; [reflexivity|]. cbn [cells next].
    set (G' := <[S r:=CArr ([] ++ hs)]> (cells h3)).
    assert (HG' : forall l, l <> S r -> (l < S (S r))%nat -> G' !! l = G2 !! l).
    { intros l A B. unfold G'. rewrite lookup_insert_ne by congruence. apply U3. lia. }
    split; [|split].
    + intros l c Hl. pose proof (Hwf l c Hl).
      rewrite HG', HG2c, U0 by lia. exact Hl.
    + intros l E. injection E as <-. exact N0.
    + unfold spec_retry_body. rewrite Hs. fold hist. cbn [insert_after_last_user].
      destruct (fields_ok_except G0 G' (u "contents") (S r) ws (next h) r fs Fk) as [F1 HF1].
      { intros l A B. rewrite HG', HG2c by lia. reflexivity. }
      { left. right. lia. }
      destruct (read_list_ok (cells h3) hs (S (S r)) (next h3) hist G' E3) as [F2 HF2].
      { intros l A. unfold G'. rewrite lookup_insert_ne by lia. reflexivity. }
      exists (S (S (F1 + F2))). intros f Hfu.
      destruct f as [|[|f]]; [lia|lia|].
      rewrite read_S_ref, HG' by lia. unfold G2 at 1. rewrite lookup_insert_eq.
      cbn [option_map]. unfold ws2.
      rewrite (read_fields_set (read (S f) G') (u "contents") (HRef (S r)) (JArr ([] ++ hist)) ws fs).
      * reflexivity.
      * rewrite read_S_ref. unfold G' at 1. rewrite lookup_insert_eq. cbn [app]. rewrite (HF2 f) by lia.
        reflexivity.
      * apply HF1. lia.
  - rewrite Hl. cbn [htruthy]. cbv beta iota zeta. cbn [cells next].
    set (G1 := <[r:=CObj ws]> G0).
    assert (HG1 : forall l, l <> r -> G1 !! l = G0 !! l).
    { intros l0 A. unfold G1. rewrite lookup_insert_ne by congruence. reflexivity. }
    assert (HG1a : heap_get G1 (HRef r) (u "contents") = Some (HRef c))
      by (unfold heap_get, G1; rewrite lookup_insert_eq; exact Hl).
    rewrite HG1a, HG1, Hcv by lia.
    destruct (read_list_ok G0 vs lo' c l G1 He) as [F0 HF0].
    { intros l0 A. apply HG1. lia. }
    destruct (roles_ok F0 G1 vs l (HF0 F0 (le_n _)) Hn) as [rs [Hrs Fr]].
    rewrite Hrs.
    pose proof (last_index_insert hist rs l Fr) as LI.
    destruct (alloc_list alloc {| cells := G1; next := S r |} hist) as [hs h3] eqn:El.
    assert (Hal2 : Forall (fun x => forall h v h', alloc h x = (v, h') -> alloc_post h x v h') hist)
      by (apply List.Forall_forall; intros x _; apply alloc_spec).
    destruct (alloc_list_spec alloc hist Hal2 _ hs h3 El) as [N3 [U3 E3]].
    cbn [cells next] in N3, U3, E3. clear Hal2.
    assert (H3 : cells h3 !! c = Some (CArr vs)).
    { rewrite U3 by lia. rewrite HG1 by lia. exact Hcv. }
    rewrite H3.
    eexists _, _. split; [reflexivity|]. unfold update_cell. cbn [cells next].
    set (elems' := match lastIndexOf (u "user") rs with
                   | Some i => take (S i) vs ++ hs ++ drop (S i) vs
                   | None => vs ++ hs end).
    set (G' := <[c:=CArr elems']> (cells h3)).
    assert (HG' : forall l, l <> c -> (l < S r)%nat -> G' !! l = G1 !! l).
    { intros l0 A B. unfold G'. rewrite lookup_insert_ne by congruence. apply U3. lia. }
    split; [|split].
    + intros l0 c0 Hl0. pose proof (Hwf l0 c0 Hl0). pose proof (elems_ok_bounds _ _ _ _ _ He).
      rewrite HG', HG1, U0 by lia. exact Hl0.
    + intros l0 E. injection E as <-. exact N0.
    + unfold spec_retry_body. rewrite Hs. fold hist.
      destruct (fields_ok_except G0 G' (u "contents") c ws (next h) r fs Fk) as [F1 HF1].
      { intros l0 A B. rewrite HG', HG1 by lia. reflexivity. }
      { right. exact Hl. }
      destruct (read_list_ok G0 vs lo' c l G') as [F2 HF2]; [exact He| |].
      { intros l0 A. rewrite HG', HG1 by lia. reflexivity. }
      destruct (read_list_ok (cells h3) hs (S r) (next h3) hist G' E3) as [F3 HF3].
      { intros l0 A. unfold G'. rewrite lookup_insert_ne by lia. reflexivity. }
      exists (S (S (F1 + F2 + F3))). intros f Hfu.
      destruct f as [|[|f]]; [lia|lia|].
      rewrite read_S_ref, HG' by lia. unfold G1 at 1. rewrite lookup_insert_eq.
      cbn [option_map].
      assert (Hws : ws = set_field (u "contents") (HRef c) ws)
        by (symmetry; apply set_field_same; exact Hl).
      rewrite Hws.
      rewrite (read_fields_set (read (S f) G') (u "contents") (HRef c)
                 (JArr (match insert_after_last_user hist l with
                        | Some r0 => r0 | None => l ++ hist end)) ws fs).
      * reflexivity.
      * rewrite read_S_ref. unfold G' at 1. rewrite lookup_insert_eq. cbn [option_map].
        unfold elems'. destruct (lastIndexOf (u "user") rs) as [i|]; rewrite LI.
        -- destruct (read_list_firstn_skipn (read f G') (S i) vs l (HF2 f ltac:(lia))) as [A B].
           rewrite (read_list_app _ _ _ _ _ A (read_list_app _ _ _ _ _ (HF3 f ltac:(lia)) B)).
           reflexivity.
        -- rewrite (read_list_app _ _ _ _ _ (HF2 f ltac:(lia)) (HF3 f ltac:(lia))). reflexivity.
      * apply HF1. lia.
Qed.

Definition ex_prompts : retry_prompts :=
  {| prompt_table := [(u "en", u "Please continue.")]; default_prompt := u "Continue." |}.
Definition ex_heap : heap :=
  {| cells := <[2%nat := CObj [(u "role", HStr (u "user"))]]>
                (<[1%nat := CArr [HRef 2]]>
                  (<[0%nat := CObj [(u "contents", HRef 1)]]> ∅));
     next := 3 |}.
Definition ex_fields : list (list Z * json) :=
  [(u "contents", JArr [JObj [(u "role", JStr (u "user"))]])].

Lemma ex_heap_wf : heap_wf ex_heap.
Proof.
  intros l c H. unfold ex_heap in *. cbn [cells next] in *.
  repeat (rewrite lookup_insert_Some in H; destruct H as [[<- _]|[_ H]]; [lia|]).
  rewrite lookup_empty in H. discriminate.
Qed.

Lemma retry_body_deep_copy_witness :
  heap_wf ex_heap /\ read (S (next ex_heap)) (cells ex_heap) (HRef 0) = Some (JObj ex_fields) /\
  contents_ok ex_fields /\
  exists r h', buildRetryRequestBody ex_prompts ex_heap (HRef 0) (u "hi") = Some (r, h') /\
    (forall l c, cells ex_heap !! l = Some c -> cells h' !! l = Some c) /\
    (forall l, r = HRef l -> (next ex_heap <= l)%nat) /\
    reads_in (cells h') r (spec_retry_body ex_fields (u "hi")
                             (retry_prompt ex_prompts (Lang.detectLanguage (u "hi")))).
Proof.
  assert (W : heap_wf ex_heap) by exact ex_heap_wf.
  assert (R : read (S (next ex_heap)) (cells ex_heap) (HRef 0) = Some (JObj ex_fields))
    by reflexivity.
  assert (C : contents_ok ex_fields).
  { unfold contents_ok. vm_compute. right. eexists. split; [reflexivity|].
    intros [E|E]; [discriminate|exact E]. }
  split; [exact W|]. split; [exact R|]. split; [exact C|].
  exact (retry_body_deep_copy ex_prompts ex_heap (HRef 0) ex_fields (u "hi") W R C).
Defined.

Definition ex_heap_false : heap :=
  {| cells := <[0%nat := CObj [(u "contents", HBool false)]]> ∅; next := 1 |}.

(** The body built for [ex_heap]: the user message, then the two new
    messages; the original body still reads as before. *)
Example retry_body_example :
  match buildRetryRequestBody ex_prompts ex_heap (HRef 0) (u "hi") with
  | Some (r, h') => (read 10 (cells h') r, read 10 (cells h') (HRef 0))
  | None => (None, None)
  end =
  (Some (JObj [(u "contents",
                JArr (JObj [(u "role", JStr (u "user"))]
                      :: history (u "hi") (u "Please continue.")))]),
   Some (JObj ex_fields)).
Proof. vm_compute. reflexivity. Qed.

(** C3 (counterexample): a JSON object body whose [contents] is [false].
    Nothing of it can hold the two messages: the guard
    [if (!retryBody.contents) retryBody.contents = []] replaces the value by
    a new array, so the built body's [contents] is the two messages alone,
    not the original [contents] with two messages inserted. *)
Lemma retry_body_replaces_falsy_contents :
  read (S (next ex_heap_false)) (cells ex_heap_false) (HRef 0) =
    Some (JObj [(u "contents", JBool false)]) /\
  match buildRetryRequestBody ex_prompts ex_heap_false (HRef 0) (u "hi") with
  | Some (r, h') => read 10 (cells h') r
  | None => None
  end = Some (JObj [(u "contents", JArr (history (u "hi") (u "Please continue.")))]).
Proof. split; vm_compute; reflexivity. Qed.

End RetryBodyFacts.

Module WsReaderFacts.
Import WsFrame WsReader WsFrameFacts.

Lemma ensure_spec (n : nat) : forall rs buf b buf' rs',
  ensureBuffer n buf rs = (b, buf', rs') ->
  buf' ++ concat rs' = buf ++ concat rs /\
  b = (n <=? length (buf ++ concat rs))%nat /\
  (b = true -> (n <= length buf')%nat).
Proof.
  induction rs as [|v rs IH]; intros buf b buf' rs' E; simpl in E.
  - rewrite app_nil_r.
    destruct (Nat.ltb_spec (length buf) n); injection E as <- <- <-;
      rewrite ?app_nil_r; (split; [reflexivity|split]).
    + symmetry. apply Nat.leb_gt. lia.
    + discriminate.
    + symmetry. apply Nat.leb_le. lia.
    + intros _. lia.
  - destruct (Nat.ltb_spec (length buf) n).
    + destruct (IH _ _ _ _ E) as (E1 & E2 & E3).
      rewrite <- app_assoc in E1, E2. simpl. repeat split; assumption.
    + injection E as <- <- <-. repeat split; try reflexivity.
      * symmetry. apply Nat.leb_le. rewrite length_app. lia.
      * intros _. lia.
Qed.

Lemma ensure_nil (n : nat) (T : list Z) :
  ensureBuffer n T [] = ((n <=? length T)%nat, T, []).
Proof.
  simpl. destruct (Nat.ltb_spec (length T) n), (Nat.leb_spec n (length T));
    reflexivity || lia.
Qed.

Lemma pref_nth (buf x T : list Z) (i : nat) (d : Z) :
  buf ++ x = T -> (i < length buf)%nat -> nth i buf d = nth i T d.
Proof. intros <- Hi. rewrite app_nth1 by exact Hi. reflexivity. Qed.

Lemma pref_firstn_skipn (buf x T : list Z) (o k : nat) :
  buf ++ x = T -> (o + k <= length buf)%nat ->
  firstn k (skipn o buf) = firstn k (skipn o T).
Proof.
  intros <- Hk. rewrite skipn_app, firstn_app, length_skipn.
  replace (k - (length buf - o))%nat with O by lia. simpl. rewrite app_nil_r.
  reflexivity.
Qed.

Lemma pref_skipn (buf x T : list Z) (m : nat) :
  buf ++ x = T -> (m <= length buf)%nat -> skipn m buf ++ x = skipn m T.
Proof.
  intros <- Hm. rewrite skipn_app. replace (m - length buf)%nat with O by lia.
  reflexivity.
Qed.

Definition raw_equiv (r1 r2 : raw_frame) : Prop :=
  match r1, r2 with
  | RNull b1 r1, RNull b2 r2 => b1 ++ concat r1 = b2 ++ concat r2
  | RThrow b1 r1 m1, RThrow b2 r2 m2 => m1 = m2 /\ b1 ++ concat r1 = b2 ++ concat r2
  | RFrame b1 r1 f1 o1 p1, RFrame b2 r2 f2 o2 p2 =>
      b1 ++ concat r1 = b2 ++ concat r2 /\ f1 = f2 /\ o1 = o2 /\ p1 = p2
  | _, _ => False
  end.

Lemma read_payload_split mask offset plen fin opcode (buf : list Z) (rs : reads) :
  raw_equiv (read_payload mask offset plen fin opcode buf rs)
            (read_payload mask offset plen fin opcode (buf ++ concat rs) []).
Proof.
  set (T := buf ++ concat rs). unfold read_payload.
  destruct (ensureBuffer (offset + plen) buf rs) as [[b1 buf1] rs1] eqn:E1.
  destruct (ensure_spec _ _ _ _ _ _ E1) as (T1 & B1 & L1). fold T in T1, B1.
  rewrite ensure_nil, <- B1.
  destruct b1; simpl; rewrite ?app_nil_r; [|exact T1].
  specialize (L1 eq_refl).
  rewrite (pref_firstn_skipn _ _ _ _ _ T1), (pref_skipn _ _ _ _ T1) by lia.
  repeat split; reflexivity.
Qed.

Lemma read_mask_split isMasked payloadLen offset fin opcode (buf : list Z) (rs : reads) :
  (offset <= length buf)%nat ->
  raw_equiv (read_mask isMasked payloadLen offset fin opcode buf rs)
            (read_mask isMasked payloadLen offset fin opcode (buf ++ concat rs) []).
Proof.
  intros Ho. set (T := buf ++ concat rs). unfold read_mask.
  destruct (negb (isMasked =? 0)); [|apply read_payload_split].
  destruct (ensureBuffer (offset + 4) buf rs) as [[b1 buf1] rs1] eqn:E1.
  destruct (ensure_spec _ _ _ _ _ _ E1) as (T1 & B1 & L1). fold T in T1, B1.
  rewrite ensure_nil, <- B1.
  destruct b1; [|simpl; rewrite app_nil_r; exact T1].
  specialize (L1 eq_refl).
  rewrite (pref_firstn_skipn _ _ _ _ _ T1) by lia.
  pose proof (read_payload_split (Some (firstn 4 (skipn offset T))) (offset + 4)
    (Z.to_nat payloadLen) fin opcode buf1 rs1) as H. rewrite T1 in H. exact H.
Qed.

Lemma read_frame_split (buf : list Z) (rs : reads) :
  raw_equiv (read_frame buf rs) (read_frame (buf ++ concat rs) []).
Proof.
  set (T := buf ++ concat rs).
  unfold read_frame.
  destruct (ensureBuffer 2 buf rs) as [[b1 buf1] rs1] eqn:E1.
  destruct (ensure_spec _ _ _ _ _ _ E1) as (T1 & B1 & L1). fold T in T1, B1.
  rewrite ensure_nil, <- B1.
  destruct b1; [|simpl; rewrite app_nil_r; exact T1].
  specialize (L1 eq_refl).
  rewrite !(pref_nth _ _ _ _ _ T1) by lia.
  destruct (Z.land (nth 1 T 0) 127 =? 126); [|destruct (Z.land (nth 1 T 0) 127 =? 127)].
  - destruct (ensureBuffer (2 + 2) buf1 rs1) as [[b2 buf2] rs2] eqn:E2.
    destruct (ensure_spec _ _ _ _ _ _ E2) as (T2 & B2 & L2).
    rewrite T1 in T2, B2. rewrite ensure_nil, <- B2.
    destruct b2; [|simpl; rewrite app_nil_r; exact T2].
    specialize (L2 eq_refl).
    rewrite !(pref_nth _ _ _ _ _ T2) by lia.
    pose proof (read_mask_split (Z.land (Z.shiftr (nth 1 T 0) 7) 1)
      (Z.lor (Z.shiftl (nth 2 T 0) 8) (nth 3 T 0)) 4
      (Z.land (Z.shiftr (nth 0 T 0) 7) 1) (Z.land (nth 0 T 0) 15) buf2 rs2 ltac:(lia)) as H.
    rewrite T2 in H. exact H.
  - simpl. rewrite app_nil_r. split; [reflexivity | exact T1].
  - pose proof (read_mask_split (Z.land (Z.shiftr (nth 1 T 0) 7) 1)
      (Z.land (nth 1 T 0) 127) 2
      (Z.land (Z.shiftr (nth 0 T 0) 7) 1) (Z.land (nth 0 T 0) 15) buf1 rs1 ltac:(lia)) as H.
    rewrite T1 in H. exact H.
Qed.

Lemma read_payload_nil mask offset plen fin opcode (T : list Z) b r f o p :
  read_payload mask offset plen fin opcode T [] = RFrame b r f o p ->
  b ++ concat r = skipn (offset + plen) T /\ (offset + plen <= length T)%nat.
Proof.
  unfold read_payload. rewrite ensure_nil.
  destruct (Nat.leb_spec (offset + plen) (length T)); intros E; [|discriminate].
  injection E as <- <- _ _ _. simpl. rewrite app_nil_r. split; [reflexivity | lia].
Qed.

Lemma read_mask_nil isMasked payloadLen offset fin opcode (T : list Z) b r f o p :
  read_mask isMasked payloadLen offset fin opcode T [] = RFrame b r f o p ->
  exists k, (offset <= k <= length T)%nat /\ b ++ concat r = skipn k T.
Proof.
  unfold read_mask. destruct (negb (isMasked =? 0)).
  - rewrite ensure_nil. destruct (offset + 4 <=? length T)%nat; [|discriminate].
    intros E. destruct (read_payload_nil _ _ _ _ _ _ _ _ _ _ _ E) as [E1 L1].
    exists (offset + 4 + Z.to_nat payloadLen)%nat. split; [lia | exact E1].
  - intros E. destruct (read_payload_nil _ _ _ _ _ _ _ _ _ _ _ E) as [E1 L1].
    exists (offset + Z.to_nat payloadLen)%nat. split; [lia | exact E1].
Qed.

Lemma read_frame_nil (T : list Z) b r f o p :
  read_frame T [] = RFrame b r f o p ->
  exists k, (2 <= k <= length T)%nat /\ b ++ concat r = skipn k T.
Proof.
  unfold read_frame. rewrite ensure_nil.
  destruct (2 <=? length T)%nat; [|discriminate].
  destruct (Z.land (nth 1 T 0) 127 =? 126); [|destruct (Z.land (nth 1 T 0) 127 =? 127)].
  - rewrite ensure_nil. destruct (2 + 2 <=? length T)%nat; [|discriminate].
    intros E. destruct (read_mask_nil _ _ _ _ _ _ _ _ _ _ _ E) as (k & L & Ek).
    exists k. split; [lia | exact Ek].
  - discriminate.
  - intros E. destruct (read_mask_nil _ _ _ _ _ _ _ _ _ _ _ E) as (k & L & Ek).
    exists k. split; [lia | exact Ek].
Qed.

Lemma read_frame_consumes (buf : list Z) (rs : reads) b r f o p :
  read_frame buf rs = RFrame b r f o p ->
  (length (b ++ concat r) + 2 <= length (buf ++ concat rs))%nat.
Proof.
  intros E. pose proof (read_frame_split buf rs) as S. rewrite E in S.
  destruct (read_frame (buf ++ concat rs) []) as [| |b' r' f' o' p'] eqn:E';
    try contradiction.
  destruct S as (Eb & _ & _ & _).
  destruct (read_frame_nil _ _ _ _ _ _ E') as (k & L & Ek).
  rewrite Eb, Ek, length_skipn. lia.
Qed.

(** Two results of [nextFrame] that agree on the frame, the pongs written,
    the pending fragment and the bytes left unread. *)
Definition same_outcome (x y : frame_result * reader_state * reads * list (list Z))
  : Prop :=
  let '(r1, s1, rs1, p1) := x in
  let '(r2, s2, rs2, p2) := y in
  r1 = r2 /\ p1 = p2 /\ fragmented s1 = fragmented s2 /\
  buffer s1 ++ concat rs1 = buffer s2 ++ concat rs2.

Lemma same_outcome_sym x y : same_outcome x y -> same_outcome y x.
Proof.
  destruct x as [[[r1 s1] rs1] p1], y as [[[r2 s2] rs2] p2]; simpl.
  intros (? & ? & ? & ?). repeat split; congruence.
Qed.

Lemma same_outcome_trans x y z :
  same_outcome x y -> same_outcome y z -> same_outcome x z.
Proof.
  destruct x as [[[r1 s1] rs1] p1], y as [[[r2 s2] rs2] p2],
    z as [[[r3 s3] rs3] p3]; simpl.
  intros (? & ? & ? & ?) (? & ? & ? & ?). repeat split; congruence.
Qed.

Lemma aux_split (rnd : nat -> list Z) (fuel : nat) : forall st rs pongs,
  same_outcome (nextFrame_aux fuel rnd st rs pongs)
    (nextFrame_aux fuel rnd
       {| buffer := buffer st ++ concat rs; fragmented := fragmented st |} [] pongs).
Proof.
  induction fuel as [|fuel IH]; intros st rs pongs.
  - simpl. repeat split; rewrite ?app_nil_r; reflexivity.
  - cbn [nextFrame_aux buffer fragmented].
    pose proof (read_frame_split (buffer st) rs) as S.
    destruct (read_frame (buffer st) rs) as [b1 r1|b1 r1 m1|b1 r1 f1 o1 p1];
    destruct (read_frame (buffer st ++ concat rs) []) as [b2 r2|b2 r2 m2|b2 r2 f2 o2 p2];
      try contradiction.
    + simpl. repeat split; assumption.
    + destruct S as [-> Eb]. simpl. repeat split; assumption.
    + destruct S as (Eb & <- & <- & <-).
      assert (G : forall st1 st2 ps, fragmented st1 = fragmented st2 ->
        buffer st1 = b1 -> buffer st2 = b2 ->
        same_outcome (nextFrame_aux fuel rnd st1 r1 ps)
                     (nextFrame_aux fuel rnd st2 r2 ps)).
      { intros st1 st2 ps Hf H1 H2.
        eapply same_outcome_trans; [apply IH|].
        apply same_outcome_sym. eapply same_outcome_trans; [apply IH|].
        rewrite H1, H2, Hf, Eb. destruct (nextFrame_aux fuel rnd _ [] ps)
          as [[[? ?] ?] ?]. simpl. repeat split; reflexivity. }
      destruct (o1 =? 9); [apply G; reflexivity|].
      destruct (o1 =? 10); [apply G; reflexivity|].
      destruct (o1 =? 0).
      * destruct (fragmented st) as [[fp fo]|].
        -- destruct (negb (f1 =? 0)); [simpl; repeat split; assumption|].
           apply G; reflexivity.
        -- simpl. repeat split; assumption.
      * destruct (f1 =? 0); [apply G; reflexivity|].
        simpl. repeat split; assumption.
Qed.

Lemma aux_fuel_S (rnd : nat -> list Z) (fuel : nat) : forall st rs pongs,
  (length (buffer st ++ concat rs) < fuel)%nat ->
  nextFrame_aux fuel rnd st rs pongs = nextFrame_aux (S fuel) rnd st rs pongs.
Proof.
  induction fuel as [|fuel IH]; intros st rs pongs Hf; [lia|].
  cbn [nextFrame_aux].
  destruct (read_frame (buffer st) rs) as [b1 r1|b1 r1 m1|b1 r1 f1 o1 p1] eqn:E;
    try reflexivity.
  pose proof (read_frame_consumes _ _ _ _ _ _ _ E) as C.
  assert (G : forall st1 ps, buffer st1 = b1 ->
    nextFrame_aux fuel rnd st1 r1 ps = nextFrame_aux (S fuel) rnd st1 r1 ps)
    by (intros st1 ps H1; apply IH; rewrite H1; lia).
  destruct (o1 =? 9); [apply G; reflexivity|].
  destruct (o1 =? 10); [apply G; reflexivity|].
  destruct (o1 =? 0).
  - destruct (fragmented st) as [[fp fo]|]; [|reflexivity].
    destruct (negb (f1 =? 0)); [reflexivity|]. apply G; reflexivity.
  - destruct (f1 =? 0); [apply G; reflexivity|reflexivity].
Qed.

Lemma aux_fuel (rnd : nat -> list Z) (fuel : nat) st rs pongs :
  (length (buffer st ++ concat rs) < fuel)%nat ->
  nextFrame_aux fuel rnd st rs pongs = nextFrame rnd st rs pongs.
Proof.
  intros Hf. unfold nextFrame.
  remember (fuel - S (length (buffer st ++ concat rs)))%nat as d eqn:Ed.
  replace fuel with (d + S (length (buffer st ++ concat rs)))%nat by lia.
  clear Ed Hf. induction d as [|d IHd]; [reflexivity|].
  rewrite <- IHd. symmetry. apply aux_fuel_S. lia.
Qed.

Lemma nextFrame_split_gen (rnd : nat -> list Z) st rs pongs :
  same_outcome (nextFrame rnd st rs pongs)
    (nextFrame rnd {| buffer := buffer st ++ concat rs; fragmented := fragmented st |}
       [] pongs).
Proof.
  unfold nextFrame at 1. eapply same_outcome_trans; [apply aux_split|].
  unfold nextFrame. cbn [buffer concat]. rewrite app_nil_r.
  destruct (nextFrame_aux _ _ _ _ _) as [[[? ?] ?] ?]. simpl.
  repeat split; reflexivity.
Qed.


Lemma fin_op_byte (op : Z) : 0 <= op < 16 ->
  Z.land (Z.shiftr (u8 (Z.lor 128 op)) 7) 1 = 1 /\ Z.land (u8 (Z.lor 128 op)) 15 = op.
Proof.
  intros H.
  pose proof (forallb_range (fun k =>
    (Z.land (Z.shiftr (u8 (Z.lor 128 k)) 7) 1 =? 1) && (Z.land (u8 (Z.lor 128 k)) 15 =? k))
    16 op ltac:(vm_compute; reflexivity) H) as E.
  apply andb_prop in E. rewrite !Z.eqb_eq in E. exact E.
Qed.

Lemma len_byte (n : Z) : 0 <= n < 126 ->
  Z.land (Z.shiftr (u8 (Z.lor 128 n)) 7) 1 = 1 /\ Z.land (u8 (Z.lor 128 n)) 127 = n.
Proof.
  intros H.
  pose proof (forallb_range (fun k =>
    (Z.land (Z.shiftr (u8 (Z.lor 128 k)) 7) 1 =? 1) && (Z.land (u8 (Z.lor 128 k)) 127 =? k))
    126 n ltac:(vm_compute; reflexivity) H) as E.
  apply andb_prop in E. rewrite !Z.eqb_eq in E. exact E.
Qed.

(** A value stored in a Uint8Array. *)
Definition is_byte (x : Z) : Prop := 0 <= x < 256.

Lemma unmask_unit (b m : Z) : is_byte b -> u8 (Z.lxor (u8 (Z.lxor b m)) m) = b.
Proof.
  intros Hb. unfold u8. change 256 with (2 ^ 8). rewrite <- !Z.land_ones by lia.
  transitivity (Z.land b (Z.ones 8)).
  - apply Z.bits_inj'. intros i Hi.
    repeat rewrite ?Z.land_spec, ?Z.lxor_spec.
    destruct (Z.testbit b i), (Z.testbit m i), (Z.testbit (Z.ones 8) i); reflexivity.
  - rewrite Z.land_ones by lia. apply Z.mod_small. exact Hb.
Qed.

Lemma unmask_masked_gen (mask : list Z) : forall (p : list Z) (s : nat),
  Forall is_byte p ->
  map (fun '(i, b) => u8 (Z.lxor b (nth (Nat.modulo i 4) mask 0)))
    (combine (seq s (length p))
       (map (fun '(i, b) => u8 (Z.lxor b (nth (Nat.modulo i 4) mask 0)))
          (combine (seq s (length p)) p))) = p.
Proof.
  induction p as [|b p IH]; intros s Hp; [reflexivity|].
  inversion Hp as [|? ? Hb Hp']; subst. cbn [length seq combine map].
  rewrite unmask_unit by exact Hb. f_equal. apply IH. exact Hp'.
Qed.

Lemma masked_length (mask p : list Z) :
  length (map (fun '(i, b) => u8 (Z.lxor b (nth (Nat.modulo i 4) mask 0)))
    (combine (seq 0 (length p)) p)) = length p.
Proof. rewrite length_map, length_combine, length_seq. lia. Qed.

Lemma unmask_masked (mask p : list Z) : Forall is_byte p ->
  unmask mask (map (fun '(i, b) => u8 (Z.lxor b (nth (Nat.modulo i 4) mask 0)))
    (combine (seq 0 (length p)) p)) = p.
Proof. intros Hp. unfold unmask. rewrite masked_length. apply unmask_masked_gen, Hp. Qed.

Lemma skipn_pre (pre X : list Z) (k : nat) :
  skipn (length pre + k) (pre ++ X) = skipn k X.
Proof. induction pre; simpl; auto. Qed.

Lemma firstn_pre (pre X : list Z) : firstn (length pre) (pre ++ X) = pre.
Proof. induction pre; simpl; f_equal; auto. Qed.

Lemma skipn_pre0 (pre X : list Z) : skipn (length pre) (pre ++ X) = X.
Proof. induction pre; simpl; auto. Qed.

Lemma read_mask_masked (pre mask p rest : list Z) (fin op : Z) :
  length mask = 4%nat -> Forall is_byte p ->
  read_mask 1 (Z.of_nat (length p)) (length pre) fin op
    (pre ++ mask ++
       map (fun '(i, b) => u8 (Z.lxor b (nth (Nat.modulo i 4) mask 0)))
         (combine (seq 0 (length p)) p) ++ rest) []
  = RFrame rest [] fin op p.
Proof.
  intros Hm Hp. unfold read_mask. cbn [negb Z.eqb].
  set (mp := map _ (combine (seq 0 (length p)) p)).
  assert (Lmp : length mp = length p) by apply masked_length.
  rewrite ensure_nil.
  replace (length pre + 4 <=? length (pre ++ mask ++ mp ++ rest))%nat with true
    by (symmetry; apply Nat.leb_le; rewrite !length_app; lia).
  rewrite skipn_pre0, <- Hm, firstn_pre.
  unfold read_payload. rewrite ensure_nil, Nat2Z.id.
  replace (length pre + length mask + length p <=? length (pre ++ mask ++ mp ++ rest))%nat
    with true by (symmetry; apply Nat.leb_le; rewrite !length_app; lia).
  rewrite <- Nat.add_assoc, !skipn_pre, skipn_pre0, <- Lmp, firstn_pre, skipn_pre0.
  unfold mp. rewrite unmask_masked by exact Hp. reflexivity.
Qed.


Lemma read_frame_packed (op : Z) (mask payload fr rest : list Z) :
  0 <= op < 16 -> length mask = 4%nat -> Forall is_byte payload ->
  _packFrame op mask payload = Some fr ->
  read_frame (fr ++ rest) [] = RFrame rest [] 1 op payload.
Proof.
  intros Hop Hm Hp E. unfold _packFrame in E.
  set (len := Z.of_nat (length payload)) in E.
  destruct (fin_op_byte op Hop) as [F1 F2].
  destruct (Z.ltb_spec len 126); [|destruct (Z.ltb_spec len 65536)]; [| |discriminate].
  - injection E as <-. destruct (len_byte len ltac:(lia)) as [L1 L2].
    unfold read_frame. rewrite ensure_nil. cbn [app nth length].
    replace (2 <=? S (S _))%nat with true by (symmetry; apply Nat.leb_le; lia).
    rewrite F1, F2, L1, L2.
    destruct (Z.eqb_spec len 126); [lia|]. destruct (Z.eqb_spec len 127); [lia|].
    rewrite <- app_assoc.
    exact (read_mask_masked [u8 (Z.lor 128 op); u8 (Z.lor 128 len)] mask payload rest 1 op Hm Hp).
  - injection E as <-.
    unfold read_frame. rewrite ensure_nil. cbn [app nth length].
    replace (2 <=? S (S _))%nat with true by (symmetry; apply Nat.leb_le; lia).
    rewrite F1, F2. change (Z.land (Z.shiftr (u8 (Z.lor 128 126)) 7) 1) with 1.
    change (Z.land (u8 (Z.lor 128 126)) 127 =? 126) with true.
    rewrite ensure_nil. cbn [app nth length].
    replace (2 + 2 <=? S (S (S (S _))))%nat with true by (symmetry; apply Nat.leb_le; lia).
    rewrite two_byte_field by lia. rewrite <- app_assoc.
    exact (read_mask_masked [u8 (Z.lor 128 op); u8 (Z.lor 128 126);
      u8 (Z.land (Z.shiftr len 8) 255); u8 (Z.land len 255)] mask payload rest 1 op Hm Hp).
Qed.

Lemma packed_frame_decodes (rnd : nat -> list Z) (op : Z) (mask payload fr rest : list Z)
    (st : reader_state) (rs : reads) (pongs : list (list Z)) :
  1 <= op < 16 -> op <> 9 -> op <> 10 ->
  length mask = 4%nat -> Forall is_byte payload ->
  _packFrame op mask payload = Some fr ->
  buffer st ++ concat rs = fr ++ rest ->
  exists st' rs', nextFrame rnd st rs pongs = (Frame op payload, st', rs', pongs) /\
    buffer st' ++ concat rs' = rest /\ fragmented st' = None.
Proof.
  intros Hop H9 H10 Hm Hp E Et.
  pose proof (nextFrame_split_gen rnd st rs pongs) as S. rewrite Et in S.
  unfold nextFrame at 2 in S. cbn [nextFrame_aux buffer fragmented] in S.
  rewrite (read_frame_packed op mask payload fr rest ltac:(lia) Hm Hp E) in S.
  destruct (Z.eqb_spec op 9); [contradiction|].
  destruct (Z.eqb_spec op 10); [contradiction|].
  destruct (Z.eqb_spec op 0); [lia|]. cbn [Z.eqb] in S.
  destruct (nextFrame rnd st rs pongs) as [[[r s] rs'] ps].
  destruct S as (-> & -> & Hf & Hb). simpl in Hb. rewrite app_nil_r in Hb.
  exists s, rs'. repeat split; assumption.
Qed.

(** An unmasked frame with a one-byte length, as a server sends it. *)
Definition server_frame (fin : bool) (opcode : Z) (payload : list Z) : list Z :=
  [Z.lor (if fin then 128 else 0) opcode; Z.of_nat (length payload)] ++ payload.

Lemma server_first_byte (fin : bool) (op : Z) : 0 <= op < 16 ->
  Z.land (Z.shiftr (Z.lor (if fin then 128 else 0) op) 7) 1 = (if fin then 1 else 0) /\
  Z.land (Z.lor (if fin then 128 else 0) op) 15 = op.
Proof.
  intros H. destruct fin.
  - pose proof (forallb_range (fun k =>
      (Z.land (Z.shiftr (Z.lor 128 k) 7) 1 =? 1) && (Z.land (Z.lor 128 k) 15 =? k))
      16 op ltac:(vm_compute; reflexivity) H) as E.
    apply andb_prop in E. rewrite !Z.eqb_eq in E. exact E.
  - pose proof (forallb_range (fun k =>
      (Z.land (Z.shiftr (Z.lor 0 k) 7) 1 =? 0) && (Z.land (Z.lor 0 k) 15 =? k))
      16 op ltac:(vm_compute; reflexivity) H) as E.
    apply andb_prop in E. rewrite !Z.eqb_eq in E. exact E.
Qed.

Lemma server_len_byte (n : Z) : 0 <= n < 126 ->
  Z.land (Z.shiftr n 7) 1 = 0 /\ Z.land n 127 = n.
Proof.
  intros H.
  pose proof (forallb_range (fun k =>
    (Z.land (Z.shiftr k 7) 1 =? 0) && (Z.land k 127 =? k))
    126 n ltac:(vm_compute; reflexivity) H) as E.
  apply andb_prop in E. rewrite !Z.eqb_eq in E. exact E.
Qed.

Lemma read_frame_server (fin : bool) (op : Z) (p rest : list Z) :
  0 <= op < 16 -> (length p < 126)%nat ->
  read_frame (server_frame fin op p ++ rest) [] =
    RFrame rest [] (if fin then 1 else 0) op p.
Proof.
  intros Hop Hl. unfold read_frame, server_frame. rewrite ensure_nil.
  cbn [app nth length].
  replace (2 <=? S (S _))%nat with true by (symmetry; apply Nat.leb_le; lia).
  destruct (server_first_byte fin op Hop) as [F1 F2].
  destruct (server_len_byte (Z.of_nat (length p)) ltac:(lia)) as [L1 L2].
  rewrite F1, F2, L1, L2.
  destruct (Z.eqb_spec (Z.of_nat (length p)) 126); [lia|].
  destruct (Z.eqb_spec (Z.of_nat (length p)) 127); [lia|].
  unfold read_mask. cbn [negb Z.eqb]. unfold read_payload.
  rewrite ensure_nil, Nat2Z.id. cbn [length].
  replace (2 + length p <=? S (S (length (p ++ rest))))%nat with true
    by (symmetry; apply Nat.leb_le; rewrite length_app; lia).
  cbn [skipn Nat.add]. rewrite skipn_O, firstn_pre, skipn_pre0. reflexivity.
Qed.

Lemma nextFrame_step (rnd : nat -> list Z) (T rest : list Z) fr pongs f op p :
  read_frame T [] = RFrame rest [] f op p ->
  nextFrame rnd {| buffer := T; fragmented := fr |} [] pongs =
    (let st1 := {| buffer := rest; fragmented := fr |} in
     if op =? 9 then
       let pongs' :=
         match packPongFrame (rnd (length pongs)) p with
         | Some x => pongs ++ [x]
         | None => pongs
         end in
       nextFrame rnd st1 [] pongs'
     else if op =? 10 then nextFrame rnd st1 [] pongs
     else if op =? 0 then
       match fr with
       | None =>
           (FrameError (u "Received continuation frame without initiation"), st1, [], pongs)
       | Some (fp, fo) =>
           if negb (f =? 0) then
             (Frame fo (fp ++ p), {| buffer := rest; fragmented := None |}, [], pongs)
           else nextFrame rnd {| buffer := rest; fragmented := Some (fp ++ p, fo) |} [] pongs
       end
     else if f =? 0 then
       nextFrame rnd {| buffer := rest; fragmented := Some (p, op) |} [] pongs
     else (Frame op p, {| buffer := rest; fragmented := None |}, [], pongs)).
Proof.
  intros E. pose proof (read_frame_consumes _ _ _ _ _ _ _ E) as C.
  cbn [concat length] in C. rewrite !app_nil_r in C.
  unfold nextFrame at 1. cbn [nextFrame_aux buffer fragmented]. rewrite E.
  assert (G : forall fr' ps, nextFrame_aux (length (T ++ concat []))%nat rnd
      {| buffer := rest; fragmented := fr' |} [] ps =
      nextFrame rnd {| buffer := rest; fragmented := fr' |} [] ps)
    by (intros; apply aux_fuel; cbn [buffer concat]; rewrite !app_nil_r; lia).
  cbv zeta. destruct fr as [[fp fo]|]; rewrite !G; reflexivity.
Qed.

Lemma nextFrame_general (rnd : nat -> list Z) st rs pongs (T : list Z) :
  buffer st ++ concat rs = T ->
  same_outcome (nextFrame rnd st rs pongs)
    (nextFrame rnd {| buffer := T; fragmented := fragmented st |} [] pongs).
Proof. intros <-. apply nextFrame_split_gen. Qed.

(** A frame as the reader can meet it on the wire, other than one with an
    eight-byte length: besides the FIN bit and the opcode, the three RSV bits
    [w_rsv] (which the reader ignores), the length written in the seven-bit
    field or, when [w_ext], in the 16-bit extended field, an optional masking
    key, and the payload (sent masked with the key when there is one). *)
Record wire := { w_rsv : Z; w_ext : bool; w_mask : option (list Z); w_payload : list Z }.

Definition mask_payload (mask p : list Z) : list Z :=
  map (fun '(i, b) => u8 (Z.lxor b (nth (Nat.modulo i 4) mask 0)))
    (combine (seq 0 (length p)) p).

Definition wire_body (mask : option (list Z)) (p : list Z) : list Z :=
  match mask with
  | Some m => m ++ mask_payload m p
  | None => p
  end.

Definition wire_bytes (fin : bool) (opcode : Z) (w : wire) : list Z :=
  let len := Z.of_nat (length (w_payload w)) in
  let mbit := if w_mask w then 128 else 0 in
  [(if fin then 128 else 0) + 16 * w_rsv w + opcode] ++
  (if w_ext w then [mbit + 126; u8 (Z.land (Z.shiftr len 8) 255); u8 (Z.land len 255)]
   else [mbit + len]) ++
  wire_body (w_mask w) (w_payload w).

(** The fields fit: RSV in three bits, a four-byte key, bytes as payload,
    and a length that fits its field (below 126, or below 65536 for the
    extended field). *)
Definition wire_ok (w : wire) : Prop :=
  0 <= w_rsv w < 8 /\
  match w_mask w with Some m => length m = 4%nat | None => True end /\
  Forall is_byte (w_payload w) /\
  Z.of_nat (length (w_payload w)) < if w_ext w then 65536 else 126.

Lemma wire_first_byte (fin : bool) (rsv op : Z) : 0 <= rsv < 8 -> 0 <= op < 16 ->
  Z.land (Z.shiftr ((if fin then 128 else 0) + 16 * rsv + op) 7) 1 = (if fin then 1 else 0) /\
  Z.land ((if fin then 128 else 0) + 16 * rsv + op) 15 = op.
Proof.
  intros Hr Ho.
  pose proof (forallb_range (fun r => forallb (fun k =>
    (Z.land (Z.shiftr (128 + 16 * r + k) 7) 1 =? 1) && (Z.land (128 + 16 * r + k) 15 =? k) &&
    (Z.land (Z.shiftr (0 + 16 * r + k) 7) 1 =? 0) && (Z.land (0 + 16 * r + k) 15 =? k))
    (map Z.of_nat (seq 0 (Z.to_nat 16)))) 8 rsv ltac:(vm_compute; reflexivity) Hr) as E.
  pose proof (forallb_range _ 16 op E Ho) as E'. cbv beta in E'.
  rewrite !andb_true_iff, !Z.eqb_eq in E'.
  destruct fin; tauto.
Qed.

Lemma wire_second_byte (m : option (list Z)) (n : Z) : 0 <= n < 128 ->
  Z.land (Z.shiftr ((if m then 128 else 0) + n) 7) 1 = (if m then 1 else 0) /\
  Z.land ((if m then 128 else 0) + n) 127 = n.
Proof.
  intros Hn.
  pose proof (forallb_range (fun k =>
    (Z.land (Z.shiftr (128 + k) 7) 1 =? 1) && (Z.land (128 + k) 127 =? k) &&
    (Z.land (Z.shiftr (0 + k) 7) 1 =? 0) && (Z.land (0 + k) 127 =? k))
    128 n ltac:(vm_compute; reflexivity) Hn) as E.
  rewrite !andb_true_iff, !Z.eqb_eq in E.
  destruct m; tauto.
Qed.

Lemma read_mask_wire (pre : list Z) (mask : option (list Z)) (p rest : list Z) (fin op : Z) :
  match mask with Some m => length m = 4%nat | None => True end -> Forall is_byte p ->
  read_mask (if mask then 1 else 0) (Z.of_nat (length p)) (length pre) fin op
    (pre ++ wire_body mask p ++ rest) [] = RFrame rest [] fin op p.
Proof.
  intros Hm Hp. destruct mask as [m|].
  - unfold wire_body, mask_payload. rewrite <- app_assoc.
    apply read_mask_masked; assumption.
  - unfold read_mask, wire_body. cbn [negb Z.eqb]. unfold read_payload.
    rewrite ensure_nil, Nat2Z.id.
    replace (length pre + length p <=? length (pre ++ p ++ rest))%nat with true
      by (symmetry; apply Nat.leb_le; rewrite !length_app; lia).
    rewrite skipn_pre0, firstn_pre, skipn_pre, skipn_pre0. reflexivity.
Qed.

Lemma read_frame_wire (fin : bool) (op : Z) (w : wire) (rest : list Z) :
  0 <= op < 16 -> wire_ok w ->
  read_frame (wire_bytes fin op w ++ rest) [] =
    RFrame rest [] (if fin then 1 else 0) op (w_payload w).
Proof.
  intros Hop Hw. destruct w as [rsv ext mask p].
  destruct Hw as (Hr & Hm & Hp & Hl). cbn [w_rsv w_ext w_mask w_payload] in *.
  destruct (wire_first_byte fin rsv op Hr Hop) as [F1 F2].
  unfold read_frame, wire_bytes. cbn [w_rsv w_ext w_mask w_payload]. cbv zeta.
  rewrite ensure_nil.
  destruct ext; cbv iota in Hl.
  - destruct (wire_second_byte mask 126 ltac:(lia)) as [L1 L2].
    cbn [app nth length].
    replace (2 <=? S (S _))%nat with true by (symmetry; apply Nat.leb_le; lia).
    rewrite F1, F2, L1, L2. cbn [Z.eqb Pos.eqb].
    rewrite ensure_nil. cbn [app nth length].
    replace (2 + 2 <=? S (S (S (S _))))%nat with true by (symmetry; apply Nat.leb_le; lia).
    rewrite two_byte_field by lia.
    exact (read_mask_wire [(if fin then 128 else 0) + 16 * rsv + op;
      (if mask then 128 else 0) + 126;
      u8 (Z.land (Z.shiftr (Z.of_nat (length p)) 8) 255);
      u8 (Z.land (Z.of_nat (length p)) 255)] mask p rest _ op Hm Hp).
  - destruct (wire_second_byte mask (Z.of_nat (length p)) ltac:(lia))
      as [L1 L2].
    cbn [app nth length].
    replace (2 <=? S (S _))%nat with true by (symmetry; apply Nat.leb_le; lia).
    rewrite F1, F2, L1, L2.
    destruct (Z.eqb_spec (Z.of_nat (length p)) 126); [lia|].
    destruct (Z.eqb_spec (Z.of_nat (length p)) 127); [lia|].
    exact (read_mask_wire [(if fin then 128 else 0) + 16 * rsv + op;
      (if mask then 128 else 0) + Z.of_nat (length p)] mask p rest _ op Hm Hp).
Qed.

Lemma continuations (rnd : nat -> list Z) (fo : Z) (ws : list wire) :
  Forall wire_ok ws ->
  forall acc X pongs,
  nextFrame rnd {| buffer := concat (map (wire_bytes false 0) ws) ++ X;
                   fragmented := Some (acc, fo) |} [] pongs =
  nextFrame rnd {| buffer := X; fragmented := Some (acc ++ concat (map w_payload ws), fo) |}
    [] pongs.
Proof.
  induction 1 as [|w ws Hw Hws IH]; intros acc X pongs.
  - simpl. rewrite app_nil_r. reflexivity.
  - cbn [map concat]. rewrite <- app_assoc.
    rewrite (nextFrame_step rnd _ _ _ _ 0 0 (w_payload w)
      (read_frame_wire false 0 w _ ltac:(lia) Hw)).
    cbv zeta. cbn [Z.eqb negb]. rewrite IH, <- app_assoc. reflexivity.
Qed.

(** X3: a fragmented message (a non-FIN data frame, any number of non-FIN
    continuation frames, then a FIN continuation), each frame masked or
    not, with a seven-bit or a 16-bit length and any RSV bits, is returned
    by [nextFrame] as one frame with the opcode of the first fragment and
    the fragments' payloads concatenated; no fragment state is left behind,
    and the unread bytes are exactly what follows the last fragment. *)
Theorem nextFrame_reassembles (rnd : nat -> list Z) (op : Z) (w0 : wire)
    (ws : list wire) (wz : wire) (rest : list Z) (st : reader_state) (rs : reads)
    (pongs : list (list Z)) :
  1 <= op < 16 -> op <> 9 -> op <> 10 ->
  wire_ok w0 -> Forall wire_ok ws -> wire_ok wz ->
  buffer st ++ concat rs =
    wire_bytes false op w0 ++ concat (map (wire_bytes false 0) ws) ++
    wire_bytes true 0 wz ++ rest ->
  exists st' rs',
    nextFrame rnd st rs pongs =
      (Frame op (w_payload w0 ++ concat (map w_payload ws) ++ w_payload wz), st', rs', pongs) /\
    buffer st' ++ concat rs' = rest /\ fragmented st' = None.
Proof.
  intros Hop H9 H10 H0 Hws Hz Et.
  pose proof (nextFrame_general rnd st rs pongs _ Et) as S.
  rewrite (nextFrame_step rnd _ _ _ _ 0 op (w_payload w0)
    (read_frame_wire false op w0 _ ltac:(lia) H0)) in S.
  cbv zeta in S.
  destruct (Z.eqb_spec op 9); [contradiction|].
  destruct (Z.eqb_spec op 10); [contradiction|].
  destruct (Z.eqb_spec op 0); [lia|]. cbn [Z.eqb] in S.
  rewrite (continuations rnd op ws Hws) in S.
  rewrite (nextFrame_step rnd _ _ _ _ 1 0 (w_payload wz)
    (read_frame_wire true 0 wz _ ltac:(lia) Hz)) in S.
  cbv zeta in S. cbn [Z.eqb negb] in S.
  destruct (nextFrame rnd st rs pongs) as [[[r s] rs'] ps'].
  destruct S as (-> & -> & Hf & Hb). rewrite <- app_assoc in *. simpl in Hb.
  rewrite app_nil_r in Hb.
  exists s, rs'. repeat split; assumption.
Qed.

(** X4: a ping frame is answered with [packPongFrame(payload)] (masked with
    the next random mask), written after the earlier pongs, and is
    otherwise skipped: [nextFrame] returns what it returns on the bytes
    after the ping. *)
Theorem nextFrame_ping (rnd : nat -> list Z) (p rest : list Z) (st : reader_state)
    (rs : reads) (pongs : list (list Z)) :
  (length p < 126)%nat ->
  buffer st ++ concat rs = server_frame true 9 p ++ rest ->
  exists pong, packPongFrame (rnd (length pongs)) p = Some pong /\
    same_outcome (nextFrame rnd st rs pongs)
      (nextFrame rnd {| buffer := rest; fragmented := fragmented st |} []
         (pongs ++ [pong])).
Proof.
  intros Hp Et.
  pose proof (nextFrame_general rnd st rs pongs _ Et) as S.
  rewrite (nextFrame_step rnd _ _ _ _ 1 9 p (read_frame_server true 9 p _ ltac:(lia) Hp))
    in S.
  cbv zeta in S. cbn [Z.eqb] in S.
  unfold packPongFrame, _packFrame in *.
  destruct (Z.ltb_spec (Z.of_nat (length p)) 126); [|lia].
  eexists. split; [reflexivity | exact S].
Qed.

(** X5: [nextFrame] throws "127 length mode is not supported" on a frame
    whose length field is 127 (an eight-byte length), and throws "Received
    continuation frame without initiation" on a continuation frame (masked
    or not, with a seven-bit or a 16-bit length, any RSV bits) when no
    fragmented message is in progress. *)
Theorem nextFrame_protocol_errors (rnd : nat -> list Z) (st : reader_state)
    (rs : reads) (pongs : list (list Z)) :
  (forall b0 b1 rest, Z.land b1 127 = 127 ->
     buffer st ++ concat rs = b0 :: b1 :: rest ->
     exists st' rs', nextFrame rnd st rs pongs =
       (FrameError (u "127 length mode is not supported"), st', rs', pongs)) /\
  (forall fin w rest, wire_ok w -> fragmented st = None ->
     buffer st ++ concat rs = wire_bytes fin 0 w ++ rest ->
     exists st' rs', nextFrame rnd st rs pongs =
       (FrameError (u "Received continuation frame without initiation"), st', rs', pongs)).
Proof.
  split.
  - intros b0 b1 rest H127 Et.
    pose proof (nextFrame_general rnd st rs pongs _ Et) as S.
    unfold nextFrame at 2 in S. cbn [nextFrame_aux buffer fragmented] in S.
    unfold read_frame in S. rewrite ensure_nil in S. cbn [length nth Nat.leb] in S.
    rewrite H127 in S. cbn [Z.eqb] in S.
    destruct (nextFrame rnd st rs pongs) as [[[r s] rs'] ps'].
    destruct S as (-> & -> & _). eexists _, _. reflexivity.
  - intros fin w rest Hw Hf Et.
    pose proof (nextFrame_general rnd st rs pongs _ Et) as S.
    rewrite (nextFrame_step rnd _ _ _ _ _ 0 (w_payload w)
      (read_frame_wire fin 0 w _ ltac:(lia) Hw)) in S.
    cbv zeta in S. cbn [Z.eqb] in S. rewrite Hf in S.
    destruct (nextFrame rnd st rs pongs) as [[[r s] rs'] ps'].
    destruct S as (-> & -> & _). eexists _, _. reflexivity.
Qed.

Lemma read_mask_short (pl : Z) (o : nat) fin op (T : list Z) :
  (length T < o + 4 + Z.to_nat pl)%nat ->
  exists b r, read_mask 1 pl o fin op T [] = RNull b r.
Proof.
  intros H. unfold read_mask. cbn [negb Z.eqb]. rewrite ensure_nil.
  destruct (o + 4 <=? length T)%nat; [|eauto].
  unfold read_payload. rewrite ensure_nil.
  replace (o + 4 + Z.to_nat pl <=? length T)%nat with false
    by (symmetry; apply Nat.leb_gt; lia). eauto.
Qed.

Lemma read_frame_truncated (op : Z) (mask payload fr : list Z) (k : nat) :
  length mask = 4%nat -> _packFrame op mask payload = Some fr ->
  (k < length fr)%nat ->
  exists b r, read_frame (firstn k fr) [] = RNull b r.
Proof.
  intros Hm E Hk. unfold _packFrame in E.
  set (len := Z.of_nat (length payload)) in E.
  set (mp := map _ (combine (seq 0 (length payload)) payload)) in E.
  assert (Lmp : length mp = length payload) by apply masked_length.
  assert (Lk : length (firstn k fr) = k) by (rewrite length_firstn; lia).
  unfold read_frame. rewrite ensure_nil, Lk.
  destruct (Nat.leb_spec 2 k); [|eauto].
  rewrite !nth_firstn.
  destruct (Z.ltb_spec len 126); [|destruct (Z.ltb_spec len 65536)]; [| |discriminate].
  - injection E as <-. cbn [app length] in Hk. rewrite !length_app in Hk.
    destruct (len_byte len ltac:(lia)) as [L1 L2].
    replace (1 <? k)%nat with true by (symmetry; apply Nat.ltb_lt; lia).
    cbn [nth app]. rewrite L1, L2.
    destruct (Z.eqb_spec len 126); [lia|]. destruct (Z.eqb_spec len 127); [lia|].
    apply read_mask_short. rewrite Lk. unfold len. lia.
  - injection E as <-. cbn [app length] in Hk. rewrite !length_app in Hk.
    replace (1 <? k)%nat with true by (symmetry; apply Nat.ltb_lt; lia).
    cbn [nth app].
    change (Z.land (Z.shiftr (u8 (Z.lor 128 126)) 7) 1) with 1.
    change (Z.land (u8 (Z.lor 128 126)) 127 =? 126) with true.
    rewrite ensure_nil, Lk. destruct (Nat.leb_spec (2 + 2) k); [|eauto].
    rewrite !nth_firstn.
    replace (2 <? k)%nat with true by (symmetry; apply Nat.ltb_lt; lia).
    replace (3 <? k)%nat with true by (symmetry; apply Nat.ltb_lt; lia).
    cbn [nth app]. rewrite two_byte_field by lia.
    apply read_mask_short. rewrite Lk. unfold len. lia.
Qed.

(** X6: when the stream ends before a whole frame has arrived (the bytes are
    a proper prefix of a frame packed by [_packFrame]), [nextFrame] resolves
    to [null] and writes nothing. *)
Theorem nextFrame_truncated (rnd : nat -> list Z) (op : Z) (mask payload fr : list Z)
    (k : nat) (st : reader_state) (rs : reads) (pongs : list (list Z)) :
  length mask = 4%nat -> _packFrame op mask payload = Some fr ->
  (k < length fr)%nat ->
  buffer st ++ concat rs = firstn k fr ->
  exists st' rs', nextFrame rnd st rs pongs = (NoFrame, st', rs', pongs).
Proof.
  intros Hm E Hk Et.
  pose proof (nextFrame_general rnd st rs pongs _ Et) as S.
  unfold nextFrame at 2 in S. cbn [nextFrame_aux buffer fragmented] in S.
  destruct (read_frame_truncated op mask payload fr k Hm E Hk) as (b & r & R).
  rewrite R in S.
  destruct (nextFrame rnd st rs pongs) as [[[x s] rs'] ps'].
  destruct S as (-> & -> & _). eexists _, _. reflexivity.
Qed.

Lemma aux_consumes (rnd : nat -> list Z) (fuel : nat) : forall st rs pongs o p st' rs' ps,
  nextFrame_aux fuel rnd st rs pongs = (Frame o p, st', rs', ps) ->
  (length (buffer st' ++ concat rs') + 2 <= length (buffer st ++ concat rs))%nat.
Proof.
  induction fuel as [|fuel IH]; intros st rs pongs o p st' rs' ps E; [discriminate|].
  cbn [nextFrame_aux] in E.
  destruct (read_frame (buffer st) rs) as [b1 r1|b1 r1 m1|b1 r1 f1 o1 p1] eqn:R;
    try discriminate.
  pose proof (read_frame_consumes _ _ _ _ _ _ _ R) as C.
  assert (G : forall st1 ps1, buffer st1 = b1 ->
    nextFrame_aux fuel rnd st1 r1 ps1 = (Frame o p, st', rs', ps) ->
    (length (buffer st' ++ concat rs') + 2 <= length (buffer st ++ concat rs))%nat).
  { intros st1 ps1 H1 E1. specialize (IH _ _ _ _ _ _ _ _ E1). rewrite H1 in IH. lia. }
  destruct (o1 =? 9); [(eapply G; [|exact E]; reflexivity)|].
  destruct (o1 =? 10); [(eapply G; [|exact E]; reflexivity)|].
  destruct (o1 =? 0).
  - destruct (fragmented st) as [[fp fo]|]; [|discriminate].
    destruct (negb (f1 =? 0)); [injection E as <- <- <- <- <-; exact C|].
    (eapply G; [|exact E]; reflexivity).
  - destruct (f1 =? 0); [(eapply G; [|exact E]; reflexivity)|].
    injection E as <- <- <- <- <-. exact C.
Qed.

Lemma nextFrame_same (rnd : nat -> list Z) st1 rs1 st2 rs2 pongs :
  fragmented st1 = fragmented st2 ->
  buffer st1 ++ concat rs1 = buffer st2 ++ concat rs2 ->
  same_outcome (nextFrame rnd st1 rs1 pongs) (nextFrame rnd st2 rs2 pongs).
Proof.
  intros Hf Hb. eapply same_outcome_trans; [apply nextFrame_split_gen|].
  apply same_outcome_sym. eapply same_outcome_trans; [apply nextFrame_split_gen|].
  rewrite Hf, Hb. destruct (nextFrame rnd _ [] pongs) as [[[? ?] ?] ?]. simpl.
  repeat split; reflexivity.
Qed.

Lemma relay_same (rnd : nat -> list Z) (fuel : nat) : forall st1 rs1 st2 rs2 pongs,
  fragmented st1 = fragmented st2 ->
  buffer st1 ++ concat rs1 = buffer st2 ++ concat rs2 ->
  relay_aux fuel rnd st1 rs1 pongs = relay_aux fuel rnd st2 rs2 pongs.
Proof.
  induction fuel as [|fuel IH]; intros st1 rs1 st2 rs2 pongs Hf Hb; [reflexivity|].
  cbn [relay_aux].
  pose proof (nextFrame_same rnd st1 rs1 st2 rs2 pongs Hf Hb) as S.
  destruct (nextFrame rnd st1 rs1 pongs) as [[[r1 s1] q1] p1],
    (nextFrame rnd st2 rs2 pongs) as [[[r2 s2] q2] p2].
  destruct S as (<- & <- & Hf' & Hb').
  destruct r1 as [o p| |m]; try reflexivity.
  rewrite (IH s1 q1 s2 q2 p1 Hf' Hb'). reflexivity.
Qed.

Lemma relay_fuel_S (rnd : nat -> list Z) (fuel : nat) : forall st rs pongs,
  (length (buffer st ++ concat rs) < fuel)%nat ->
  relay_aux fuel rnd st rs pongs = relay_aux (S fuel) rnd st rs pongs.
Proof.
  induction fuel as [|fuel IH]; intros st rs pongs Hf; [lia|].
  cbn [relay_aux] in *.
  destruct (nextFrame rnd st rs pongs) as [[[r s] q] ps] eqn:E.
  destruct r as [o p| |m]; try reflexivity.
  unfold nextFrame in E. pose proof (aux_consumes _ _ _ _ _ _ _ _ _ _ E) as C.
  rewrite (IH s q ps) by lia. reflexivity.
Qed.

Lemma relay_fuel (rnd : nat -> list Z) (fuel : nat) st rs pongs :
  (length (buffer st ++ concat rs) < fuel)%nat ->
  relay_aux fuel rnd st rs pongs =
  relay_aux (S (length (buffer st ++ concat rs))) rnd st rs pongs.
Proof.
  intros Hf.
  remember (fuel - S (length (buffer st ++ concat rs)))%nat as d eqn:Ed.
  replace fuel with (d + S (length (buffer st ++ concat rs)))%nat by lia.
  clear Ed Hf. induction d as [|d IHd]; [reflexivity|].
  rewrite <- IHd. symmetry. apply relay_fuel_S. lia.
Qed.

Lemma relay_prefix (rnd : nat -> list Z) frames frs :
  Forall2 (fun '(op, mask, p) fr => (op = 1 \/ op = 2) /\ length mask = 4%nat /\
             Forall is_byte p /\ _packFrame op mask p = Some fr) frames frs ->
  forall st rs X, fragmented st = None ->
  buffer st ++ concat rs = concat frs ++ X ->
  relay_aux (S (length (buffer st ++ concat rs))) rnd st rs [] =
    let '(a, ps) := relay_aux (S (length X)) rnd
                      {| buffer := X; fragmented := None |} [] [] in
    (map (fun '(_, _, p) => Send p) frames ++ a, ps).
Proof.
  induction 1 as [|[[op mask] p] fr frames frs Hx Hfs IH]; intros st rs X Hf Et.
  - cbn [concat app] in Et.
    rewrite Et, (relay_same rnd _ st rs {| buffer := X; fragmented := None |} [] [] Hf)
      by (rewrite Et; simpl; rewrite app_nil_r; reflexivity).
    destruct (relay_aux _ _ _ _ _). reflexivity.
  - destruct Hx as (Hop & Hm & Hp & E).
    cbn [concat] in Et. rewrite <- app_assoc in Et.
    destruct (packed_frame_decodes rnd op mask p fr _ st rs []
      ltac:(lia) ltac:(lia) ltac:(lia) Hm Hp E Et) as (st' & rs' & E1 & Eb & Hf').
    set (R := relay_aux (S (length X)) _ _ _ _).
    cbn [relay_aux]. rewrite E1.
    replace ((op =? 1) || (op =? 2)) with true
      by (destruct Hop as [-> | ->]; reflexivity).
    pose proof (f_equal (@length Z) Et) as L. rewrite length_app in L.
    assert (Lf : (2 <= length fr)%nat).
    { unfold _packFrame in E. destruct (Z.of_nat (length p) <? 126);
        [|destruct (Z.of_nat (length p) <? 65536)]; try discriminate;
        injection E as <-; simpl; lia. }
    rewrite relay_fuel by (rewrite Eb, Et, !length_app; lia).
    rewrite (IH st' rs' X Hf' Eb). fold R.
    destruct R. reflexivity.
Qed.

(** X7: fed the text and binary frames packed by [_packFrame], the reading
    loop of [relayWebSocketFrames] sends their payloads to the client
    WebSocket one by one in order; if the stream ends there, [cleanup()]
    runs once (from the [finally]), and if a close frame follows, the client
    socket is closed with code 1000, then [cleanup()] runs twice (the
    explicit call and the [finally]) and nothing after the close frame is
    read.  No pong is written. *)
Theorem relay_forwards_data_frames (rnd : nat -> list Z) (frames : list (Z * list Z * list Z))
    (frs : list (list Z)) (rs : reads) :
  Forall2 (fun '(op, mask, p) fr => (op = 1 \/ op = 2) /\ length mask = 4%nat /\
             Forall is_byte p /\ _packFrame op mask p = Some fr) frames frs ->
  (concat rs = concat frs ->
   relayFrames rnd rs = (map (fun '(_, _, p) => Send p) frames ++ [Cleanup], [])) /\
  (forall cmask cpayload cfr rest,
     length cmask = 4%nat -> Forall is_byte cpayload ->
     _packFrame 8 cmask cpayload = Some cfr ->
     concat rs = concat frs ++ cfr ++ rest ->
     relayFrames rnd rs =
       (map (fun '(_, _, p) => Send p) frames ++ [CloseWs 1000; Cleanup; Cleanup], [])).
Proof.
  intros H. split.
  - intros Et. unfold relayFrames.
    pose proof (relay_prefix rnd frames frs H {| buffer := []; fragmented := None |} rs []
      eq_refl ltac:(rewrite app_nil_r; exact Et)) as R. cbn [buffer app] in R.
    rewrite R. cbn. reflexivity.
  - intros cmask cpayload cfr rest Hm Hp E Et. unfold relayFrames.
    pose proof (relay_prefix rnd frames frs H {| buffer := []; fragmented := None |} rs
      (cfr ++ rest) eq_refl Et) as R. cbn [buffer app] in R.
    rewrite R.
    destruct (packed_frame_decodes rnd 8 cmask cpayload cfr rest
      {| buffer := cfr ++ rest; fragmented := None |} [] []
      ltac:(lia) ltac:(lia) ltac:(lia) Hm Hp E ltac:(simpl; apply app_nil_r))
      as (st' & rs' & E1 & _).
    cbn [relay_aux]. rewrite E1. reflexivity.
Qed.

(** X1: a frame packed by [_packFrame] (so also by [packTextFrame]) with a
    non-control, non-continuation opcode is read back by
    [SocketFramesReader.nextFrame] with the same opcode and payload, however
    the bytes are split into reads and whatever fragment was pending; the
    unread bytes are exactly those after the frame. *)
Theorem nextFrame_packed (rnd : nat -> list Z) (op : Z) (mask payload fr rest : list Z)
    (st : reader_state) (rs : reads) (pongs : list (list Z)) :
  1 <= op < 16 -> op <> 9 -> op <> 10 ->
  length mask = 4%nat -> Forall is_byte payload ->
  _packFrame op mask payload = Some fr ->
  buffer st ++ concat rs = fr ++ rest ->
  exists st' rs', nextFrame rnd st rs pongs = (Frame op payload, st', rs', pongs) /\
    buffer st' ++ concat rs' = rest /\ fragmented st' = None.
Proof. apply packed_frame_decodes. Qed.

(** X2: what [nextFrame] returns, the pongs it writes and the fragment
    state it leaves depend only on the bytes available (buffer and chunks
    still to be read) and the pending fragment, not on how the bytes are
    split into chunks; the unread bytes are the same too. *)
Theorem nextFrame_chunking (rnd : nat -> list Z) (st1 st2 : reader_state)
    (rs1 rs2 : reads) (pongs : list (list Z)) :
  fragmented st1 = fragmented st2 ->
  buffer st1 ++ concat rs1 = buffer st2 ++ concat rs2 ->
  same_outcome (nextFrame rnd st1 rs1 pongs) (nextFrame rnd st2 rs2 pongs).
Proof. apply nextFrame_same. Qed.

(** Concrete inputs for the witnesses: masks of zeros for the pongs. *)
Definition rnd0 : nat -> list Z := fun _ => [0; 0; 0; 0].

Ltac bytes_ok :=
  repeat (apply List.Forall_cons; [unfold is_byte; lia|]); apply List.Forall_nil.

Ltac wire_ok_tac :=
  unfold wire_ok; cbn [w_rsv w_ext w_mask w_payload length];
  repeat split; (lia || bytes_ok).

Lemma nextFrame_packed_witness :
  exists st' rs',
    nextFrame rnd0 {| buffer := [129; 130]; fragmented := None |}
      [[1; 2; 3]; [4; 105; 107; 7]] [] = (Frame 1 [104; 105], st', rs', []) /\
    buffer st' ++ concat rs' = [7] /\ fragmented st' = None.
Proof.
  apply (nextFrame_packed rnd0 1 [1; 2; 3; 4] [104; 105] [129; 130; 1; 2; 3; 4; 105; 107] [7]);
    [lia | lia | lia | reflexivity | bytes_ok | reflexivity | reflexivity].
Defined.

Lemma nextFrame_chunking_witness :
  same_outcome
    (nextFrame rnd0 {| buffer := [129; 2]; fragmented := None |} [[5; 6]] [])
    (nextFrame rnd0 {| buffer := []; fragmented := None |} [[129]; [2; 5]; [6]] []).
Proof. apply nextFrame_chunking; reflexivity. Defined.

Lemma nextFrame_reassembles_witness :
  exists st' rs',
    nextFrame rnd0 {| buffer := []; fragmented := None |}
      [[1; 1; 7; 0; 254]; [0; 1; 1; 2; 3; 4; 9; 144; 130; 0; 0; 0; 0; 9; 10; 5]] [] =
      (Frame 1 ([7] ++ concat (map w_payload
         [{| w_rsv := 0; w_ext := true; w_mask := Some [1; 2; 3; 4]; w_payload := [8] |}])
         ++ [9; 10]), st', rs', []) /\
    buffer st' ++ concat rs' = [5] /\ fragmented st' = None.
Proof.
  apply (nextFrame_reassembles rnd0 1
    {| w_rsv := 0; w_ext := false; w_mask := None; w_payload := [7] |}
    [{| w_rsv := 0; w_ext := true; w_mask := Some [1; 2; 3; 4]; w_payload := [8] |}]
    {| w_rsv := 1; w_ext := false; w_mask := Some [0; 0; 0; 0]; w_payload := [9; 10] |}
    [5]);
    [lia | lia | lia | wire_ok_tac
    | apply List.Forall_cons; [wire_ok_tac | apply List.Forall_nil]
    | wire_ok_tac | vm_compute; reflexivity].
Defined.

Lemma nextFrame_ping_witness :
  exists pong, packPongFrame (rnd0 (length (@nil (list Z)))) [5; 6] = Some pong /\
    same_outcome
      (nextFrame rnd0 {| buffer := [137; 2]; fragmented := None |} [[5; 6; 129]; [1; 3]] [])
      (nextFrame rnd0 {| buffer := [129; 1; 3]; fragmented := None |} [] ([] ++ [pong])).
Proof.
  apply (nextFrame_ping rnd0 [5; 6] [129; 1; 3]); [simpl; lia | reflexivity].
Defined.

Lemma nextFrame_protocol_errors_witness :
  (exists st' rs',
     nextFrame rnd0 {| buffer := [130; 127]; fragmented := None |} [[0; 0]] [] =
       (FrameError (u "127 length mode is not supported"), st', rs', [])) /\
  (exists st' rs',
     nextFrame rnd0 {| buffer := []; fragmented := None |} [[128; 1; 4]] [] =
       (FrameError (u "Received continuation frame without initiation"), st', rs', [])).
Proof.
  split.
  - apply (proj1 (nextFrame_protocol_errors rnd0
      {| buffer := [130; 127]; fragmented := None |} [[0; 0]] []) 130 127 [0; 0]);
      reflexivity.
  - apply (proj2 (nextFrame_protocol_errors rnd0
      {| buffer := []; fragmented := None |} [[128; 1; 4]] []) true
      {| w_rsv := 0; w_ext := false; w_mask := None; w_payload := [4] |} []);
      [wire_ok_tac | reflexivity | vm_compute; reflexivity].
Defined.

Lemma nextFrame_truncated_witness :
  exists st' rs',
    nextFrame rnd0 {| buffer := [129]; fragmented := None |} [[130; 1; 2; 3]] [] =
      (NoFrame, st', rs', []).
Proof.
  apply (nextFrame_truncated rnd0 1 [1; 2; 3; 4] [104; 105]
    [129; 130; 1; 2; 3; 4; 105; 107] 5); [reflexivity | reflexivity | simpl; lia | reflexivity].
Defined.

Lemma relay_forwards_data_frames_witness :
  relayFrames rnd0 [[129; 130; 1]; [2; 3; 4; 105; 107; 130; 129; 0; 0; 0; 0; 7]] =
    ([Send [104; 105]; Send [7]] ++ [Cleanup], []) /\
  relayFrames rnd0 [[129; 130; 1; 2; 3; 4; 105; 107]; [130; 129; 0; 0; 0; 0; 7; 136; 128];
                    [0; 0; 0; 0; 1; 2]] =
    ([Send [104; 105]; Send [7]] ++ [CloseWs 1000; Cleanup; Cleanup], []).
Proof.
  assert (H : Forall2 (fun '(op, mask, p) fr => (op = 1 \/ op = 2) /\ length mask = 4%nat /\
             Forall is_byte p /\ _packFrame op mask p = Some fr)
    [(1, [1; 2; 3; 4], [104; 105]); (2, [0; 0; 0; 0], [7])]
    [[129; 130; 1; 2; 3; 4; 105; 107]; [130; 129; 0; 0; 0; 0; 7]]).
  { constructor; [|constructor; [|constructor]].
    all: cbv beta iota.
    - split; [left; reflexivity|]. split; [reflexivity|]. split; [bytes_ok|reflexivity].
    - split; [right; reflexivity|]. split; [reflexivity|]. split; [bytes_ok|reflexivity]. }
  split.
  - exact (proj1 (relay_forwards_data_frames rnd0 _ _ _ H) eq_refl).
  - exact (proj2 (relay_forwards_data_frames rnd0 _ _
             [[129; 130; 1; 2; 3; 4; 105; 107]; [130; 129; 0; 0; 0; 0; 7; 136; 128];
              [0; 0; 0; 0; 1; 2]] H)
             [0; 0; 0; 0] [] [136; 128; 0; 0; 0; 0] [1; 2]
             eq_refl (List.Forall_nil _) eq_refl eq_refl).
Defined.

End WsReaderFacts.

(* ================================================================== *)
(** * Chunked transfer decoding: readChunks *)
(* ================================================================== *)

Module ChunkFacts.
Import HttpBody StrFacts HttpBodyFacts.

Lemma starts_with_firstn (pat : list Z) : forall l k,
  starts_with pat (firstn k l) = true -> starts_with pat l = true.
Proof.
  induction pat as [|p pat IH]; intros l k H; [reflexivity|].
  destruct k as [|k]; [discriminate|]. destruct l as [|x l]; [discriminate|].
  simpl in H |- *. apply andb_prop in H. destruct H as [H1 H2].
  rewrite H1. simpl. exact (IH l k H2).
Qed.

Lemma index_of_firstn_none (pat : list Z) : forall l k,
  index_of pat l = None -> index_of pat (firstn k l) = None.
Proof.
  induction l as [|x l IH]; intros k H.
  - rewrite firstn_nil. exact H.
  - simpl in H. destruct (starts_with pat (x :: l)) eqn:Es; [discriminate|].
    destruct (index_of pat l) eqn:Ei; [discriminate|].
    destruct k as [|k].
    + simpl. destruct pat; [discriminate|reflexivity].
    + cbn [firstn]. simpl.
      destruct (starts_with pat (x :: firstn k l)) eqn:Es'.
      * change (x :: firstn k l) with (firstn (S k) (x :: l)) in Es'.
        apply starts_with_firstn in Es'. congruence.
      * rewrite IH by reflexivity. reflexivity.
Qed.

Lemma index_of_cons (pat : list Z) (x : Z) (l : list Z) :
  index_of pat (x :: l) =
    if starts_with pat (x :: l) then Some O else option_map S (index_of pat l).
Proof. reflexivity. Qed.

Lemma starts_with_crlf (a : Z) (l : list Z) :
  starts_with CRLF (a :: l) =
    (13 =? a) && match l with b :: _ => 10 =? b | [] => false end.
Proof. destruct l; cbn [starts_with CRLF]; rewrite ?andb_true_r; reflexivity. Qed.

Lemma index_of_crlf_prefix (sz Y : list Z) : forall k,
  index_of CRLF sz = None ->
  index_of CRLF (firstn k (sz ++ CRLF ++ Y)) =
    if (length sz + 2 <=? k)%nat then Some (length sz) else None.
Proof.
  induction sz as [|x sz IH]; intros k H.
  - destruct k as [|[|k]]; reflexivity.
  - rewrite index_of_cons in H.
    destruct (starts_with CRLF (x :: sz)) eqn:Es; [discriminate|].
    destruct (index_of CRLF sz) eqn:Ei; [discriminate|].
    destruct k as [|k]; [reflexivity|].
    cbn [firstn app]. rewrite index_of_cons.
    replace (starts_with CRLF (x :: firstn k (sz ++ CRLF ++ Y))) with false.
    + rewrite IH by reflexivity. cbn [length].
      destruct (Nat.leb_spec (length sz + 2) k), (Nat.leb_spec (S (length sz) + 2) (S k));
        try lia; reflexivity.
    + rewrite starts_with_crlf in Es |- *.
      destruct (Z.eqb_spec 13 x); [|reflexivity]. cbn [andb] in Es |- *.
      destruct k as [|k]; [reflexivity|].
      destruct sz as [|y sz]; [reflexivity|]. cbn [firstn app]. rewrite Es. reflexivity.
Qed.

Lemma refill_spec (need : Z) : forall rs buff,
  match refill buff need rs with
  | Some (b, r) => b ++ concat r = buff ++ concat rs /\ need <= Z.of_nat (length b) /\
                   (length r <= length rs)%nat
  | None => Z.of_nat (length (buff ++ concat rs)) < need
  end.
Proof.
  induction rs as [|v rs IH]; intros buff; simpl.
  - destruct (Z.ltb_spec (Z.of_nat (length buff)) need); [rewrite app_nil_r; lia|].
    split; [reflexivity|split; [exact H|simpl; lia]].
  - destruct (Z.ltb_spec (Z.of_nat (length buff)) need).
    + specialize (IH (buff ++ v)). rewrite <- app_assoc in IH.
      destruct (refill (buff ++ v) need rs) as [[b r]|]; [|exact IH].
      destruct IH as (E & L & R). split; [exact E|split; [exact L|simpl; lia]].
    + split; [reflexivity|split; [exact H|simpl; lia]].
Qed.

Lemma prefix_of (buff x T : list Z) : buff ++ x = T -> buff = firstn (length buff) T.
Proof. intros <-. rewrite firstn_app, Nat.sub_diag, firstn_all, firstn_O, app_nil_r. reflexivity. Qed.

(** Reading until the CRLF that ends a size line is in the buffer. *)
Lemma chunks_line (sz Y : list Z) : index_of CRLF sz = None ->
  forall rs buff f,
  buff ++ concat rs = sz ++ CRLF ++ Y ->
  (length rs + length (sz ++ CRLF ++ Y) < f)%nat ->
  exists f' buff' rs',
    readChunks_aux f buff rs = readChunks_aux (S f') buff' rs' /\
    buff' ++ concat rs' = sz ++ CRLF ++ Y /\
    (length rs' + length (sz ++ CRLF ++ Y) < S f')%nat /\
    index_of CRLF buff' = Some (length sz).
Proof.
  intros Hsz. induction rs as [|v rs IH]; intros buff f Et Hf.
  - simpl in Et. rewrite app_nil_r in Et. subst buff.
    destruct f as [|f]; [lia|]. exists f, (sz ++ CRLF ++ Y), [].
    split; [reflexivity|]. split; [apply app_nil_r|]. split; [exact Hf|].
    rewrite <- (firstn_all (sz ++ CRLF ++ Y)), index_of_crlf_prefix by exact Hsz.
    rewrite !length_app. cbn [length CRLF].
    destruct (Nat.leb_spec (length sz + 2) (length sz + (2 + length Y))); [reflexivity|lia].
  - pose proof (prefix_of _ _ _ Et) as Eb.
    destruct f as [|f]; [lia|].
    pose proof (index_of_crlf_prefix sz Y (length buff) Hsz) as I. rewrite <- Eb in I.
    destruct (Nat.leb_spec (length sz + 2) (length buff)).
    + exists f, buff, (v :: rs). repeat split; assumption.
    + cbn [readChunks_aux]. rewrite I.
      destruct (IH (buff ++ v) f ltac:(rewrite <- app_assoc; exact Et)
                  ltac:(cbn [length] in Hf; lia)) as (f' & b' & r' & E & H1 & H2 & H3).
      exists f', b', r'. split; [exact E|]. split; [exact H1|]. split; [|exact H3].
      cbn [length] in Hf. lia.
Qed.

Lemma firstn_app_le (a x : list Z) (n : nat) :
  (n <= length a)%nat -> firstn n (a ++ x) = firstn n a.
Proof.
  intros H. rewrite firstn_app. replace (n - length a)%nat with O by lia.
  rewrite firstn_O, app_nil_r. reflexivity.
Qed.

Lemma skipn_app_le (a x : list Z) (n : nat) :
  (n <= length a)%nat -> skipn n (a ++ x) = skipn n a ++ x.
Proof.
  intros H. rewrite skipn_app. replace (n - length a)%nat with O by lia. reflexivity.
Qed.

Lemma firstn_common (a b x y : list Z) (n : nat) :
  a ++ x = b ++ y -> (n <= length a)%nat -> (n <= length b)%nat -> firstn n a = firstn n b.
Proof.
  intros E Ha Hb. rewrite <- (firstn_app_le a x n Ha), <- (firstn_app_le b y n Hb), E.
  reflexivity.
Qed.

Lemma slice_prefix (l : list Z) (n : nat) :
  (n <= length l)%nat -> slice l 0 (Z.of_nat n) = firstn n l.
Proof.
  intros H. unfold slice, js_index. cbn [Z.ltb Z.compare].
  destruct (Z.of_nat n <? 0) eqn:E; [apply Z.ltb_lt in E; lia|].
  rewrite Z.min_l by lia. rewrite Z.min_l by lia. rewrite Z.sub_0_r, Nat2Z.id.
  reflexivity.
Qed.

Lemma chunk_step (sz c Y : list Z) (f : nat) (buff : list Z) (rs : reads) :
  parseInt (decode sz) 16 = Some (Z.of_nat (length c)) -> c <> [] ->
  buff ++ concat rs = sz ++ CRLF ++ c ++ CRLF ++ Y ->
  index_of CRLF buff = Some (length sz) ->
  (length rs + length (sz ++ CRLF ++ c ++ CRLF ++ Y) < S f)%nat ->
  exists buff' rs',
    readChunks_aux (S f) buff rs =
      (let '(cs, e) := readChunks_aux f buff' rs' in (c :: cs, e)) /\
    buff' ++ concat rs' = Y /\ (length rs' + length Y < f)%nat.
Proof.
  intros Hp Hc Et Hi Hf.
  assert (Hc0 : length c <> O) by (destruct c; [contradiction|discriminate]).
  pose proof (index_of_len _ _ _ Hi) as Hl. cbn [length CRLF] in Hl.
  assert (Hb : firstn (length sz) buff = sz).
  { rewrite (firstn_common buff sz (concat rs) (CRLF ++ c ++ CRLF ++ Y) (length sz) Et)
      by lia. apply firstn_all. }
  cbn [readChunks_aux]. rewrite Hi. rewrite Hb, Hp.
  assert (Hsk : skipn (length sz + 2) buff ++ concat rs = c ++ CRLF ++ Y).
  { rewrite <- skipn_app_le by lia. rewrite Et.
    replace (length sz + 2)%nat with (length sz + length CRLF)%nat by reflexivity.
    rewrite app_assoc, skipn_app_le, skipn_all2, app_nil_l;
      [reflexivity| rewrite length_app; lia | rewrite length_app; lia]. }
  pose proof (refill_spec (Z.of_nat (length c) + 2) rs (skipn (length sz + 2) buff)) as Hr.
  destruct (Z.of_nat (length c)) as [|p|p] eqn:Ez; [lia| |lia].
  destruct (refill (skipn (length sz + 2) buff) (Z.pos p + 2) rs) as [[b2 r2]|].
  - destruct Hr as (E & L & R). rewrite Hsk in E.
    rewrite <- Ez, slice_prefix by lia.
    rewrite (firstn_common b2 c (concat r2) (CRLF ++ Y) (length c) E) by lia.
    rewrite firstn_all.
    replace (Z.of_nat (length c) + 2) with (Z.of_nat (length c + 2)) by lia.
    rewrite slice_to_end.
    exists (skipn (length c + 2) b2), r2. split; [reflexivity|]. split.
    + rewrite <- skipn_app_le by lia. rewrite E.
      replace (length c + 2)%nat with (length c + length CRLF)%nat by reflexivity.
      rewrite app_assoc, skipn_app_le, skipn_all2, app_nil_l;
        [reflexivity| rewrite length_app; lia | rewrite length_app; lia].
    + rewrite !length_app in Hf. cbn [length CRLF] in Hf. lia.
  - rewrite Hsk, !length_app in Hr. cbn [length CRLF] in Hr. lia.
Qed.

(** A chunk on the wire: its size line, CRLF, its data, CRLF. *)
Definition chunk_enc (ch : list Z * list Z) : list Z := fst ch ++ CRLF ++ snd ch ++ CRLF.

(** A well-formed chunk: the size line holds no CRLF and its UTF-8
    decoding parses, in base 16, to the length of the data, which is not
    empty. *)
Definition good_chunk (ch : list Z * list Z) : Prop :=
  index_of CRLF (fst ch) = None /\ parseInt (decode (fst ch)) 16 = Some (Z.of_nat (length (snd ch))) /\
  snd ch <> [].

Lemma chunks_prefix (chunks : list (list Z * list Z)) :
  Forall good_chunk chunks -> forall T f buff rs,
  buff ++ concat rs = concat (map chunk_enc chunks) ++ T ->
  (length rs + length (buff ++ concat rs) < f)%nat ->
  exists f' buff' rs',
    readChunks_aux f buff rs =
      (let '(cs, e) := readChunks_aux f' buff' rs' in (map snd chunks ++ cs, e)) /\
    buff' ++ concat rs' = T /\ (length rs' + length T < f')%nat.
Proof.
  induction 1 as [|[sz c] chunks [Hsz [Hp Hc]] _ IH]; intros T f buff rs Et Hf.
  - exists f, buff, rs. split; [destruct (readChunks_aux f buff rs); reflexivity|].
    split; [exact Et|]. rewrite Et in Hf. exact Hf.
  - cbn [fst snd] in *. set (W := concat (map chunk_enc chunks) ++ T).
    assert (Et' : buff ++ concat rs = sz ++ CRLF ++ (c ++ CRLF ++ W)).
    { rewrite Et. cbn [map concat]. unfold chunk_enc, W. cbn [fst snd].
      rewrite !app_assoc. reflexivity. }
    rewrite Et' in Hf.
    destruct (chunks_line sz _ Hsz rs buff f Et' Hf) as (f1 & b1 & r1 & E1 & Et1 & Hf1 & Hi1).
    destruct (chunk_step sz c W f1 b1 r1 Hp Hc Et1 Hi1 Hf1) as (b2 & r2 & E2 & Et2 & Hf2).
    destruct (IH T f1 b2 r2 Et2 ltac:(rewrite Et2; exact Hf2)) as (f' & b' & r' & E3 & Et3 & Hf3).
    exists f', b', r'. split; [|split; [exact Et3|exact Hf3]].
    rewrite E1, E2, E3. destruct (readChunks_aux f' b' r'). reflexivity.
Qed.

Lemma readChunks_no_crlf : forall rs buff f,
  index_of CRLF (buff ++ concat rs) = None -> readChunks_aux f buff rs = ([], None).
Proof.
  induction rs as [|v rs IH]; intros buff f H; destruct f as [|f]; try reflexivity;
    cbn [readChunks_aux].
  - rewrite app_nil_r in H. rewrite H. reflexivity.
  - pose proof (index_of_firstn_none _ _ (length buff) H) as H'.
    rewrite firstn_app_le, firstn_all in H' by lia. rewrite H'.
    apply IH. rewrite <- app_assoc. exact H.
Qed.

Lemma readChunks_terminator (z rest : list Z) f buff rs :
  index_of CRLF z = None -> (parseInt (decode z) 16 = None \/ parseInt (decode z) 16 = Some 0) ->
  buff ++ concat rs = z ++ CRLF ++ rest ->
  (length rs + length (z ++ CRLF ++ rest) < f)%nat ->
  readChunks_aux f buff rs = ([], None).
Proof.
  intros Hz Hp Et Hf.
  destruct (chunks_line z rest Hz rs buff f Et Hf) as (f1 & b1 & r1 & E1 & Et1 & Hf1 & Hi1).
  rewrite E1. cbn [readChunks_aux]. rewrite Hi1.
  pose proof (index_of_len _ _ _ Hi1) as Hl. cbn [length CRLF] in Hl.
  rewrite (firstn_common b1 z (concat r1) (CRLF ++ rest) (length z) Et1), firstn_all by lia.
  destruct Hp as [Hp|Hp]; rewrite Hp; reflexivity.
Qed.

Lemma readChunks_eof_data (sz p : list Z) (n : Z) f buff rs :
  index_of CRLF sz = None -> parseInt (decode sz) 16 = Some n -> 0 < n ->
  Z.of_nat (length p) < n + 2 ->
  buff ++ concat rs = sz ++ CRLF ++ p ->
  (length rs + length (sz ++ CRLF ++ p) < f)%nat ->
  readChunks_aux f buff rs = ([], Some (u "Unexpected EOF in chunked encoding")).
Proof.
  intros Hz Hp Hn Hlp Et Hf.
  destruct (chunks_line sz p Hz rs buff f Et Hf) as (f1 & b1 & r1 & E1 & Et1 & Hf1 & Hi1).
  rewrite E1. cbn [readChunks_aux]. rewrite Hi1.
  pose proof (index_of_len _ _ _ Hi1) as Hl. cbn [length CRLF] in Hl.
  rewrite (firstn_common b1 sz (concat r1) (CRLF ++ p) (length sz) Et1), firstn_all by lia.
  rewrite Hp.
  assert (Hsk : skipn (length sz + 2) b1 ++ concat r1 = p).
  { rewrite <- skipn_app_le by lia. rewrite Et1.
    replace (length sz + 2)%nat with (length sz + length CRLF)%nat by reflexivity.
    rewrite app_assoc, skipn_app_le, skipn_all2, app_nil_l;
      [reflexivity| rewrite length_app; lia | rewrite length_app; lia]. }
  pose proof (refill_spec (n + 2) r1 (skipn (length sz + 2) b1)) as Hr.
  destruct n as [|q|q]; [lia| |lia].
  destruct (refill (skipn (length sz + 2) b1) (Z.pos q + 2) r1) as [[b2 r2]|];
    [|reflexivity].
  destruct Hr as (E & L & _). rewrite Hsk in E.
  apply (f_equal (@length Z)) in E. rewrite length_app in E. lia.
Qed.

(** X8: a chunked body decodes to its chunks.  When the stream, however it
    is split between the initial buffer and the reads, is a sequence of
    chunks (size line without CRLF whose UTF-8 decoding parses, in base 16,
    to the positive length of the data, CRLF, the data, CRLF) followed by a
    terminating size line whose decoding parses to 0 or to NaN and its CRLF, [readChunks] yields exactly
    the chunk data, in order, and returns without error, ignoring whatever
    follows the terminator. *)
Theorem readChunks_decodes (chunks : list (list Z * list Z)) (z rest buff : list Z) (rs : reads) :
  Forall good_chunk chunks ->
  index_of CRLF z = None -> (parseInt (decode z) 16 = None \/ parseInt (decode z) 16 = Some 0) ->
  buff ++ concat rs = concat (map chunk_enc chunks) ++ z ++ CRLF ++ rest ->
  readChunks buff rs = (map snd chunks, None).
Proof.
  intros Hc Hz Hp Et. unfold readChunks.
  destruct (chunks_prefix chunks Hc _ (S (length rs + length (buff ++ concat rs))) buff rs Et ltac:(lia))
    as (f' & b' & r' & E & Et' & Hf').
  rewrite E, (readChunks_terminator z rest f' b' r' Hz Hp Et' Hf'), app_nil_r.
  reflexivity.
Qed.

(** X9: if the stream ends, after complete chunks, with a size line whose
    UTF-8 decoding parses to a positive value [n], and its CRLF followed by fewer than [n + 2] bytes, the
    complete chunks are yielded and then [readChunks] throws "Unexpected EOF
    in chunked encoding". *)
Theorem readChunks_eof_in_chunk (chunks : list (list Z * list Z)) (sz p buff : list Z)
    (n : Z) (rs : reads) :
  Forall good_chunk chunks ->
  index_of CRLF sz = None -> parseInt (decode sz) 16 = Some n -> 0 < n ->
  Z.of_nat (length p) < n + 2 ->
  buff ++ concat rs = concat (map chunk_enc chunks) ++ sz ++ CRLF ++ p ->
  readChunks buff rs = (map snd chunks, Some (u "Unexpected EOF in chunked encoding")).
Proof.
  intros Hc Hz Hp Hn Hlp Et. unfold readChunks.
  destruct (chunks_prefix chunks Hc _ (S (length rs + length (buff ++ concat rs))) buff rs Et ltac:(lia))
    as (f' & b' & r' & E & Et' & Hf').
  rewrite E, (readChunks_eof_data sz p n f' b' r' Hz Hp Hn Hlp Et' Hf'), app_nil_r.
  reflexivity.
Qed.

(** X10: if the stream ends, after complete chunks, with bytes that contain
    no CRLF (an unfinished size line, possibly empty), the complete chunks are
    yielded and [readChunks] returns without error. *)
Theorem readChunks_eof_in_size_line (chunks : list (list Z * list Z)) (t buff : list Z)
    (rs : reads) :
  Forall good_chunk chunks -> index_of CRLF t = None ->
  buff ++ concat rs = concat (map chunk_enc chunks) ++ t ->
  readChunks buff rs = (map snd chunks, None).
Proof.
  intros Hc Ht Et. unfold readChunks.
  destruct (chunks_prefix chunks Hc _ (S (length rs + length (buff ++ concat rs))) buff rs Et ltac:(lia))
    as (f' & b' & r' & E & Et' & Hf').
  rewrite E, readChunks_no_crlf, app_nil_r by (rewrite Et'; exact Ht).
  reflexivity.
Qed.

Lemma readChunks_decodes_witness :
  readChunks [53] [[13]; [10; 104; 101]; [108; 108; 111; 13; 10; 48; 13]; [10; 120]] =
    ([[104; 101; 108; 108; 111]], None).
Proof.
  apply (readChunks_decodes [([53], [104; 101; 108; 108; 111])] [48] [120]).
  - constructor; [|constructor]. split; [reflexivity|split; [reflexivity|discriminate]].
  - reflexivity.
  - right. reflexivity.
  - reflexivity.
Defined.

Lemma readChunks_eof_in_chunk_witness :
  readChunks [] [[49; 13; 10; 97; 13; 10; 51]; [13; 10; 98; 99]] =
    ([[97]], Some (u "Unexpected EOF in chunked encoding")).
Proof.
  apply (readChunks_eof_in_chunk [([49], [97])] [51] [98; 99] [] 3).
  - constructor; [|constructor]. split; [reflexivity|split; [reflexivity|discriminate]].
  - reflexivity.
  - reflexivity.
  - lia.
  - simpl. lia.
  - reflexivity.
Defined.

Lemma readChunks_eof_in_size_line_witness :
  readChunks [] [[49; 13; 10; 97; 13]; [10; 49]; [48]] = ([[97]], None).
Proof.
  apply (readChunks_eof_in_size_line [([49], [97])] [49; 48]).
  - constructor; [|constructor]. split; [reflexivity|split; [reflexivity|discriminate]].
  - reflexivity.
  - reflexivity.
Defined.

End ChunkFacts.

(* ================================================================== *)
(** * Non-chunked response bodies: parseResponse *)
(* ================================================================== *)

Module LengthFacts.
Import HttpBody HttpBodyFacts.

(** The reading loop of the non-chunked branch, for a numeric Content-Length:
    it forwards the first [k] reads unchanged, where [k] is the first count at
    which the bytes received reach [cl], or all reads if that never happens. *)
Lemma read_length_stops (cl : Z) : forall (rs : reads) (received : Z),
  exists k : nat,
    read_length received (Some cl) rs = firstn k rs /\
    (forall j : nat, (j < k)%nat ->
       received + Z.of_nat (length (concat (firstn j rs))) < cl) /\
    (k = length rs \/ cl <= received + Z.of_nat (length (concat (firstn k rs)))).
Proof.
  induction rs as [|v rs IH]; intros received.
  - exists O. split; [simpl; destruct (received <? cl); reflexivity|].
    split; [intros j Hj; lia|]. left; reflexivity.
  - cbn [read_length]. destruct (Z.ltb_spec received cl) as [Hlt|Hge].
    + destruct (IH (received + Z.of_nat (length v))) as (k & E & Hb & Hend).
      exists (S k). split; [rewrite E; reflexivity|]. split.
      * intros [|j] Hj; cbn [firstn concat]; [simpl; lia|].
        rewrite length_app. specialize (Hb j ltac:(lia)). lia.
      * destruct Hend as [Hk|Hc]; [left; simpl; lia|right].
        cbn [firstn concat]. rewrite length_app. lia.
    + exists O. split; [reflexivity|]. split; [intros j Hj; lia|].
      right. simpl. lia.
Qed.

(** The non-chunked branch of [body_of] for a numeric Content-Length [cl]:
    the bytes [data] buffered past the header block (if any), then the reads
    up to and including the first one after which at least [cl] bytes were
    received (or all of them), and no error. *)
Lemma body_of_content_length (hs : header_list) (data : list Z) (rs : reads) (v : list Z) (cl : Z) :
  match headers_get hs (u "transfer-encoding") with
  | Some te => includes te (u "chunked") = false
  | None => True
  end ->
  headers_get hs (u "content-length") = Some v -> parseInt v 10 = Some cl ->
  exists k : nat,
    body_of hs data rs = ((if (length data =? 0)%nat then [] else [data]) ++ firstn k rs, None) /\
    (forall j : nat, (j < k)%nat ->
       Z.of_nat (length data) + Z.of_nat (length (concat (firstn j rs))) < cl) /\
    (k = length rs \/ cl <= Z.of_nat (length data) + Z.of_nat (length (concat (firstn k rs)))).
Proof.
  intros Hte Hcl Hp. unfold body_of.
  assert (Hc : match headers_get hs (u "transfer-encoding") with
               | Some te => includes te (u "chunked")
               | None => false
               end = false) by (destruct (headers_get hs (u "transfer-encoding")); [exact Hte|reflexivity]).
  rewrite Hc, Hcl.
  destruct (length v =? 0)%nat eqn:Ev.
  - apply Nat.eqb_eq, length_zero_iff_nil in Ev. subst v. discriminate.
  - rewrite Hp. destruct (read_length_stops cl rs (Z.of_nat (length data))) as (k & E & Hb & He).
    exists k. rewrite E. split; [reflexivity|split; [exact Hb|exact He]].
Qed.

(** X11: for a response whose preamble is ASCII, that is not chunked and
    whose Content-Length parses to a number [cl], the body stream carries
    the bytes [data] that follow the CRLF CRLF in the buffer at the read [k]
    that completed the preamble (if any), and then the following reads
    unchanged, one chunk each, up to and including the first read after
    which at least [cl] bytes were received (or up to the end of the
    stream); the overshoot of that last read is not cut off, and the stream
    closes without error. *)
Theorem content_length_response_body (buff pre rest : list Z) (rs : reads) (r : response)
    (v : list Z) (cl : Z) :
  buff ++ concat rs = pre ++ CRLFCRLF ++ rest ->
  ascii pre = true -> index_of CRLFCRLF (pre ++ CRLFCRLF) = Some (length pre) ->
  parse_loop buff rs = Ok r ->
  match headers_get (headers r) (u "transfer-encoding") with
  | Some te => includes te (u "chunked") = false
  | None => True
  end ->
  headers_get (headers r) (u "content-length") = Some v -> parseInt v 10 = Some cl ->
  exists (k : nat) (data : list Z) (m : nat),
    (0 < k)%nat /\
    (forall j : nat, (0 < j < k)%nat ->
       (length (buff ++ concat (firstn j rs)) < length pre + 4)%nat) /\
    buff ++ concat (firstn k rs) = pre ++ CRLFCRLF ++ data /\
    body r = (if (length data =? 0)%nat then [] else [data]) ++ firstn m (skipn k rs) /\
    body_error r = None /\
    (forall j : nat, (j < m)%nat ->
       Z.of_nat (length data) + Z.of_nat (length (concat (firstn j (skipn k rs)))) < cl) /\
    (m = length (skipn k rs) \/
     cl <= Z.of_nat (length data) + Z.of_nat (length (concat (firstn m (skipn k rs))))).
Proof.
  intros E Ha Hi Hp Hte Hcl Hv.
  destruct (parse_loop_ascii pre rest Ha Hi rs buff r E Hp) as (k & data & Hk & Hj & Ek & Eb).
  destruct (body_of_content_length (headers r) data (skipn k rs) v cl Hte Hcl Hv)
    as (m & Em & Hb & He).
  rewrite Em in Eb. injection Eb as Eb1 Eb2.
  exists k, data, m. repeat split; auto.
Qed.

(** X11 (witness): with Content-Length 5, a first read carrying the head
    and two body bytes, then reads of 2, 2 and 1 bytes. *)
Lemma content_length_response_body_witness :
  match parse_loop [] [u "HTTP/1.1 200 OK" ++ CRLF ++ u "Content-Length: 5" ++ CRLFCRLF ++ u "ab";
                       u "cd"; u "ef"; u "g"] with
  | Ok r =>
      exists (k : nat) (data : list Z) (m : nat),
        (0 < k)%nat /\
        (forall j : nat, (0 < j < k)%nat ->
           (length ([] ++ concat (firstn j [u "HTTP/1.1 200 OK" ++ CRLF ++ u "Content-Length: 5"
                                             ++ CRLFCRLF ++ u "ab"; u "cd"; u "ef"; u "g"]))
            < length (u "HTTP/1.1 200 OK" ++ CRLF ++ u "Content-Length: 5") + 4)%nat) /\
        [] ++ concat (firstn k [u "HTTP/1.1 200 OK" ++ CRLF ++ u "Content-Length: 5" ++ CRLFCRLF
                                ++ u "ab"; u "cd"; u "ef"; u "g"])
          = (u "HTTP/1.1 200 OK" ++ CRLF ++ u "Content-Length: 5") ++ CRLFCRLF ++ data /\
        body r = (if (length data =? 0)%nat then [] else [data]) ++
                 firstn m (skipn k [u "HTTP/1.1 200 OK" ++ CRLF ++ u "Content-Length: 5"
                                    ++ CRLFCRLF ++ u "ab"; u "cd"; u "ef"; u "g"]) /\
        body_error r = None /\
        (forall j : nat, (j < m)%nat ->
           Z.of_nat (length data) +
           Z.of_nat (length (concat (firstn j (skipn k [u "HTTP/1.1 200 OK" ++ CRLF
               ++ u "Content-Length: 5" ++ CRLFCRLF ++ u "ab"; u "cd"; u "ef"; u "g"])))) < 5) /\
        (m = length (skipn k [u "HTTP/1.1 200 OK" ++ CRLF ++ u "Content-Length: 5" ++ CRLFCRLF
                              ++ u "ab"; u "cd"; u "ef"; u "g"]) \/
         5 <= Z.of_nat (length data) +
              Z.of_nat (length (concat (firstn m (skipn k [u "HTTP/1.1 200 OK" ++ CRLF
                ++ u "Content-Length: 5" ++ CRLFCRLF ++ u "ab"; u "cd"; u "ef"; u "g"])))))
  | Throw _ => False
  end.
Proof.
  destruct (parse_loop [] [u "HTTP/1.1 200 OK" ++ CRLF ++ u "Content-Length: 5" ++ CRLFCRLF
                           ++ u "ab"; u "cd"; u "ef"; u "g"]) as [msg|r] eqn:Ep;
    [vm_compute in Ep; discriminate|].
  apply (content_length_response_body []
           (u "HTTP/1.1 200 OK" ++ CRLF ++ u "Content-Length: 5") (u "abcdefg")
           [u "HTTP/1.1 200 OK" ++ CRLF ++ u "Content-Length: 5" ++ CRLFCRLF ++ u "ab";
            u "cd"; u "ef"; u "g"] r (u "5") 5).
  - vm_compute. reflexivity.
  - vm_compute. reflexivity.
  - vm_compute. reflexivity.
  - exact Ep.
  - vm_compute in Ep. injection Ep as <-. vm_compute. reflexivity.
  - vm_compute in Ep. injection Ep as <-. vm_compute. reflexivity.
  - vm_compute. reflexivity.
Defined.

End LengthFacts.

(* ================================================================== *)
(** * Error events: JSON.stringify in an SSE data line *)
(* ================================================================== *)

Module SseEventFacts.
Import Json Gemini GeminiFacts RetryBodyFacts.

(** Not a control character; in particular neither CR nor LF. *)
Definition printable (c : Z) : Prop := 32 <= c.

Lemma dec_digits_printable : forall f n acc, 0 <= n -> Forall printable acc ->
  Forall printable (dec_digits_aux f n acc).
Proof.
  induction f as [|f IH]; intros n acc Hn Hacc; simpl; [exact Hacc|].
  destruct (n <? 10) eqn:E.
  - constructor; [unfold printable; lia|exact Hacc].
  - apply IH; [apply Z.div_pos; lia|].
    constructor; [|exact Hacc]. unfold printable.
    pose proof (Z.mod_pos_bound n 10 ltac:(lia)). lia.
Qed.

Lemma dec_string_printable (n : Z) : Forall printable (dec_string n).
Proof.
  unfold dec_string. destruct (n <? 0) eqn:E.
  - apply Z.ltb_lt in E. constructor; [unfold printable; lia|].
    apply dec_digits_printable; [lia|constructor].
  - apply Z.ltb_ge in E. apply dec_digits_printable; [lia|constructor].
Qed.

Lemma hex_digit_printable (d : Z) : 0 <= d -> printable (hex_digit d).
Proof. intros H. unfold hex_digit, printable. destruct (d <? 10); lia. Qed.

Lemma u_escape_printable (c : Z) : Forall printable (u_escape c).
Proof.
  unfold u_escape.
  repeat constructor; try (unfold printable; lia);
    apply hex_digit_printable; apply Z.mod_pos_bound; lia.
Qed.

Lemma quote_units_printable : forall n s, (length s <= n)%nat ->
  Forall printable (quote_units s).
Proof.
  induction n as [|n IH]; intros s Hs.
  - destruct s; [constructor|simpl in Hs; lia].
  - destruct s as [|c s]; [constructor|]. simpl in Hs.
    assert (Hr : Forall printable (quote_units s)) by (apply IH; lia).
    cbn [quote_units].
    destruct (c =? 34); [repeat constructor; [unfold printable; lia..|exact Hr]|].
    destruct (c =? 92); [repeat constructor; [unfold printable; lia..|exact Hr]|].
    destruct (c =? 8); [repeat constructor; [unfold printable; lia..|exact Hr]|].
    destruct (c =? 12); [repeat constructor; [unfold printable; lia..|exact Hr]|].
    destruct (c =? 10); [repeat constructor; [unfold printable; lia..|exact Hr]|].
    destruct (c =? 13); [repeat constructor; [unfold printable; lia..|exact Hr]|].
    destruct (c =? 9); [repeat constructor; [unfold printable; lia..|exact Hr]|].
    destruct (c <? 32) eqn:Elt; [apply Forall_app; split; [apply u_escape_printable|exact Hr]|].
    apply Z.ltb_ge in Elt.
    destruct (is_high c) eqn:Eh.
    + destruct s as [|d s'].
      * apply u_escape_printable.
      * destruct (is_low d) eqn:El.
        -- unfold is_high, is_low in *. apply andb_prop in Eh, El.
           destruct Eh as [Eh _], El as [El _]. apply Z.leb_le in Eh, El.
           constructor; [unfold printable; lia|]. constructor; [unfold printable; lia|].
           apply IH. simpl in Hs. lia.
        -- apply Forall_app; split; [apply u_escape_printable|exact Hr].
    + destruct (is_low c); [apply Forall_app; split; [apply u_escape_printable|exact Hr]|].
      constructor; [exact Elt|exact Hr].
Qed.

Lemma quote_printable (s : list Z) : Forall printable (quote s).
Proof.
  unfold quote. apply Forall_app; split; [constructor; [unfold printable; lia|constructor]|].
  apply Forall_app; split; [apply (quote_units_printable (length s)); lia|].
  constructor; [unfold printable; lia|constructor].
Qed.

Lemma join_comma_printable (l : list (list Z)) :
  Forall (Forall printable) l -> Forall printable (join_comma l).
Proof.
  induction 1 as [|x l Hx Hl IH]; [constructor|].
  destruct l as [|y l]; cbn [join_comma]; [exact Hx|].
  apply Forall_app; split; [exact Hx|]. constructor; [unfold printable; lia|exact IH].
Qed.

Lemma stringify_printable (v : json) : Forall printable (stringify v).
Proof.
  induction v as [| b | n | s | l Hl | fs Hfs] using json_ind'.
  - apply List.Forall_forall; intros c Hc; cbv in Hc; unfold printable; intuition lia.
  - destruct b; apply List.Forall_forall; intros c Hc; cbv in Hc; unfold printable; intuition lia.
  - apply dec_string_printable.
  - apply quote_printable.
  - cbn [stringify]. apply Forall_app; split; [constructor; [unfold printable; lia|constructor]|].
    apply Forall_app; split; [|constructor; [unfold printable; lia|constructor]].
    apply join_comma_printable. apply Forall_map. exact Hl.
  - cbn [stringify]. apply Forall_app; split; [constructor; [unfold printable; lia|constructor]|].
    apply Forall_app; split; [|constructor; [unfold printable; lia|constructor]].
    apply join_comma_printable. apply Forall_map.
    induction Hfs as [|[k w] fs Hw _ IH]; constructor; [|exact IH].
    apply Forall_app; split; [apply quote_printable|].
    constructor; [unfold printable; lia|exact Hw].
Qed.

Lemma split_lf_lf (x y : list Z) : ~ In 10 x -> split_lf (x ++ 10 :: y) = x :: split_lf y.
Proof.
  induction x as [|c x IH]; intros H; [reflexivity|].
  simpl in H. cbn [app split_lf]. destruct (Z.eqb_spec c 10); [exfalso; tauto|].
  rewrite IH by tauto. reflexivity.
Qed.

Lemma printable_no_lf (s : list Z) : Forall printable s -> ~ In 10 s.
Proof.
  intros H Hin. rewrite List.Forall_forall in H. specialize (H 10 Hin). unfold printable in H. lia.
Qed.

(** X12: an error event written with [`event: error\ndata: ${JSON.stringify(payload)}\n\n`]
    is one well-formed SSE event for any payload: [JSON.stringify] produces no
    code unit below 32 (so no CR or LF), and the event splits at LF into the
    line "event: error", the single line "data: " followed by the JSON text,
    and the blank line that ends the event. *)
Theorem sse_error_event_lines (v : json) :
  Forall (fun c => 32 <= c) (stringify v) /\
  split_lf (sse_error_event (stringify v)) = [u "event: error"; u "data: " ++ stringify v; []; []].
Proof.
  pose proof (stringify_printable v) as Hp. split; [exact Hp|].
  unfold sse_error_event. cbn [app].
  rewrite split_lf_lf by (cbv; intuition discriminate).
  rewrite app_assoc, split_lf_lf.
  - reflexivity.
  - rewrite in_app_iff. intros [H|H]; [cbv in H; intuition discriminate|].
    exact (printable_no_lf _ Hp H).
Qed.

End SseEventFacts.

(* ================================================================== *)
(** * Downstream writes of processStreamAndRetryInternally *)
(* ================================================================== *)

Module SessionFacts.
Import Json Gemini.

(** The writes of the upstream lines an attempt consumed, each followed by a
    blank line. *)
Definition forwarded (a : attempt) : list wev := map (fun l => WText (l ++ [10; 10])) (att_lines a).

Lemma run_attempt_writes (parse : list Z -> option json) (acc : list Z) (reader : feed) :
  att_writes (run_attempt parse acc reader) = forwarded (run_attempt parse acc reader).
Proof.
  unfold run_attempt, forwarded. destruct (sseLineIterator reader) as [lines raised].
  destruct (run_lines _ _ _ _) as [[c e] st]. reflexivity.
Qed.

(** X13: what [processStreamAndRetryInternally] writes downstream is the
    concatenation, attempt after attempt, of the upstream SSE lines each
    attempt consumed (each as the line plus "\n\n"), followed by nothing if
    the run was cut short, and otherwise by either the close alone or one SSE
    error event and the close.  In particular the writer is closed at most
    once, as the very last write. *)
Theorem process_writes_shape (cfg : gconfig) (parse : list Z -> option json)
    (retry : Z -> list Z -> retry_response) :
  forall fuel count net acc reader,
  let s := process fuel cfg parse retry count net acc reader in
  exists tail,
    s_writes s = concat (map forwarded (s_logs s)) ++ tail /\
    ((s_finished s = false /\ tail = []) \/
     (s_finished s = true /\
      (tail = [WClose] \/ exists d, tail = [WText (sse_error_event d); WClose]))).
Proof.
  induction fuel as [|fuel IH]; intros count net acc reader s.
  - exists []. subst s. split; [reflexivity|left; split; reflexivity].
  - subst s. cbn [process].
    set (a := run_attempt parse acc reader).
    assert (Ha : att_writes a = forwarded a) by apply run_attempt_writes.
    assert (Hfin : forall tail, (tail = [WClose] \/ exists d, tail = [WText (sse_error_event d); WClose]) ->
      exists tail', s_writes (finish a tail) = concat (map forwarded (s_logs (finish a tail))) ++ tail' /\
        ((s_finished (finish a tail) = false /\ tail' = []) \/
         (s_finished (finish a tail) = true /\
          (tail' = [WClose] \/ exists d, tail' = [WText (sse_error_event d); WClose])))).
    { intros tail Ht. exists tail. cbn [finish s_writes s_logs s_finished map concat].
      rewrite Ha, app_nil_r. split; [reflexivity|right; split; [reflexivity|exact Ht]]. }
    assert (Hpre : forall s', (exists tail, s_writes s' = concat (map forwarded (s_logs s')) ++ tail /\
        ((s_finished s' = false /\ tail = []) \/
         (s_finished s' = true /\
          (tail = [WClose] \/ exists d, tail = [WText (sse_error_event d); WClose])))) ->
      exists tail, s_writes (prepend a s') = concat (map forwarded (s_logs (prepend a s'))) ++ tail /\
        ((s_finished (prepend a s') = false /\ tail = []) \/
         (s_finished (prepend a s') = true /\
          (tail = [WClose] \/ exists d, tail = [WText (sse_error_event d); WClose])))).
    { intros s' (tail & E & Ht). exists tail. cbn [prepend s_writes s_logs s_finished map concat].
      rewrite Ha, E, app_assoc. split; [reflexivity|exact Ht]. }
    destruct (att_end a) as [|r].
    + apply Hfin. left; reflexivity.
    + destruct (max_consecutive_retries cfg <=? count).
      * apply Hfin. right. eexists. reflexivity.
      * destruct (retry (count + 1) (accumulatedText (att_state a))) as [msg|status has_body etext body].
        -- destruct (max_network_retries cfg <=? net + 1);
             [apply Hfin; right; eexists; reflexivity|apply Hpre, IH].
        -- destruct (NON_RETRYABLE_STATUSES status);
             [apply Hfin; right; eexists; reflexivity|].
           destruct ((200 <=? status) && (status <=? 299) && has_body);
             [apply Hpre, IH|].
           destruct (max_network_retries cfg <=? net + 1);
             [apply Hfin; right; eexists; reflexivity|apply Hpre, IH].
Qed.

(** The final event written when the network retry limit is hit. *)
Definition bad_gateway_event (msg : list Z) : wev :=
  WText (sse_error_event (stringify (error_payload 502 (u "BAD_GATEWAY") (network_message msg)))).

Lemma run_attempt_after_cleanup (parse : list Z -> option json) (acc : list Z)
    (acc' : list Z) (reader : feed) :
  att_writes (run_attempt parse acc' (after_cleanup parse acc reader)) = [] /\
  exists r, att_end (run_attempt parse acc' (after_cleanup parse acc reader)) = AInterrupt r.
Proof.
  unfold after_cleanup. destruct (sseLineIterator reader) as [lines raised].
  destruct (_ && _); (split; [reflexivity | eexists; reflexivity]).
Qed.

Section NetworkLimit.
Variable cfg : gconfig.
Variable parse : list Z -> option json.
Variable msg : Z -> list Z.
Variable retry : Z -> list Z -> retry_response.
Hypothesis retry_throws : forall n a, retry n a = RThrow (msg n).
Hypothesis net_le : max_network_retries cfg <= max_consecutive_retries cfg.

Lemma network_chain : forall d j fuel acc reader r,
  j + Z.of_nat d + 1 = max_network_retries cfg -> 0 <= j -> (d < fuel)%nat ->
  att_end (run_attempt parse acc reader) = AInterrupt r ->
  let s := process fuel cfg parse retry j j acc reader in
  s_writes s = att_writes (run_attempt parse acc reader) ++
               [bad_gateway_event (msg (max_network_retries cfg)); WClose] /\
  length (s_logs s) = S d /\ s_finished s = true.
Proof.
  induction d as [|d IH]; intros j fuel acc reader r Hj Hj0 Hf He s;
    (destruct fuel as [|fuel]; [lia|]); subst s; cbn [process]; rewrite He;
    (destruct (Z.leb_spec (max_consecutive_retries cfg) j); [lia|]);
    rewrite retry_throws.
  - destruct (Z.leb_spec (max_network_retries cfg) (j + 1)); [|lia].
    cbn [finish s_writes s_logs s_finished length].
    replace (j + 1) with (max_network_retries cfg) by lia.
    split; [reflexivity|split; reflexivity].
  - destruct (Z.leb_spec (max_network_retries cfg) (j + 1)); [lia|].
    destruct (run_attempt_after_cleanup parse acc
                (accumulatedText (att_state (run_attempt parse acc reader))) reader)
      as (W & r' & Er).
    destruct (IH (j + 1) fuel (accumulatedText (att_state (run_attempt parse acc reader)))
                 (after_cleanup parse acc reader) r' ltac:(lia) ltac:(lia) ltac:(lia) Er)
      as (E & L & F).
    cbn [prepend s_writes s_logs s_finished length]. rewrite E, W, L, F.
    split; [reflexivity|split; reflexivity].
Qed.

End NetworkLimit.

(** X14: if the first stream is interrupted and from then on every retry
    setup throws, then (when [max_network_retries] is at least 1 and at most
    [max_consecutive_retries], as in [GEMINI_CONFIG]) the session makes
    exactly [max_network_retries] attempts in all: the client receives the
    lines of the first stream, then one 502 BAD_GATEWAY error event quoting
    the message of the last failed retry, then the close. *)
Theorem network_retry_limit (cfg : gconfig) (parse : list Z -> option json)
    (msg : Z -> list Z) (retry : Z -> list Z -> retry_response)
    (fuel : nat) (acc : list Z) (reader : feed) (r : reason) :
  (forall n a, retry n a = RThrow (msg n)) ->
  1 <= max_network_retries cfg <= max_consecutive_retries cfg ->
  (Z.to_nat (max_network_retries cfg) <= fuel)%nat ->
  att_end (run_attempt parse acc reader) = AInterrupt r ->
  let s := process fuel cfg parse retry 0 0 acc reader in
  s_writes s = att_writes (run_attempt parse acc reader) ++
               [bad_gateway_event (msg (max_network_retries cfg)); WClose] /\
  length (s_logs s) = Z.to_nat (max_network_retries cfg) /\ s_finished s = true.
Proof.
  intros Hr Hb Hf He.
  destruct (network_chain cfg parse msg retry Hr ltac:(lia) (Z.to_nat (max_network_retries cfg) - 1)
              0 fuel acc reader r ltac:(lia) ltac:(lia) ltac:(lia) He) as (E & L & F).
  split; [exact E|split; [rewrite L; lia|exact F]].
Qed.

(** X14 (witness): with [GEMINI_CONFIG] and a retry setup that always
    throws, three attempts are made and the 502 event closes the stream. *)
Lemma network_retry_limit_witness :
  let retry := fun (n : Z) (_ : list Z) => RThrow (u "connect failed") in
  let s := process 3 GEMINI_CONFIG (fun _ => None) retry 0 0 []
             {| chunks := [u "data: {}"]; fails := false |} in
  s_writes s = [WText (u "data: {}" ++ [10; 10]); bad_gateway_event (u "connect failed"); WClose] /\
  length (s_logs s) = 3%nat /\ s_finished s = true.
Proof.
  apply (network_retry_limit GEMINI_CONFIG (fun _ => None) (fun _ => u "connect failed")
           (fun _ _ => RThrow (u "connect failed")) 3 [] {| chunks := [u "data: {}"]; fails := false |} DROP).
  - reflexivity.
  - simpl. lia.
  - simpl. lia.
  - reflexivity.
Defined.

End SessionFacts.

(* ================================================================== *)
(** * Target URLs: SpectreProxy.handleRequest *)
(* ================================================================== *)

Module RouteFacts.
Import Router.

(** [filter(Boolean)] on strings. *)
Definition nonempty (s : list Z) : bool := negb (length s =? 0)%nat.

Lemma index_of_slash_cons (c : Z) (l : list Z) :
  index_of [47] (c :: l) = if c =? 47 then Some O else option_map S (index_of [47] l).
Proof.
  change (index_of [47] (c :: l)) with
    (if starts_with [47] (c :: l) then Some O else option_map S (index_of [47] l)).
  cbn [starts_with]. rewrite andb_true_r, Z.eqb_sym. reflexivity.
Qed.

Lemma index_of_slash (s rest : list Z) : ~ In 47 s ->
  index_of [47] (s ++ 47 :: rest) = Some (length s).
Proof.
  induction s as [|c s IH]; intros H.
  - cbn [app]. rewrite index_of_slash_cons, Z.eqb_refl. reflexivity.
  - cbn [app]. rewrite index_of_slash_cons. simpl in H.
    destruct (Z.eqb_spec c 47); [exfalso; tauto|]. rewrite IH by tauto. reflexivity.
Qed.

Lemma index_of_no_slash (s : list Z) : ~ In 47 s -> index_of [47] s = None.
Proof.
  induction s as [|c s IH]; intros H; [reflexivity|].
  rewrite index_of_slash_cons. simpl in H.
  destruct (Z.eqb_spec c 47); [exfalso; tauto|]. rewrite IH by tauto. reflexivity.
Qed.

Lemma length_join_segs (segs : list (list Z)) :
  segs <> [] -> (length segs <= S (length (join [47%Z] segs)))%nat.
Proof.
  induction segs as [|s segs IH]; intros H; [contradiction|].
  destruct segs as [|s' segs]; [simpl; lia|].
  change (join [47] (s :: s' :: segs)) with (s ++ [47] ++ join [47] (s' :: segs)).
  rewrite !length_app. specialize (IH ltac:(discriminate)). cbn [length] in *. lia.
Qed.

Lemma split_on_aux_join : forall segs fuel,
  segs <> [] -> Forall (fun s => ~ In 47 s) segs -> (length segs <= S fuel)%nat ->
  HttpBody.split_on_aux fuel [47] (join [47] segs) = segs.
Proof.
  induction segs as [|s segs IH]; intros fuel Hne Hs Hf; [contradiction|].
  inversion Hs as [|? ? Hs0 Hss]; subst.
  destruct segs as [|s' segs].
  - cbn [join]. destruct fuel; [reflexivity|]. cbn [HttpBody.split_on_aux].
    rewrite index_of_no_slash by exact Hs0. reflexivity.
  - destruct fuel as [|fuel]; [simpl in Hf; lia|].
    change (join [47] (s :: s' :: segs)) with (s ++ 47 :: join [47] (s' :: segs)).
    cbn [HttpBody.split_on_aux].
    rewrite index_of_slash by exact Hs0.
    rewrite firstn_app, Nat.sub_diag, firstn_all, firstn_O, app_nil_r.
    rewrite skipn_app, skipn_all2 by (cbn [length]; lia).
    replace (length s + length [47%Z] - length s)%nat with 1%nat by (cbn [length]; lia).
    cbn [skipn app length]. rewrite IH; [reflexivity|discriminate|exact Hss|simpl in Hf; simpl; lia].
Qed.

Lemma split_on_join (segs : list (list Z)) :
  segs <> [] -> Forall (fun s => ~ In 47 s) segs ->
  HttpBody.split_on [47] (join [47] segs) = segs.
Proof.
  intros Hne Hs. unfold HttpBody.split_on. apply split_on_aux_join; [exact Hne|exact Hs|].
  pose proof (length_join_segs segs Hne). lia.
Qed.

(** [url.pathname.split("/").filter(Boolean)] on a pathname built from
    segments without '/': the non-empty segments. *)
Lemma path_parts_join (segs : list (list Z)) :
  Forall (fun s => ~ In 47 s) segs ->
  path_parts (join [47] ([] :: segs)) = filter nonempty segs.
Proof.
  intros Hs. unfold path_parts. rewrite split_on_join; [reflexivity|discriminate|].
  constructor; [simpl; tauto|exact Hs].
Qed.

Lemma jstr_eqb_refl' (s : list Z) : jstr_eqb s s = true.
Proof. induction s as [|c s IH]; simpl; [reflexivity|]. now rewrite Z.eqb_refl. Qed.

Lemma jstr_eqb_true (a b : list Z) : jstr_eqb a b = true -> a = b.
Proof.
  revert b; induction a as [|x a IH]; intros [|y b] H; simpl in H; try discriminate; [reflexivity|].
  apply andb_prop in H as [H1 H2]. apply Z.eqb_eq in H1. subst. f_equal. apply IH, H2.
Qed.

Lemma route_keys_no_colon :
  forallb (fun k => negb (ends_with [58] k)) (map fst API_MAPPING) = true.
Proof. vm_compute. reflexivity. Qed.

Lemma ends_with_snoc (x : list Z) (c : Z) : ends_with [c] (x ++ [c]) = true.
Proof. unfold ends_with. rewrite rev_app_distr. simpl. rewrite Z.eqb_refl. reflexivity. Qed.

Lemma lookup_route_colon (x : list Z) : lookup_route (x ++ [58]) = None.
Proof.
  unfold lookup_route.
  destruct (List.find (fun '(k, _) => jstr_eqb k (x ++ [58])) API_MAPPING) as [[k rc]|] eqn:E;
    [|reflexivity].
  exfalso. apply List.find_some in E as [Hin Hk]. apply jstr_eqb_true in Hk. subst k.
  pose proof route_keys_no_colon as H. rewrite forallb_forall in H.
  specialize (H (x ++ [58])). rewrite ends_with_snoc in H.
  assert (Hm : In (x ++ [58]) (map fst API_MAPPING)) by (apply (in_map fst) in Hin; exact Hin).
  specialize (H Hm). discriminate.
Qed.

Lemma nonempty_x (s : list Z) : s <> [] -> nonempty s = true.
Proof. destruct s; [contradiction|reflexivity]. Qed.

(** [upgradeHeader === "websocket"]. *)
Definition is_websocket (upgrade : option (list Z)) : bool :=
  match upgrade with Some h => jstr_eqb h (u "websocket") | None => false end.

(** X15: a generic proxy request [/AUTH_TOKEN/scheme:/seg1/.../segn] (with
    AUTH_TOKEN non-empty, without '/', and not "test") is forwarded over the
    raw socket (or as a WebSocket when the Upgrade header is "websocket") to
    [scheme://] followed by the non-empty segments joined with '/' and the
    query string, unless [new URL] rejects that target, which gives 400.  So
    [/TOKEN/https://host/path] keeps its target URL, except that empty
    segments (doubled slashes) are dropped. *)
Theorem generic_proxy_target (cfg : config) (scheme search : list Z) (segs : list (list Z))
    (upgrade : option (list Z)) (url_ok : list Z -> bool) (pick : nat) :
  AUTH_TOKEN cfg <> [] -> jstr_eqb (AUTH_TOKEN cfg) (u "test") = false ->
  Forall (fun s => ~ In 47 s) (AUTH_TOKEN cfg :: scheme :: segs) ->
  let dst := scheme ++ u "://" ++ join [47] (filter nonempty segs) ++ search in
  handleRequest cfg (join [47] ([] :: AUTH_TOKEN cfg :: (scheme ++ [58]) :: segs))
    search upgrade url_ok pick
  = if negb (url_ok dst) then ErrorStatus 400
    else if is_websocket upgrade then WebSocketRoute dst else SocketRoute dst.
Proof.
  intros Hne Ht Hs dst.
  inversion Hs as [|? ? Htok Hs1]; subst. inversion Hs1 as [|? ? Hsch Hsegs]; subst.
  unfold handleRequest.
  rewrite (path_parts_join (AUTH_TOKEN cfg :: (scheme ++ [58]) :: segs)).
  2:{ constructor; [exact Htok|]. constructor; [|exact Hsegs].
      rewrite in_app_iff. simpl. intros [H|[H|H]]; [tauto|discriminate|exact H]. }
  rewrite filter_cons_True by (rewrite (nonempty_x _ Hne); constructor).
  rewrite filter_cons_True by (rewrite (nonempty_x (scheme ++ [58])) by (destruct scheme; discriminate); constructor).
  rewrite Ht, jstr_eqb_refl'.
  replace (u "/" ++ scheme ++ [58]) with ((u "/" ++ scheme) ++ [58]) by (rewrite <- app_assoc; reflexivity).
  rewrite lookup_route_colon. change (u ":") with [58]. rewrite ends_with_snoc.
  assert (E : (scheme ++ [58]) ++ u "//" ++ join (u "/") (filter nonempty segs) ++ search = dst)
    by (subst dst; rewrite <- app_assoc; reflexivity).
  rewrite E. reflexivity.
Qed.

Lemma slash_join_concat : forall l : list (list Z), l <> [] ->
  [47] ++ join [47] l = concat (map (fun s => [47] ++ s) l).
Proof.
  induction l as [|x l IH]; intros H; [contradiction|].
  destruct l as [|y l].
  - simpl. rewrite app_nil_r. reflexivity.
  - change (join [47] (x :: y :: l)) with (x ++ [47] ++ join [47] (y :: l)).
    rewrite IH by discriminate. cbn [map concat]. rewrite <- !app_assoc. reflexivity.
Qed.

Lemma remaining_path (l : list (list Z)) :
  Forall (fun s => s <> []) l ->
  (if (length (join (u "/") l) =? 0)%nat then [] else u "/" ++ join (u "/") l)
  = concat (map (fun s => [47] ++ s) l).
Proof.
  intros H. destruct H as [|x l Hx Hl]; [reflexivity|].
  change (u "/") with [47]. rewrite <- slash_join_concat by discriminate.
  destruct l as [|y l].
  - cbn [join]. destruct x; [contradiction|reflexivity].
  - change (join [47] (x :: y :: l)) with (x ++ [47] ++ join [47] (y :: l)).
    rewrite length_app. cbn [length]. destruct x; [contradiction|reflexivity].
Qed.

Lemma filter_nonempty_ne (segs : list (list Z)) : Forall (fun s => s <> []) (filter nonempty segs).
Proof.
  induction segs as [|s segs IH]; [constructor|].
  rewrite filter_cons. destruct (decide _) as [H|H]; [|exact IH].
  constructor; [|exact IH]. intros ->. cbv in H. first [discriminate|contradiction|tauto].
Qed.

(** X16: a request for a preset route [/name/seg1/.../segn] with a single
    target [t], without the token when preset authentication is off or with
    the token prefix [/AUTH_TOKEN/name/...] in any case, and not handled by
    the Gemini handler, is forwarded to [t] followed by "/seg" for each
    non-empty segment and the query string: as a WebSocket when the Upgrade
    header is "websocket", otherwise through FetchProxy or SocketProxy
    according to the route's forceFetch. *)
Theorem preset_route_target (cfg : config) (authenticated : bool) (name t search : list Z)
    (segs : list (list Z)) (rc : route_config)
    (upgrade : option (list Z)) (url_ok : list Z -> bool) (pick : nat) :
  lookup_route (u "/" ++ name) = Some rc -> targets rc = [t] ->
  (if authenticated
   then AUTH_TOKEN cfg <> [] /\ ~ In 47 (AUTH_TOKEN cfg) /\ jstr_eqb (AUTH_TOKEN cfg) (u "test") = false
   else jstr_eqb name (u "test") = false /\ jstr_eqb name (AUTH_TOKEN cfg) = false /\
        PRESET_AUTH_ENABLED cfg = false) ->
  (jstr_eqb (u "/" ++ name) (u "/gemini") && GEMINI_SPECIAL_HANDLING_ENABLED cfg) = false ->
  Forall (fun s => ~ In 47 s) (name :: segs) ->
  let dst := t ++ concat (map (fun s => [47] ++ s) (filter nonempty segs)) ++ search in
  handleRequest cfg (join [47] ([] :: (if authenticated then [AUTH_TOKEN cfg] else []) ++ name :: segs))
    search upgrade url_ok pick
  = if is_websocket upgrade then WebSocketRoute dst
    else if forceFetch rc then FetchRoute dst else SocketRoute dst.
Proof.
  intros Hl Ht Ha Hg Hs dst.
  assert (Hn : name <> []) by (intros ->; vm_compute in Hl; discriminate).
  inversion Hs as [|? ? Hname Hsegs]; subst.
  unfold handleRequest.
  destruct authenticated.
  - destruct Ha as (Hne & Htok & Htt).
    change ([AUTH_TOKEN cfg] ++ name :: segs) with (AUTH_TOKEN cfg :: name :: segs).
    rewrite (path_parts_join (AUTH_TOKEN cfg :: name :: segs)) by (constructor; [exact Htok|exact Hs]).
    rewrite filter_cons_True by (rewrite (nonempty_x _ Hne); constructor).
    rewrite filter_cons_True by (rewrite (nonempty_x _ Hn); constructor).
    rewrite Htt, jstr_eqb_refl', Hl, andb_false_r, Ht. cbn [selectTarget].
    rewrite Hg, remaining_path by apply filter_nonempty_ne. reflexivity.
  - destruct Ha as (Htt & Htok & Hp).
    change ([] ++ name :: segs) with (name :: segs).
    rewrite (path_parts_join (name :: segs)) by exact Hs.
    rewrite filter_cons_True by (rewrite (nonempty_x _ Hn); constructor).
    rewrite Htt, Htok, Hl, Hp, Ht. cbn [andb selectTarget].
    rewrite Hg, remaining_path by apply filter_nonempty_ne. reflexivity.
Qed.

Definition ex_cfg : config :=
  {| AUTH_TOKEN := u "secret"; DEFAULT_DST_URL := u "https://httpbin.org/get";
     PRESET_AUTH_ENABLED := true; GEMINI_SPECIAL_HANDLING_ENABLED := true |}.

Lemma no_slash_dec (l : list (list Z)) :
  forallb (fun s => negb (existsb (Z.eqb 47) s)) l = true -> Forall (fun s => ~ In 47 s) l.
Proof.
  intros H. apply List.Forall_forall. intros s Hs Hin.
  rewrite forallb_forall in H. specialize (H s Hs).
  assert (E : existsb (Z.eqb 47) s = true) by (apply existsb_exists; exists 47; split; [exact Hin|apply Z.eqb_refl]).
  rewrite E in H. discriminate.
Qed.

(** X15 (witness): [/secret/https://api.x.ai//v1/models?a=1] is forwarded
    to [https://api.x.ai/v1/models?a=1]. *)
Lemma generic_proxy_target_witness :
  handleRequest ex_cfg (u "/secret/https://api.x.ai//v1/models") (u "?a=1") None (fun _ => true) 0
  = SocketRoute (u "https://api.x.ai/v1/models?a=1").
Proof.
  replace (u "/secret/https://api.x.ai//v1/models")
    with (join [47] ([] :: AUTH_TOKEN ex_cfg :: (u "https" ++ [58]) ::
                     [[]; u "api.x.ai"; []; u "v1"; u "models"])) by reflexivity.
  rewrite (generic_proxy_target ex_cfg (u "https") (u "?a=1") [[]; u "api.x.ai"; []; u "v1"; u "models"]
             None (fun _ => true) 0); [reflexivity|discriminate|reflexivity|].
  apply no_slash_dec. reflexivity.
Defined.

(** X16 (witness): [/secret/openai/v1//chat/completions?x=1] goes through
    FetchProxy to [https://api.openai.com/v1/chat/completions?x=1]. *)
Lemma preset_route_target_witness :
  handleRequest ex_cfg (u "/secret/openai/v1//chat/completions") (u "?x=1") None (fun _ => true) 0
  = FetchRoute (u "https://api.openai.com/v1/chat/completions?x=1").
Proof.
  replace (u "/secret/openai/v1//chat/completions")
    with (join [47] ([] :: (if true then [AUTH_TOKEN ex_cfg] else []) ++
                     u "openai" :: [u "v1"; []; u "chat"; u "completions"])) by reflexivity.
  rewrite (preset_route_target ex_cfg true (u "openai") (u "https://api.openai.com") (u "?x=1")
             [u "v1"; []; u "chat"; u "completions"]
             {| targets := [u "https://api.openai.com"]; forceFetch := true |}
             None (fun _ => true) 0).
  - reflexivity.
  - reflexivity.
  - reflexivity.
  - split; [discriminate|split; [exact (Forall_inv (no_slash_dec [u "secret"] eq_refl))|reflexivity]].
  - reflexivity.
  - apply no_slash_dec. reflexivity.
Defined.

End RouteFacts.

(** [ConfigManager.updateConfigFromEnv]. *)
Module ConfigEnv.

(** The JavaScript values an [env] binding or a config field can hold
    (numbers are the integral ones). *)
Inductive jsv :=
| VUndef
| VNull
| VBool (b : bool)
| VNum (n : Z)
| VStr (s : list Z)
| VObj (id : Z).

(** Truthiness, as [if (x)] tests it. *)
Definition truthy (v : jsv) : bool :=
  match v with
  | VUndef | VNull => false
  | VBool b => b
  | VNum n => negb (n =? 0)
  | VStr s => negb (List.length s =? 0)%nat
  | VObj _ => true
  end.

(** [v === 'true']. *)
Definition is_true_str (v : jsv) : bool :=
  match v with VStr s => jstr_eqb s (u "true") | _ => false end.

(** Objects as their own enumerable properties, in insertion order. *)
Definition obj := list (list Z * jsv).

(** [o[key]] of a property [key in o] (without a value when absent). *)
Definition obj_get (key : list Z) (o : obj) : option jsv :=
  option_map snd (List.find (fun p => jstr_eqb (fst p) key) o).

(** [o[key] = v] for a property the object already has. *)
Definition obj_set (key : list Z) (v : jsv) (o : obj) : obj :=
  map (fun p => if jstr_eqb (fst p) key then (fst p, v) else p) o.

(** [o.key], [undefined] when absent. *)
Definition obj_read (key : list Z) (o : obj) : jsv :=
  match obj_get key o with Some v => v | None => VUndef end.

Definition DEFAULT_CONFIG : obj :=
  [(u "AUTH_TOKEN", VStr (u "your-auth-token"));
   (u "DEFAULT_DST_URL", VStr (u "https://httpbin.org/get"));
   (u "DEBUG_MODE", VBool false);
   (u "FORCE_FETCH_DEFAULT", VBool false);
   (u "AGGRESSIVE_FALLBACK", VBool true);
   (u "PRESET_AUTH_ENABLED", VBool false);
   (u "GEMINI_SPECIAL_HANDLING_ENABLED", VBool true);
   (u "GEMINI_RETRY_PROMPT_CN", VNull);
   (u "GEMINI_RETRY_PROMPT_EN", VNull)].

(** One turn of [for (const key of Object.keys(config))]. *)
Definition env_step (env : obj) (config : obj) (key : list Z) : obj :=
  match obj_get key env with
  | None => config
  | Some ev =>
      match obj_get key config with
      | Some (VBool _) => obj_set key (VBool (is_true_str ev)) config
      | _ => obj_set key ev config
      end
  end.

(** [GEMINI_CONFIG.retry_prompts.zh] and [.en], the two entries the
    function assigns; the global keeps them from one call to the next. *)
Record prompts := { zh : jsv; en : jsv }.

(** The returned config, with the retry prompts after the call. *)
Definition updateConfigFromEnv (env : option obj) (p : prompts) : obj * prompts :=
  match env with
  | None => (DEFAULT_CONFIG, p)
  | Some e =>
      let config := fold_left (env_step e) (map fst DEFAULT_CONFIG) DEFAULT_CONFIG in
      let cn := obj_read (u "GEMINI_RETRY_PROMPT_CN") config in
      let p1 := if truthy cn then {| zh := cn; en := en p |} else p in
      let en' := obj_read (u "GEMINI_RETRY_PROMPT_EN") config in
      let p2 := if truthy en' then {| zh := zh p1; en := en' |} else p1 in
      (config, p2)
  end.

(** The value a default field takes from [env]. *)
Definition from_env (env : obj) (key : list Z) (d : jsv) : jsv :=
  match obj_get key env with
  | None => d
  | Some v => match d with VBool _ => VBool (is_true_str v) | _ => v end
  end.

Lemma jstr_eqb_iff (a b : list Z) : jstr_eqb a b = true <-> a = b.
Proof.
  revert b; induction a as [|x a IH]; intros [|y b]; simpl;
    try (split; congruence).
  rewrite andb_true_iff, Z.eqb_eq, IH. split; [intros [-> ->]; reflexivity|].
  intros H; injection H; auto.
Qed.

Lemma obj_set_keys (key : list Z) (v : jsv) (o : obj) :
  map fst (obj_set key v o) = map fst o.
Proof.
  induction o as [|[k w] o IH]; simpl; auto.
  destruct (jstr_eqb k key); simpl; rewrite IH; reflexivity.
Qed.

Lemma obj_get_set_same (key : list Z) (v : jsv) (o : obj) :
  obj_get key (obj_set key v o) = option_map (fun _ => v) (obj_get key o).
Proof.
  induction o as [|[k w] o IH]; simpl; auto.
  unfold obj_get in *; simpl.
  destruct (jstr_eqb k key) eqn:E; simpl; rewrite ?E; auto.
Qed.

Lemma obj_get_set_other (key k : list Z) (v : jsv) (o : obj) :
  key <> k -> obj_get k (obj_set key v o) = obj_get k o.
Proof.
  intros Hne. induction o as [|[k' w] o IH]; simpl; auto.
  unfold obj_get in *; simpl.
  destruct (jstr_eqb k' key) eqn:E; simpl.
  - apply jstr_eqb_iff in E; subst k'.
    destruct (jstr_eqb key k) eqn:F; auto.
    apply jstr_eqb_iff in F; congruence.
  - destruct (jstr_eqb k' k); auto.
Qed.

Lemma obj_get_absent (key : list Z) (o : obj) :
  ~ In key (map fst o) -> obj_get key o = None.
Proof.
  induction o as [|[k w] o IH]; simpl; auto. intros Hn.
  unfold obj_get in *; simpl.
  destruct (jstr_eqb k key) eqn:E.
  - apply jstr_eqb_iff in E; tauto.
  - apply IH; tauto.
Qed.

Lemma env_step_keys (env config : obj) (key : list Z) :
  map fst (env_step env config key) = map fst config.
Proof.
  unfold env_step. destruct (obj_get key env); auto.
  destruct (obj_get key config) as [[]|]; apply obj_set_keys.
Qed.

Lemma env_step_same (env config : obj) (key : list Z) :
  obj_get key (env_step env config key)
  = option_map (from_env env key) (obj_get key config).
Proof.
  unfold env_step, from_env. destruct (obj_get key env) as [ev|] eqn:E.
  - destruct (obj_get key config) as [[]|] eqn:F;
      rewrite obj_get_set_same, F; reflexivity.
  - destruct (obj_get key config); reflexivity.
Qed.

Lemma env_step_other (env config : obj) (key k : list Z) :
  key <> k -> obj_get k (env_step env config key) = obj_get k config.
Proof.
  intros Hne. unfold env_step. destruct (obj_get key env); auto.
  destruct (obj_get key config) as [[]|]; apply obj_get_set_other; auto.
Qed.

Lemma env_loop (env : obj) (ks : list (list Z)) :
  List.NoDup ks -> forall config k,
  map fst (fold_left (env_step env) ks config) = map fst config /\
  obj_get k (fold_left (env_step env) ks config)
  = if in_dec (List.list_eq_dec Z.eq_dec) k ks
    then option_map (from_env env k) (obj_get k config)
    else obj_get k config.
Proof.
  induction 1 as [|k0 ks Hk0 Hnd IH]; intros config k; simpl.
  - split; reflexivity.
  - destruct (IH (env_step env config k0) k) as [Hkeys Hget].
    split; [rewrite Hkeys; apply env_step_keys|].
    rewrite Hget.
    destruct (List.list_eq_dec Z.eq_dec k0 k) as [<-|Hne].
    + destruct (in_dec (List.list_eq_dec Z.eq_dec) k0 ks); [contradiction|].
      destruct (in_dec (List.list_eq_dec Z.eq_dec) k0 (k0 :: ks)) as [_|Hn];
        [apply env_step_same|exfalso; apply Hn; left; reflexivity].
    + rewrite env_step_other by exact Hne.
      destruct (in_dec (List.list_eq_dec Z.eq_dec) k ks) as [Hin|Hout];
        destruct (in_dec (List.list_eq_dec Z.eq_dec) k (k0 :: ks)) as [Hin'|Hout'];
        auto; exfalso;
        first [apply Hout'; right; exact Hin | destruct Hin' as [->|Hin']; contradiction].
Qed.

Lemma default_keys_nodup : List.NoDup (map fst DEFAULT_CONFIG).
Proof.
  cbv [DEFAULT_CONFIG map fst].
  repeat constructor; cbv; intros H; repeat (destruct H as [H|H]; [discriminate|]); exact H.
Qed.

(** The config the loop builds: exactly the default keys, each one taken from [env]. *)
Lemma env_config (env : obj) (k : list Z) :
  let config := fold_left (env_step env) (map fst DEFAULT_CONFIG) DEFAULT_CONFIG in
  map fst config = map fst DEFAULT_CONFIG /\
  obj_get k config = option_map (from_env env k) (obj_get k DEFAULT_CONFIG).
Proof.
  destruct (env_loop env _ default_keys_nodup DEFAULT_CONFIG k) as [Hk Hg].
  cbv zeta. split; [exact Hk|]. rewrite Hg.
  destruct (in_dec (List.list_eq_dec Z.eq_dec) k (map fst DEFAULT_CONFIG)); auto.
  rewrite obj_get_absent by assumption. reflexivity.
Qed.

(** X17 (ConfigManager.updateConfigFromEnv, the key loop): given an
    [env], the config has exactly the keys of [DEFAULT_CONFIG] in their
    order, so keys of [env] outside it are ignored. A key absent from
    [env] keeps its default. A key with a boolean default becomes [true]
    only when [env] holds the string ['true'] there; any other value,
    such as ['TRUE'] or the boolean [true], gives [false]. Every other key
    takes the [env] value unchanged. *)
Theorem config_from_env (env : obj) (p : prompts) (k : list Z) :
  let config := fst (updateConfigFromEnv (Some env) p) in
  map fst config = map fst DEFAULT_CONFIG /\
  obj_get k config =
  match obj_get k DEFAULT_CONFIG with
  | None => None
  | Some (VBool b) =>
      Some (match obj_get k env with Some v => VBool (is_true_str v) | None => VBool b end)
  | Some d => Some (match obj_get k env with Some v => v | None => d end)
  end.
Proof.
  cbv zeta.
  assert (E : fst (updateConfigFromEnv (Some env) p)
              = fold_left (env_step env) (map fst DEFAULT_CONFIG) DEFAULT_CONFIG)
    by reflexivity.
  rewrite E. destruct (env_config env k) as [Hk Hg]. cbv zeta in *.
  split; [exact Hk|]. rewrite Hg. unfold from_env.
  destruct (obj_get k DEFAULT_CONFIG) as [[]|]; destruct (obj_get k env); reflexivity.
Qed.

(** X18 (ConfigManager.updateConfigFromEnv, the retry prompts): the
    global [GEMINI_CONFIG.retry_prompts.zh] (resp. [.en]) is replaced by
    the [env] value of [GEMINI_RETRY_PROMPT_CN] (resp. [_EN]) only when
    that value is truthy. When it is absent, empty, [null] or
    [undefined], or when there is no [env], the prompt left by earlier
    calls stays. *)
Theorem config_retry_prompts (env : option obj) (p : prompts) :
  snd (updateConfigFromEnv env p) =
  match env with
  | None => p
  | Some e =>
      let pick key old :=
        match obj_get key e with Some v => if truthy v then v else old | None => old end in
      {| zh := pick (u "GEMINI_RETRY_PROMPT_CN") (zh p);
         en := pick (u "GEMINI_RETRY_PROMPT_EN") (en p) |}
  end.
Proof.
  destruct env as [e|]; [|reflexivity].
  destruct (env_config e (u "GEMINI_RETRY_PROMPT_CN")) as [_ Hcn].
  destruct (env_config e (u "GEMINI_RETRY_PROMPT_EN")) as [_ Hen].
  cbv zeta in *. unfold updateConfigFromEnv.
  set (c := fold_left (env_step e) (map fst DEFAULT_CONFIG) DEFAULT_CONFIG) in *.
  cbv zeta. unfold obj_read. rewrite Hcn, Hen. clear Hcn Hen.
  change (obj_get (u "GEMINI_RETRY_PROMPT_CN") DEFAULT_CONFIG) with (Some VNull).
  change (obj_get (u "GEMINI_RETRY_PROMPT_EN") DEFAULT_CONFIG) with (Some VNull).
  unfold option_map, from_env.
  destruct (obj_get (u "GEMINI_RETRY_PROMPT_CN") e) as [vc|];
    destruct (obj_get (u "GEMINI_RETRY_PROMPT_EN") e) as [ve|];
    try destruct (truthy vc); try destruct (truthy ve); destruct p; reflexivity.
Qed.

End ConfigEnv.

(** The Fetch [Headers] object ([set], [get], iteration) and the two
    header helpers built on it: [BaseProxy.filterHeaders] and
    [GeminiHandler.buildUpstreamHeaders]. *)
Module FetchHeaders.
Import HttpBody.
Import ConfigEnv (jstr_eqb_iff).

(** A header name: a ByteString made of one or more [tchar]s. *)
Definition valid_name (n : list Z) : bool :=
  negb (length n =? 0)%nat && forallb tchar n.

(** A code unit of a normalized header value: a byte other than NUL, LF and CR. *)
Definition value_char (c : Z) : bool :=
  (0 <=? c) && (c <=? 255) && negb ((c =? 0) || (c =? 10) || (c =? 13)).

Definition valid_value (v : list Z) : bool := forallb value_char v.

(** The header [p] has the name [name], compared byte-case-insensitively. *)
Definition name_is (name : list Z) (p : list Z * list Z) : bool :=
  jstr_eqb (map lower_unit (fst p)) (map lower_unit name).

(** [headers.has(name)]. *)
Definition headers_has (name : list Z) (h : header_list) : bool :=
  existsb (name_is name) h.

(** The first header named [name] gets the value [v]; the others are removed. *)
Fixpoint set_first (name v : list Z) (h : header_list) : header_list :=
  match h with
  | [] => []
  | p :: h' =>
      if name_is name p
      then (fst p, v) :: List.filter (fun q => negb (name_is name q)) h'
      else p :: set_first name v h'
  end.

(** [headers.set(name, value)]: the value is normalized, then name and
    value are validated ([None] is the TypeError thrown otherwise). *)
Definition headers_set (name value : list Z) (h : header_list) : option header_list :=
  let v := normalize_value value in
  if valid_name name && valid_value v then
    Some (if headers_has name h then set_first name v h else h ++ [(name, v)])
  else None.

(** The values of the headers named [n] (a lowercase name), in order. *)
Definition vals (h : header_list) (n : list Z) : list (list Z) :=
  map snd (List.filter (fun p => jstr_eqb (map lower_unit (fst p)) n) h).

(** Code-unit order of names. *)
Fixpoint lex_ltb (a b : list Z) : bool :=
  match a, b with
  | [], [] => false
  | [], _ :: _ => true
  | _ :: _, [] => false
  | x :: a', y :: b' => (x <? y) || ((x =? y) && lex_ltb a' b')
  end.

(** Insertion of a name into a sorted set of names. *)
Fixpoint insert_name (n : list Z) (l : list (list Z)) : list (list Z) :=
  match l with
  | [] => [n]
  | m :: l' =>
      if jstr_eqb n m then l
      else if lex_ltb n m then n :: l
      else m :: insert_name n l'
  end.

(** The header names, lowercased, without duplicates, sorted. *)
Definition sorted_names (h : header_list) : list (list Z) :=
  fold_right insert_name [] (map (fun p => map lower_unit (fst p)) h).

(** The entries for one name in the "sort and combine" of a header
    list: [set-cookie] headers one by one, any other name once with its
    combined value. *)
Definition combine_entry (h : header_list) (n : list Z) : header_list :=
  if jstr_eqb n (u "set-cookie") then map (fun v => (n, v)) (vals h n)
  else match headers_get h n with Some v => [(n, v)] | None => [] end.

(** [for (const [k, v] of headers)]: the "sort and combine" of the
    header list. *)
Definition sort_and_combine (h : header_list) : header_list :=
  flat_map (combine_entry h) (sorted_names h).

(** [/^(host|accept-encoding|cf-|cdn-|referer|referrer)/i.test(k)]. *)
Definition HEADER_FILTER_RE_test (k : list Z) : bool :=
  existsb (fun p => starts_with p (map lower_unit k))
          [u "host"; u "accept-encoding"; u "cf-"; u "cdn-"; u "referer"; u "referrer"].

(** [BaseProxy.filterHeaders]. *)
Definition filterHeaders (headers : header_list) : option header_list :=
  fold_left (fun acc kv =>
               match acc with
               | None => None
               | Some cleanedHeaders =>
                   if HEADER_FILTER_RE_test (fst kv) then Some cleanedHeaders
                   else headers_set (fst kv) (snd kv) cleanedHeaders
               end)
            (sort_and_combine headers) (Some []).

(** [const copy = (k) => { const v = reqHeaders.get(k); if (v) h.set(k, v); }]. *)
Definition copy (reqHeaders : header_list) (k : list Z) (h : option header_list)
  : option header_list :=
  match h with
  | None => None
  | Some h =>
      match headers_get reqHeaders k with
      | Some v => if negb (length v =? 0)%nat then headers_set k v h else Some h
      | None => Some h
      end
  end.

(** [GeminiHandler.buildUpstreamHeaders]. *)
Definition buildUpstreamHeaders (reqHeaders : header_list) : option header_list :=
  let h := Some [] in
  let h := copy reqHeaders (u "authorization") h in
  let h := copy reqHeaders (u "x-goog-api-key") h in
  let h := copy reqHeaders (u "content-type") h in
  let h := copy reqHeaders (u "accept") h in
  h.

(** A header list as a [Headers] object holds it: valid names and values. *)
Definition headers_wf (h : header_list) : Prop :=
  List.Forall (fun p => valid_name (fst p) = true /\ valid_value (snd p) = true) h.

(** The last element of a list. *)
Definition last_opt (l : list (list Z)) : option (list Z) :=
  match rev l with v :: _ => Some v | [] => None end.

(** The value of the last entry named [n]. *)
Fixpoint last_for (n : list Z) (l : header_list) : option (list Z) :=
  match l with
  | [] => None
  | kv :: l' =>
      match last_for n l' with
      | Some v => Some v
      | None => if jstr_eqb (fst kv) n then Some (snd kv) else None
      end
  end.

Lemma headers_get_vals (h : header_list) (n : list Z) :
  headers_get h n =
  match vals h n with
  | [] => None
  | v :: vs' => Some (v ++ concat (map (fun w => u ", " ++ w) vs'))
  end.
Proof.
  unfold headers_get, vals.
  assert (E : map snd (filter (fun '(k, _) => jstr_eqb (map lower_unit k) n) h)
              = map snd (List.filter (fun p => jstr_eqb (map lower_unit (fst p)) n) h)).
  { induction h as [|[k w] h IH]; [reflexivity|].
    rewrite filter_cons. simpl. destruct (jstr_eqb (map lower_unit k) n) eqn:E.
    - rewrite decide_True by exact I. simpl. rewrite IH. reflexivity.
    - rewrite decide_False by (intros []). exact IH. }
  rewrite E. reflexivity.
Qed.

Lemma lower_unit_idem (c : Z) : lower_unit (lower_unit c) = lower_unit c.
Proof.
  unfold lower_unit.
  destruct ((65 <=? c) && (c <=? 90)) eqn:E; [|rewrite E; reflexivity].
  apply andb_true_iff in E as [E1 E2]. apply Z.leb_le in E1, E2.
  replace ((65 <=? c + 32) && (c + 32 <=? 90)) with false; [reflexivity|].
  symmetry. apply andb_false_iff. right. apply Z.leb_gt. lia.
Qed.

Lemma lower_idem (k : list Z) : map lower_unit (map lower_unit k) = map lower_unit k.
Proof. rewrite map_map. apply map_ext. apply lower_unit_idem. Qed.

Lemma tchar_lower (c : Z) : tchar c = true -> tchar (lower_unit c) = true.
Proof.
  intros H. unfold lower_unit.
  destruct ((65 <=? c) && (c <=? 90)) eqn:E; [|exact H].
  apply andb_true_iff in E as [E1 E2]. apply Z.leb_le in E1, E2.
  unfold tchar. apply orb_true_iff. left. apply orb_true_iff. right.
  apply andb_true_iff. split; apply Z.leb_le; lia.
Qed.

Lemma valid_name_lower (k : list Z) : valid_name k = true -> valid_name (map lower_unit k) = true.
Proof.
  unfold valid_name. rewrite !andb_true_iff, length_map. intros [H1 H2]. split; [exact H1|].
  rewrite List.forallb_forall in *. intros x Hx. apply in_map_iff in Hx as [c [<- Hc]].
  apply tchar_lower, H2, Hc.
Qed.

Lemma skip_while_in (f : Z -> bool) (v : list Z) (c : Z) : In c (skip_while f v) -> In c v.
Proof.
  induction v as [|x v IH]; simpl; auto.
  destruct (f x); simpl; auto.
Qed.

Lemma normalize_in (v : list Z) (c : Z) : In c (normalize_value v) -> In c v.
Proof.
  unfold normalize_value. intros H.
  apply in_rev, skip_while_in, in_rev, skip_while_in in H. exact H.
Qed.

Lemma valid_normalize (v : list Z) : valid_value v = true -> valid_value (normalize_value v) = true.
Proof.
  unfold valid_value. rewrite !List.forallb_forall. intros H c Hc. apply H, normalize_in, Hc.
Qed.

Lemma valid_combined (v : list Z) (vs : list (list Z)) :
  valid_value v = true -> List.Forall (fun w => valid_value w = true) vs ->
  valid_value (v ++ concat (map (fun w => u ", " ++ w) vs)) = true.
Proof.
  unfold valid_value. intros Hv Hvs. rewrite forallb_app, Hv. simpl.
  induction Hvs as [|w vs Hw _ IH]; [reflexivity|].
  simpl. rewrite forallb_app. simpl. rewrite Hw. exact IH.
Qed.

Lemma vals_app (a b : header_list) (n : list Z) : vals (a ++ b) n = vals a n ++ vals b n.
Proof. unfold vals. rewrite List.filter_app, map_app. reflexivity. Qed.

Lemma name_is_lower (name : list Z) (p : list Z * list Z) :
  map lower_unit name = name -> name_is name p = jstr_eqb (map lower_unit (fst p)) name.
Proof. intros Hl. unfold name_is. rewrite Hl. reflexivity. Qed.

Lemma vals_not_has (name : list Z) (h : header_list) :
  map lower_unit name = name -> headers_has name h = false -> vals h name = [].
Proof.
  intros Hl. induction h as [|p h IH]; [reflexivity|].
  unfold headers_has, vals in *. simpl. rewrite orb_false_iff, name_is_lower by exact Hl.
  intros [E H]. rewrite E. apply IH, H.
Qed.

Lemma vals_filter_other (name n : list Z) (h : header_list) :
  map lower_unit name = name -> name <> n ->
  vals (List.filter (fun q => negb (name_is name q)) h) n = vals h n.
Proof.
  intros Hl Hne. induction h as [|p h IH]; [reflexivity|].
  unfold vals in *. simpl. rewrite name_is_lower by exact Hl.
  destruct (jstr_eqb (map lower_unit (fst p)) name) eqn:E; simpl.
  - apply jstr_eqb_iff in E. rewrite E.
    destruct (jstr_eqb name n) eqn:F; [apply jstr_eqb_iff in F; contradiction|exact IH].
  - destruct (jstr_eqb (map lower_unit (fst p)) n); simpl; rewrite IH; reflexivity.
Qed.

Lemma vals_filter_same (name : list Z) (h : header_list) :
  map lower_unit name = name ->
  vals (List.filter (fun q => negb (name_is name q)) h) name = [].
Proof.
  intros Hl. induction h as [|p h IH]; [reflexivity|].
  unfold vals in *. simpl. rewrite name_is_lower by exact Hl.
  destruct (jstr_eqb (map lower_unit (fst p)) name) eqn:E; simpl; [exact IH|].
  rewrite E. exact IH.
Qed.

Lemma vals_set_first (name v n : list Z) (h : header_list) :
  map lower_unit name = name -> map lower_unit n = n -> headers_has name h = true ->
  vals (set_first name v h) n = if jstr_eqb name n then [v] else vals h n.
Proof.
  intros Hl Hn. induction h as [|p h IH]; [discriminate|].
  unfold headers_has. simpl. rewrite name_is_lower by exact Hl.
  destruct (jstr_eqb (map lower_unit (fst p)) name) eqn:E; simpl; intros Hh.
  - apply jstr_eqb_iff in E. unfold vals at 1. simpl. rewrite E.
    destruct (jstr_eqb name n) eqn:F.
    + apply jstr_eqb_iff in F. subst n. simpl.
      fold (vals (List.filter (fun q => negb (name_is name q)) h) name).
      rewrite vals_filter_same by exact Hl. reflexivity.
    + fold (vals (List.filter (fun q => negb (name_is name q)) h) n).
      assert (Hne : name <> n) by (intros ->; rewrite (proj2 (jstr_eqb_iff n n) eq_refl) in F; discriminate).
      rewrite vals_filter_other by assumption.
      unfold vals. simpl. rewrite E, F. reflexivity.
  - specialize (IH Hh). unfold vals in *. simpl.
    destruct (jstr_eqb (map lower_unit (fst p)) n) eqn:F; simpl; rewrite IH;
      destruct (jstr_eqb name n) eqn:G; auto.
    apply jstr_eqb_iff in F, G. subst n. rewrite F in E.
    rewrite (proj2 (jstr_eqb_iff name name) eq_refl) in E. discriminate.
Qed.

(** [set] of a valid header: afterwards it is the only header of that name. *)
Lemma set_vals (name v : list Z) (h : header_list) :
  map lower_unit name = name -> valid_name name = true -> valid_value (normalize_value v) = true ->
  exists h', headers_set name v h = Some h' /\
  forall n, map lower_unit n = n ->
  vals h' n = if jstr_eqb name n then [normalize_value v] else vals h n.
Proof.
  intros Hl Hname Hv. unfold headers_set. rewrite Hname, Hv. simpl.
  eexists; split; [reflexivity|]. intros n Hn.
  destruct (headers_has name h) eqn:Hh; [apply vals_set_first; assumption|].
  rewrite vals_app. unfold vals at 2. simpl. rewrite Hl.
  destruct (jstr_eqb name n) eqn:F; simpl.
  - apply jstr_eqb_iff in F. subst n. rewrite vals_not_has by assumption. reflexivity.
  - apply app_nil_r.
Qed.

Lemma last_opt_cons (v : list Z) (vs : list (list Z)) :
  last_opt (v :: vs) = match last_opt vs with Some w => Some w | None => Some v end.
Proof. unfold last_opt. simpl. destruct (rev vs); reflexivity. Qed.

Lemma last_for_app (n : list Z) (a b : header_list) :
  last_for n (a ++ b) = match last_for n b with Some v => Some v | None => last_for n a end.
Proof.
  induction a as [|kv a IH]; simpl.
  - destruct (last_for n b); reflexivity.
  - rewrite IH. destruct (last_for n b); reflexivity.
Qed.

Lemma last_for_map (n m : list Z) (vs : list (list Z)) :
  last_for n (map (fun v => (m, v)) vs) = if jstr_eqb m n then last_opt vs else None.
Proof.
  induction vs as [|v vs IH]; simpl.
  - destruct (jstr_eqb m n); reflexivity.
  - rewrite IH, last_opt_cons. destruct (jstr_eqb m n); [|reflexivity].
    destruct (last_opt vs); reflexivity.
Qed.

Lemma last_for_unblocked (n : list Z) (l : header_list) :
  last_for n (List.filter (fun kv => negb (HEADER_FILTER_RE_test (fst kv))) l)
  = if HEADER_FILTER_RE_test n then None else last_for n l.
Proof.
  induction l as [|kv l IH]; simpl; [destruct (HEADER_FILTER_RE_test n); reflexivity|].
  destruct (HEADER_FILTER_RE_test (fst kv)) eqn:E; simpl; rewrite IH;
    destruct (HEADER_FILTER_RE_test n) eqn:F; auto.
  all: try (destruct (last_for n l); auto).
  all: destruct (jstr_eqb (fst kv) n) eqn:G; auto.
  all: apply jstr_eqb_iff in G; subst n; congruence.
Qed.

(** The header list [filterHeaders] builds, entry after entry. *)
Lemma filter_fold (l : header_list) :
  List.Forall (fun kv => map lower_unit (fst kv) = fst kv /\ valid_name (fst kv) = true /\
                         valid_value (snd kv) = true) l ->
  forall h, exists r,
  fold_left (fun acc kv =>
               match acc with
               | None => None
               | Some cleanedHeaders =>
                   if HEADER_FILTER_RE_test (fst kv) then Some cleanedHeaders
                   else headers_set (fst kv) (snd kv) cleanedHeaders
               end) l (Some h) = Some r /\
  forall n, map lower_unit n = n ->
  vals r n = match last_for n (List.filter (fun kv => negb (HEADER_FILTER_RE_test (fst kv))) l) with
             | Some v => [normalize_value v]
             | None => vals h n
             end.
Proof.
  induction 1 as [|kv l [Hl [Hname Hv]] _ IH]; intros h; simpl.
  - exists h. split; reflexivity.
  - destruct (HEADER_FILTER_RE_test (fst kv)) eqn:E; simpl.
    + exact (IH h).
    + destruct (set_vals (fst kv) (snd kv) h Hl Hname (valid_normalize _ Hv)) as [h1 [Hs Hvals]].
      rewrite Hs. destruct (IH h1) as [r [Hr Hrv]]. exists r. split; [exact Hr|].
      intros n Hn. rewrite Hrv by exact Hn.
      destruct (last_for n _); [reflexivity|]. rewrite Hvals by exact Hn.
      destruct (jstr_eqb (fst kv) n); reflexivity.
Qed.

Lemma in_insert_name (x n : list Z) (l : list (list Z)) :
  In x (insert_name n l) <-> x = n \/ In x l.
Proof.
  induction l as [|m l IH]; simpl; [split; intros [H|[]]; left; symmetry; exact H|].
  destruct (jstr_eqb n m) eqn:E.
  - apply jstr_eqb_iff in E. subst m. simpl.
    split; [intros H; right; exact H|intros [->|H]; [left; reflexivity|exact H]].
  - destruct (lex_ltb n m); simpl.
    + split; intros [H|H]; [left; symmetry; exact H|right; exact H
                           |left; symmetry; exact H|right; exact H].
    + rewrite IH. tauto.
Qed.

Lemma in_sorted_names (x : list Z) (h : header_list) :
  In x (sorted_names h) <-> exists p, In p h /\ x = map lower_unit (fst p).
Proof.
  unfold sorted_names. induction h as [|p h IH]; simpl; [split; [tauto|intros [? [[] _]]]|].
  rewrite in_insert_name, IH. split.
  - intros [->|[q [Hq ->]]]; eauto.
  - intros [q [[<-|Hq] ->]]; eauto.
Qed.

Lemma vals_in (h : header_list) (n v : list Z) :
  In v (vals h n) -> exists p, In p h /\ map lower_unit (fst p) = n /\ snd p = v.
Proof.
  unfold vals. intros Hv. apply in_map_iff in Hv as [p [<- Hp]].
  apply List.filter_In in Hp as [Hp E]. apply jstr_eqb_iff in E. eauto.
Qed.

Lemma vals_name (h : header_list) (n : list Z) :
  vals h n <> [] -> In n (sorted_names h).
Proof.
  intros Hne. destruct (vals h n) as [|v vs] eqn:E; [contradiction|].
  destruct (vals_in h n v) as [p [Hp [Hn _]]]; [rewrite E; left; reflexivity|].
  apply in_sorted_names. eauto.
Qed.

(** What iteration yields last for a lowercase name. *)
Definition iter_last (h : header_list) (n : list Z) : option (list Z) :=
  if jstr_eqb n (u "set-cookie") then last_opt (vals h n) else headers_get h n.

Lemma last_for_sort_and_combine (h : header_list) (n : list Z) :
  last_for n (sort_and_combine h) = iter_last h n.
Proof.
  assert (Hgen : forall ns, last_for n (flat_map (combine_entry h) ns)
            = if existsb (fun m => jstr_eqb m n) ns then iter_last h n else None).
  { induction ns as [|m ns IH]; [reflexivity|].
    change (flat_map (combine_entry h) (m :: ns))
      with (combine_entry h m ++ flat_map (combine_entry h) ns).
    rewrite last_for_app, IH. cbn [existsb].
    assert (Hm : last_for n (combine_entry h m)
                 = if jstr_eqb m n then iter_last h n else None).
    { unfold combine_entry. destruct (jstr_eqb m n) eqn:E.
      - apply jstr_eqb_iff in E. subst m. unfold iter_last.
        destruct (jstr_eqb n (u "set-cookie")).
        + rewrite last_for_map, (proj2 (jstr_eqb_iff n n) eq_refl). reflexivity.
        + destruct (headers_get h n); simpl; [|reflexivity].
          rewrite (proj2 (jstr_eqb_iff n n) eq_refl). reflexivity.
      - destruct (jstr_eqb m (u "set-cookie")).
        + rewrite last_for_map, E. reflexivity.
        + destruct (headers_get h m); simpl; [|reflexivity]. rewrite E. reflexivity. }
    rewrite Hm. destruct (jstr_eqb m n), (existsb (fun m => jstr_eqb m n) ns); simpl;
      destruct (iter_last h n); reflexivity. }
  unfold sort_and_combine. rewrite Hgen.
  destruct (existsb (fun m => jstr_eqb m n) (sorted_names h)) eqn:E; [reflexivity|].
  assert (Hv : vals h n = []).
  { destruct (vals h n) eqn:F; [reflexivity|exfalso].
    assert (Hin : In n (sorted_names h)) by (apply vals_name; rewrite F; discriminate).
    assert (existsb (fun m => jstr_eqb m n) (sorted_names h) = true).
    { apply existsb_exists. exists n. split; [exact Hin|]. apply jstr_eqb_iff; reflexivity. }
    congruence. }
  unfold iter_last. rewrite headers_get_vals, Hv.
  destruct (jstr_eqb n (u "set-cookie")); reflexivity.
Qed.

Lemma sort_and_combine_valid (h : header_list) :
  headers_wf h ->
  List.Forall (fun kv => map lower_unit (fst kv) = fst kv /\ valid_name (fst kv) = true /\
                         valid_value (snd kv) = true) (sort_and_combine h).
Proof.
  intros Hwf. unfold headers_wf in Hwf. rewrite List.Forall_forall in Hwf.
  apply List.Forall_forall. intros kv Hkv. unfold sort_and_combine in Hkv.
  apply in_flat_map in Hkv as [m [Hm Hkv]]. unfold combine_entry in Hkv.
  apply in_sorted_names in Hm as [p [Hp ->]].
  destruct (Hwf p Hp) as [Hpn _].
  assert (Hvals : List.Forall (fun w => valid_value w = true) (vals h (map lower_unit (fst p)))).
  { apply List.Forall_forall. intros w Hw. apply vals_in in Hw as [q [Hq [_ <-]]].
    apply (Hwf q Hq). }
  destruct (jstr_eqb (map lower_unit (fst p)) (u "set-cookie")).
  - apply in_map_iff in Hkv as [w [<- Hw]]. simpl.
    split; [apply lower_idem|split; [apply valid_name_lower, Hpn|]].
    rewrite List.Forall_forall in Hvals. apply Hvals, Hw.
  - rewrite headers_get_vals in Hkv.
    destruct (vals h (map lower_unit (fst p))) as [|w ws] eqn:E; [destruct Hkv|].
    destruct Hkv as [<-|[]]. simpl.
    split; [apply lower_idem|split; [apply valid_name_lower, Hpn|]].
    apply List.Forall_cons_iff in Hvals as [Hw Hws]. apply valid_combined; assumption.
Qed.

(** [copy(k)] in [buildUpstreamHeaders]. *)
Lemma copy_vals (req : header_list) (k : list Z) (h : header_list) :
  headers_wf req -> map lower_unit k = k -> valid_name k = true ->
  exists h', copy req k (Some h) = Some h' /\
  forall n, map lower_unit n = n ->
  vals h' n = if jstr_eqb k n
              then match headers_get req k with
                   | Some v => if (length v =? 0)%nat then vals h n else [normalize_value v]
                   | None => vals h n
                   end
              else vals h n.
Proof.
  intros Hwf Hl Hk. unfold copy.
  destruct (headers_get req k) as [v|] eqn:Eg.
  2:{ exists h. split; [reflexivity|]. intros n _. destruct (jstr_eqb k n); reflexivity. }
  destruct (length v =? 0)%nat eqn:El; simpl.
  { exists h. split; [reflexivity|]. intros n _. destruct (jstr_eqb k n); reflexivity. }
  assert (Hv : valid_value v = true).
  { rewrite headers_get_vals in Eg. destruct (vals req k) as [|w ws] eqn:E; [discriminate|].
    injection Eg as <-. unfold headers_wf in Hwf. rewrite List.Forall_forall in Hwf.
    assert (Hall : List.Forall (fun x => valid_value x = true) (w :: ws)).
    { apply List.Forall_forall. intros x Hx. rewrite <- E in Hx.
      apply vals_in in Hx as [q [Hq [_ <-]]]. apply (Hwf q Hq). }
    apply List.Forall_cons_iff in Hall as [Hw Hws]. apply valid_combined; assumption. }
  destruct (set_vals k v h Hl Hk (valid_normalize _ Hv)) as [h' [Hs Hvals]].
  exists h'. split; [exact Hs|]. exact Hvals.
Qed.

(** X19 (BaseProxy.filterHeaders): for headers a [Headers] object
    holds (valid names and values), [filterHeaders] does not throw, and
    for every lowercase name [n] the cleaned headers give: nothing when
    [n] starts with [host], [accept-encoding], [cf-], [cdn-], [referer]
    or [referrer] (so [hostname] is dropped too). Otherwise, for
    [set-cookie], only the last of its values, normalized; for any other
    name, [headers.get(n)] of the input (all of its values joined by
    ", "), normalized. *)
Theorem filterHeaders_spec (h : header_list) (Hwf : headers_wf h) :
  exists r, filterHeaders h = Some r /\
  forall n, map lower_unit n = n ->
  headers_get r n =
  if HEADER_FILTER_RE_test n then None
  else if jstr_eqb n (u "set-cookie") then option_map normalize_value (last_opt (vals h n))
  else option_map normalize_value (headers_get h n).
Proof.
  destruct (filter_fold _ (sort_and_combine_valid h Hwf) []) as [r [Hr Hv]].
  exists r. split; [exact Hr|]. intros n Hn.
  rewrite headers_get_vals, Hv, last_for_unblocked, last_for_sort_and_combine by exact Hn.
  destruct (HEADER_FILTER_RE_test n); [reflexivity|].
  unfold iter_last. destruct (jstr_eqb n (u "set-cookie"));
    [destruct (last_opt (vals h n))|destruct (headers_get h n)]; simpl; rewrite ?app_nil_r; reflexivity.
Qed.

(** X20 (GeminiHandler.buildUpstreamHeaders): for request headers a
    [Headers] object holds, [buildUpstreamHeaders] does not throw, and
    the upstream headers have only [authorization], [x-goog-api-key],
    [content-type] and [accept]. Each of these carries the request's
    [get] value, normalized, when that value is non-empty, and is absent
    when the request lacks it or its value is the empty string. *)
Theorem buildUpstreamHeaders_spec (req : header_list) (Hwf : headers_wf req) :
  exists r, buildUpstreamHeaders req = Some r /\
  forall n, map lower_unit n = n ->
  headers_get r n =
  if existsb (fun k => jstr_eqb k n)
       [u "authorization"; u "x-goog-api-key"; u "content-type"; u "accept"]
  then match headers_get req n with
       | Some v => if (length v =? 0)%nat then None else Some (normalize_value v)
       | None => None
       end
  else None.
Proof.
  unfold buildUpstreamHeaders.
  destruct (copy_vals req (u "authorization") [] Hwf eq_refl eq_refl) as [h1 [E1 V1]].
  rewrite E1.
  destruct (copy_vals req (u "x-goog-api-key") h1 Hwf eq_refl eq_refl) as [h2 [E2 V2]].
  rewrite E2.
  destruct (copy_vals req (u "content-type") h2 Hwf eq_refl eq_refl) as [h3 [E3 V3]].
  rewrite E3.
  destruct (copy_vals req (u "accept") h3 Hwf eq_refl eq_refl) as [h4 [E4 V4]].
  rewrite E4.
  exists h4. split; [reflexivity|]. intros n Hn.
  rewrite headers_get_vals, V4, V3, V2, V1 by exact Hn. cbn [existsb].
  change (vals [] n) with (@nil (list Z)).
  destruct (jstr_eqb (u "authorization") n) eqn:F1;
    [apply jstr_eqb_iff in F1; subst n;
     destruct (headers_get req (u "authorization")) as [v|]; [destruct (length v =? 0)%nat|];
     simpl; rewrite ?app_nil_r; reflexivity|].
  destruct (jstr_eqb (u "x-goog-api-key") n) eqn:F2;
    [apply jstr_eqb_iff in F2; subst n;
     destruct (headers_get req (u "x-goog-api-key")) as [v|]; [destruct (length v =? 0)%nat|];
     simpl; rewrite ?app_nil_r; reflexivity|].
  destruct (jstr_eqb (u "content-type") n) eqn:F3;
    [apply jstr_eqb_iff in F3; subst n;
     destruct (headers_get req (u "content-type")) as [v|]; [destruct (length v =? 0)%nat|];
     simpl; rewrite ?app_nil_r; reflexivity|].
  destruct (jstr_eqb (u "accept") n) eqn:F4;
    [apply jstr_eqb_iff in F4; subst n;
     destruct (headers_get req (u "accept")) as [v|]; [destruct (length v =? 0)%nat|];
     simpl; rewrite ?app_nil_r; reflexivity|].
  reflexivity.
Qed.

Definition ex_client_headers : header_list :=
  [(u "Host", u "proxy.example"); (u "X-Trace", u "t1"); (u "x-trace", u "t2");
   (u "Set-Cookie", u "c1"); (u "set-cookie", u "c2"); (u "Hostname", u "h");
   (u "CF-Ray", u "r")].

(** Witness of X19: the example request keeps [x-trace] (combined) and
    the last [set-cookie], and loses [host], [hostname] and [cf-ray]. *)
Lemma filterHeaders_spec_witness :
  headers_wf ex_client_headers /\
  exists r, filterHeaders ex_client_headers = Some r /\
  headers_get r (u "x-trace") = Some (u "t1, t2") /\
  headers_get r (u "set-cookie") = Some (u "c2") /\
  headers_get r (u "host") = None /\ headers_get r (u "hostname") = None /\
  headers_get r (u "cf-ray") = None.
Proof.
  assert (Hwf : headers_wf ex_client_headers) by (unfold headers_wf; repeat constructor).
  split; [exact Hwf|].
  destruct (filterHeaders_spec ex_client_headers Hwf) as [r [Hr Hg]].
  exists r. split; [exact Hr|].
  rewrite (Hg (u "x-trace") eq_refl), (Hg (u "set-cookie") eq_refl), (Hg (u "host") eq_refl),
    (Hg (u "hostname") eq_refl), (Hg (u "cf-ray") eq_refl).
  vm_compute. repeat split.
Defined.

Definition ex_request_headers : header_list :=
  [(u "Host", u "proxy.example"); (u "Accept", u "text/event-stream");
   (u "Authorization", u "Bearer k"); (u "content-type", u ""); (u "Cookie", u "s=1")].

(** Witness of X20: [authorization] and [accept] are copied, the empty
    [content-type] and the other headers are not. *)
Lemma buildUpstreamHeaders_spec_witness :
  headers_wf ex_request_headers /\
  exists r, buildUpstreamHeaders ex_request_headers = Some r /\
  headers_get r (u "authorization") = Some (u "Bearer k") /\
  headers_get r (u "accept") = Some (u "text/event-stream") /\
  headers_get r (u "content-type") = None /\ headers_get r (u "cookie") = None /\
  headers_get r (u "host") = None.
Proof.
  assert (Hwf : headers_wf ex_request_headers) by (unfold headers_wf; repeat constructor).
  split; [exact Hwf|].
  destruct (buildUpstreamHeaders_spec ex_request_headers Hwf) as [r [Hr Hg]].
  exists r. split; [exact Hr|].
  rewrite (Hg (u "authorization") eq_refl), (Hg (u "accept") eq_refl),
    (Hg (u "content-type") eq_refl), (Hg (u "cookie") eq_refl), (Hg (u "host") eq_refl).
  vm_compute. repeat split.
Defined.

End FetchHeaders.

(** [sanitizeHeaders] and the [new Headers(init)] copy it starts from. *)
Module SanitizeFacts.
Import HttpBody FetchHeaders.
Import ConfigEnv (jstr_eqb_iff).

(** [headers.append(name, value)]: the value is normalized and validated;
    a header of the same name already there lends its name's case. *)
Definition headers_append (name value : list Z) (h : header_list) : option header_list :=
  let v := normalize_value value in
  if valid_name name && valid_value v then
    Some (h ++ [(match List.find (name_is name) h with Some p => fst p | None => name end, v)])
  else None.

(** [new Headers(init)] of a [Headers] object: its pairs, in iteration
    order, appended to an empty header list. *)
Definition new_Headers (init : header_list) : option header_list :=
  fold_left (fun acc kv =>
               match acc with
               | None => None
               | Some hs => headers_append (fst kv) (snd kv) hs
               end)
            (sort_and_combine init) (Some []).

Definition sensitiveKeys : list (list Z) :=
  [u "authorization"; u "x-api-key"; u "x-goog-api-key"; u "cookie"].

Definition REDACTED : list Z := u "***REDACTED***".

(** [sanitizeHeaders]. *)
Definition sanitizeHeaders (headers : header_list) : option header_list :=
  match new_Headers headers with
  | None => None
  | Some sanitized =>
      fold_left (fun acc key =>
                   match acc with
                   | None => None
                   | Some s => if headers_has key s then headers_set key REDACTED s else Some s
                   end)
                sensitiveKeys (Some sanitized)
  end.

Lemma has_vals (name : list Z) (h : header_list) :
  map lower_unit name = name -> headers_has name h = false <-> vals h name = [].
Proof.
  intros Hl. split; [apply vals_not_has, Hl|].
  induction h as [|p h IH]; [reflexivity|].
  unfold headers_has, vals in *. simpl. rewrite name_is_lower by exact Hl.
  destruct (jstr_eqb (map lower_unit (fst p)) name); [discriminate|]. exact IH.
Qed.

Lemma append_vals (name v : list Z) (h : header_list) :
  map lower_unit name = name -> valid_name name = true -> valid_value (normalize_value v) = true ->
  exists h', headers_append name v h = Some h' /\
  forall n, vals h' n = vals h n ++ (if jstr_eqb name n then [normalize_value v] else []).
Proof.
  intros Hl Hname Hv. unfold headers_append. rewrite Hname, Hv. simpl.
  eexists; split; [reflexivity|]. intros n. rewrite vals_app. f_equal.
  assert (E : map lower_unit (match List.find (name_is name) h with
                              | Some p => fst p | None => name end) = name).
  { destruct (List.find (name_is name) h) as [p|] eqn:F; [|exact Hl].
    apply List.find_some in F as [_ F]. unfold name_is in F. rewrite Hl in F.
    apply jstr_eqb_iff in F. exact F. }
  unfold vals. simpl. rewrite E. destruct (jstr_eqb name n); reflexivity.
Qed.

Lemma copy_fold (l : header_list) :
  List.Forall (fun kv => map lower_unit (fst kv) = fst kv /\ valid_name (fst kv) = true /\
                         valid_value (snd kv) = true) l ->
  forall h, exists r,
  fold_left (fun acc kv =>
               match acc with
               | None => None
               | Some hs => headers_append (fst kv) (snd kv) hs
               end) l (Some h) = Some r /\
  forall n, vals r n = [] <-> vals h n = [] /\ last_for n l = None.
Proof.
  induction 1 as [|kv l [Hl [Hname Hv]] _ IH]; intros h; simpl.
  - exists h. split; [reflexivity|]. tauto.
  - destruct (append_vals (fst kv) (snd kv) h Hl Hname (valid_normalize _ Hv)) as [h1 [Ha Hvals]].
    rewrite Ha. destruct (IH h1) as [r [Hr Hrv]]. exists r. split; [exact Hr|].
    intros n. rewrite Hrv, Hvals.
    destruct (last_for n l); [split; intros [_ H]; discriminate|].
    destruct (jstr_eqb (fst kv) n).
    + split; [intros [H _]; apply app_eq_nil in H as [_ H]; discriminate|intros [_ H]; discriminate].
    + rewrite app_nil_r. tauto.
Qed.

Lemma iter_last_none (h : header_list) (n : list Z) :
  iter_last h n = None <-> vals h n = [].
Proof.
  unfold iter_last, last_opt. rewrite headers_get_vals.
  destruct (jstr_eqb n (u "set-cookie")).
  - destruct (vals h n) as [|v vs]; [tauto|]. simpl.
    destruct (rev vs ++ [v]) eqn:E; [apply app_eq_nil in E as [_ E]; discriminate|].
    split; discriminate.
  - destruct (vals h n); [tauto|]. split; discriminate.
Qed.

Lemma new_Headers_vals (h : header_list) :
  headers_wf h -> exists c, new_Headers h = Some c /\
  forall n, vals c n = [] <-> vals h n = [].
Proof.
  intros Hwf. destruct (copy_fold _ (sort_and_combine_valid h Hwf) []) as [c [Hc Hv]].
  exists c. split; [exact Hc|]. intros n. rewrite Hv, last_for_sort_and_combine, iter_last_none.
  simpl. tauto.
Qed.

Lemma redact_fold (keys : list (list Z)) :
  List.Forall (fun k => map lower_unit k = k /\ valid_name k = true) keys ->
  forall s, exists r,
  fold_left (fun acc key =>
               match acc with
               | None => None
               | Some s => if headers_has key s then headers_set key REDACTED s else Some s
               end) keys (Some s) = Some r /\
  forall n, map lower_unit n = n ->
  vals r n = if existsb (fun k => jstr_eqb k n) keys
             then match vals s n with [] => [] | _ => [REDACTED] end
             else vals s n.
Proof.
  induction 1 as [|key keys [Hl Hk] _ IH]; intros s; simpl.
  - exists s. split; reflexivity.
  - assert (Hstep : exists s1,
      (if headers_has key s then headers_set key REDACTED s else Some s) = Some s1 /\
      forall n, map lower_unit n = n ->
      vals s1 n = if jstr_eqb key n then match vals s n with [] => [] | _ => [REDACTED] end
                  else vals s n).
    { destruct (headers_has key s) eqn:Eh.
      - destruct (set_vals key REDACTED s Hl Hk eq_refl) as [s1 [Hs Hv]].
        exists s1. split; [exact Hs|]. intros n Hn. rewrite Hv by exact Hn.
        destruct (jstr_eqb key n) eqn:E; [|reflexivity].
        apply jstr_eqb_iff in E. subst n.
        destruct (vals s key) eqn:F; [apply has_vals in F; [congruence|exact Hl]|reflexivity].
      - exists s. split; [reflexivity|]. intros n Hn.
        destruct (jstr_eqb key n) eqn:E; [|reflexivity].
        apply jstr_eqb_iff in E. subst n. apply has_vals in Eh; [|exact Hl]. rewrite Eh. reflexivity. }
    destruct Hstep as [s1 [Hs1 Hv1]]. rewrite Hs1.
    destruct (IH s1) as [r [Hr Hrv]]. exists r. split; [exact Hr|].
    intros n Hn. rewrite Hrv, Hv1 by exact Hn.
    destruct (jstr_eqb key n); simpl; [|reflexivity].
    destruct (existsb (fun k => jstr_eqb k n) keys); [|reflexivity].
    destruct (vals s n); reflexivity.
Qed.

(** X21 (sanitizeHeaders): for headers a [Headers] object holds,
    [sanitizeHeaders] does not throw, and in its result each of
    [authorization], [x-api-key], [x-goog-api-key] and [cookie] is
    exactly ***REDACTED*** when the input has a header of that name, in
    any case, and absent otherwise: no value of these headers is kept. *)
Theorem sanitize_redacts (h : header_list) (Hwf : headers_wf h) :
  exists r, sanitizeHeaders h = Some r /\
  forall k, In k sensitiveKeys ->
  headers_get r k = match vals h k with [] => None | _ => Some REDACTED end.
Proof.
  unfold sanitizeHeaders.
  destruct (new_Headers_vals h Hwf) as [c [Hc Hcv]]. rewrite Hc.
  assert (Hkeys : List.Forall (fun k => map lower_unit k = k /\ valid_name k = true) sensitiveKeys)
    by (repeat constructor).
  destruct (redact_fold sensitiveKeys Hkeys c) as [r [Hr Hrv]].
  exists r. split; [exact Hr|]. intros k Hk.
  assert (Hl : map lower_unit k = k).
  { rewrite List.Forall_forall in Hkeys. apply (Hkeys k Hk). }
  rewrite headers_get_vals, Hrv by exact Hl.
  replace (existsb (fun k' => jstr_eqb k' k) sensitiveKeys) with true.
  2:{ symmetry. apply existsb_exists. exists k. split; [exact Hk|]. apply jstr_eqb_iff; reflexivity. }
  destruct (vals c k) eqn:E1; destruct (vals h k) eqn:E2; try reflexivity.
  - apply Hcv in E1. congruence.
  - apply Hcv in E2. congruence.
Qed.

Definition ex_logged_headers : header_list :=
  [(u "Authorization", u "Bearer sk-secret"); (u "Cookie", u "a=1"); (u "cookie", u "b=2");
   (u "Accept", u "application/json")].

(** Witness of X21: the bearer token and both cookies are replaced by a
    single ***REDACTED***; [x-api-key], absent, stays absent. *)
Lemma sanitize_redacts_witness :
  headers_wf ex_logged_headers /\
  exists r, sanitizeHeaders ex_logged_headers = Some r /\
  headers_get r (u "authorization") = Some REDACTED /\
  headers_get r (u "cookie") = Some REDACTED /\
  headers_get r (u "x-api-key") = None.
Proof.
  assert (Hwf : headers_wf ex_logged_headers) by (unfold headers_wf; repeat constructor).
  split; [exact Hwf|].
  destruct (sanitize_redacts ex_logged_headers Hwf) as [r [Hr Hg]].
  exists r. split; [exact Hr|].
  rewrite (Hg (u "authorization")), (Hg (u "cookie")), (Hg (u "x-api-key"))
    by (unfold sensitiveKeys; simpl; tauto).
  vm_compute. repeat split.
Defined.

End SanitizeFacts.

(** The Gemini branch of [SpectreProxy.handleRequest]. *)
Module GeminiRouteFacts.
Import Router RouteFacts.

Definition GEMINI_TARGET : list Z := u "https://generativelanguage.googleapis.com".

Lemma lookup_gemini :
  exists rc, lookup_route (u "/" ++ u "gemini") = Some rc /\ targets rc = [GEMINI_TARGET].
Proof. eexists. split; reflexivity. Qed.

(** X22: with GEMINI_SPECIAL_HANDLING_ENABLED, a request for
    [/gemini/seg1/.../segn], without the token when preset authentication
    is off or as [/AUTH_TOKEN/gemini/...] in any case, is given to the
    Gemini handler with the target
    [https://generativelanguage.googleapis.com] followed by "/seg" for
    each non-empty segment and the query string, whatever the Upgrade
    header: a WebSocket upgrade is not proxied as a WebSocket. *)
Theorem gemini_route_target (cfg : config) (authenticated : bool) (search : list Z)
    (segs : list (list Z)) (upgrade : option (list Z)) (url_ok : list Z -> bool) (pick : nat) :
  GEMINI_SPECIAL_HANDLING_ENABLED cfg = true ->
  (if authenticated
   then AUTH_TOKEN cfg <> [] /\ ~ In 47 (AUTH_TOKEN cfg) /\ jstr_eqb (AUTH_TOKEN cfg) (u "test") = false
   else jstr_eqb (u "gemini") (AUTH_TOKEN cfg) = false /\ PRESET_AUTH_ENABLED cfg = false) ->
  Forall (fun s => ~ In 47 s) segs ->
  handleRequest cfg
    (join [47] ([] :: (if authenticated then [AUTH_TOKEN cfg] else []) ++ u "gemini" :: segs))
    search upgrade url_ok pick
  = GeminiRoute (GEMINI_TARGET ++ concat (map (fun s => [47] ++ s) (filter nonempty segs)) ++ search).
Proof.
  intros Hgem Ha Hs.
  destruct lookup_gemini as [rc [Hl Ht]].
  assert (Hn : Forall (fun s => ~ In 47 s) (u "gemini" :: segs))
    by (constructor; [exact (Forall_inv (no_slash_dec [u "gemini"] eq_refl))|exact Hs]).
  unfold handleRequest.
  destruct authenticated.
  - destruct Ha as (Hne & Htok & Htt).
    change ([AUTH_TOKEN cfg] ++ u "gemini" :: segs) with (AUTH_TOKEN cfg :: u "gemini" :: segs).
    rewrite (path_parts_join (AUTH_TOKEN cfg :: u "gemini" :: segs)) by (constructor; [exact Htok|exact Hn]).
    rewrite filter_cons_True by (rewrite (nonempty_x _ Hne); constructor).
    rewrite filter_cons_True by (rewrite (nonempty_x (u "gemini") ltac:(discriminate)); constructor).
    rewrite Htt, jstr_eqb_refl', Hl, andb_false_r, Ht. cbn [selectTarget].
    rewrite Hgem. change (jstr_eqb (u "/" ++ u "gemini") (u "/gemini")) with true. cbn [andb].
    rewrite remaining_path by apply filter_nonempty_ne. reflexivity.
  - destruct Ha as (Htok & Hp).
    change ([] ++ u "gemini" :: segs) with (u "gemini" :: segs).
    rewrite (path_parts_join (u "gemini" :: segs)) by exact Hn.
    rewrite filter_cons_True by (rewrite (nonempty_x (u "gemini") ltac:(discriminate)); constructor).
    change (jstr_eqb (u "gemini") (u "test")) with false. cbn iota.
    rewrite Htok, Hl, Hp, Ht. cbn [andb negb selectTarget].
    rewrite Hgem. change (jstr_eqb (u "/" ++ u "gemini") (u "/gemini")) with true. cbn [andb].
    rewrite remaining_path by apply filter_nonempty_ne. reflexivity.
Qed.

(** Witness of X22: a WebSocket request for
    [/secret/gemini/v1beta/models/m:streamGenerateContent?alt=sse] goes
    to the Gemini handler. *)
Lemma gemini_route_target_witness :
  handleRequest ex_cfg (u "/secret/gemini/v1beta/models/m:streamGenerateContent") (u "?alt=sse")
    (Some (u "websocket")) (fun _ => true) 0
  = GeminiRoute (u "https://generativelanguage.googleapis.com/v1beta/models/m:streamGenerateContent?alt=sse").
Proof.
  replace (u "/secret/gemini/v1beta/models/m:streamGenerateContent")
    with (join [47] ([] :: (if true then [AUTH_TOKEN ex_cfg] else []) ++
                     u "gemini" :: [u "v1beta"; u "models"; u "m:streamGenerateContent"])) by reflexivity.
  rewrite (gemini_route_target ex_cfg true (u "?alt=sse") [u "v1beta"; u "models"; u "m:streamGenerateContent"]
             (Some (u "websocket")) (fun _ => true) 0).
  - reflexivity.
  - reflexivity.
  - split; [discriminate|split; [exact (Forall_inv (no_slash_dec [u "secret"] eq_refl))|reflexivity]].
  - apply no_slash_dec. reflexivity.
Defined.

End GeminiRouteFacts.

(* ================================================================== *)
(** * Response head parsing: parseHttpHeaders *)
(* ================================================================== *)

(** [parseHttpHeaders] on a response head written out from its parts. *)
Module HeadFacts.
Import HttpBody StrFacts.
Import ChunkFacts (index_of_cons).
Import HttpBodyFacts (ascii, ascii_app, decode_ascii_app).




























(** X24: a header line with no [": "] in it (such as [Content-Length:5],
    without the space) is skipped by [parseHttpHeaders]' header loop: it
    neither throws nor adds a header, wherever it stands among the lines. *)
Theorem append_headers_skips_line (acc : header_list) (pre : list (list Z))
    (line : list Z) (post : list (list Z)) :
  includes line (u ": ") = false ->
  append_headers acc (pre ++ line :: post) = append_headers acc (pre ++ post).
Proof.
  intros H. revert acc. induction pre as [|l pre IH]; intros acc; cbn [app append_headers].
  - unfold includes in H. destruct (index_of (u ": ") line); [discriminate|reflexivity].
  - destruct (index_of (u ": ") l); [|apply IH].
    destruct (_ && _ && _); [apply IH|reflexivity].
Qed.

Lemma append_headers_skips_line_witness :
  includes (u "Content-Length:5") (u ": ") = false /\
  append_headers [] ([] ++ u "Content-Length:5" :: [u "Content-Type: text/plain"]) =
    Some [(u "Content-Type", u "text/plain")].
Proof.
  split; [vm_compute; reflexivity|].
  rewrite (append_headers_skips_line [] [] (u "Content-Length:5") [u "Content-Type: text/plain"])
    by (vm_compute; reflexivity).
  vm_compute. reflexivity.
Defined.

End HeadFacts.
